(** * limitedRowbot: the execution and safety pipeline

    A shallow embedding of the rate limiter, the tool validator, the
    enhanced permission guard and the two execution engines of the
    repository, with the properties their specification states; and of
    the code around them: the tool registry, the shell tools, the tool
    orchestrator, the basic permission guard and the agent, with further
    properties of the whole.

    Conventions.  JavaScript numbers that hold counts and millisecond
    timestamps are integers ([Z]); a [Map] is a [gmap], or a list of
    bindings where its order of insertion shows; arrays are lists;
    [Date.now()] is an explicit argument; a callback of the environment
    (planner, executor, formatter, confirmation callback) is a function or
    a script handed to the model.  A string is the sequence of its
    bytes; the string methods that depend on the Unicode tables
    ([toLowerCase], [trim]) or on the code units ([substring],
    [length]) are methods of the environment, and the properties of the
    code that uses them hold whatever they compute. *)

From Stdlib Require Import ZArith Ascii String Lia.
From Equations Require Import Equations.
From stdpp Require Import gmap strings list fin_maps pretty.

Set Warnings "-register-all".

Local Open Scope string_scope.
Local Open Scope list_scope.
Local Open Scope Z_scope.

(** ** packages/tool-system/src/rate-limiter.ts *)

Module RateLimiter.

Record RateLimitConfig := mkConfig { maxCalls : Z; windowMs : Z }.

Record RateLimitResult := mkResult {
  allowed : bool;
  remaining : Z;
  resetTime : Z;
  retryAfter : option Z
}.

Record ToolRateState := mkState { calls : list Z; config : RateLimitConfig }.

Definition DEFAULT_CONFIG : RateLimitConfig :=
  {| maxCalls := 100; windowMs := 60000 |}.

Definition TOOL_SPECIFIC_CONFIGS : gmap string RateLimitConfig :=
  list_to_map
    [ ("shell_execute", {| maxCalls := 20; windowMs := 60000 |});
      ("powershell_execute", {| maxCalls := 20; windowMs := 60000 |});
      ("file_read", {| maxCalls := 200; windowMs := 60000 |});
      ("file_write", {| maxCalls := 50; windowMs := 60000 |});
      ("file_delete", {| maxCalls := 20; windowMs := 60000 |}) ].

(** [toolStates], the map owned by one [createRateLimiter()] closure. *)
Abbreviation Limiter := (gmap string ToolRateState).

Definition createRateLimiter : Limiter := ∅.

(** The members that every plain object inherits from
    [Object.prototype].  [TOOL_SPECIFIC_CONFIGS] is a plain object, and
    [TOOL_SPECIFIC_CONFIGS[toolName]] at one of these names is the
    inherited member, which is no configuration: its [maxCalls] and
    [windowMs] are [undefined], and no check of such a tool denies. *)
Definition inheritedMembers : list string :=
  [ "constructor"; "hasOwnProperty"; "isPrototypeOf"; "propertyIsEnumerable";
    "toLocaleString"; "toString"; "valueOf"; "__proto__";
    "__defineGetter__"; "__defineSetter__"; "__lookupGetter__";
    "__lookupSetter__" ].

(** [getState]: the entry of the tool, created on first use.  The
    configuration of a new entry is described for the tool names outside
    [inheritedMembers]. *)
Definition getState (toolName : string) (toolStates : Limiter)
  : ToolRateState * Limiter :=
  match toolStates !! toolName with
  | Some state => (state, toolStates)
  | None =>
      let state :=
        {| calls := [];
           config := default DEFAULT_CONFIG (TOOL_SPECIFIC_CONFIGS !! toolName) |} in
      (state, <[toolName := state]> toolStates)
  end.

(** [cleanOldCalls]: keeps the timestamps with [time > now - windowMs]. *)
Definition cleanOldCalls (state : ToolRateState) (now : Z) : ToolRateState :=
  let windowStart := now - windowMs (config state) in
  {| calls := filter (λ time, windowStart < time) (calls state);
     config := config state |}.

Definition check (toolName : string) (now : Z) (toolStates : Limiter)
  : RateLimitResult * Limiter :=
  let '(state0, toolStates) := getState toolName toolStates in
  let state := cleanOldCalls state0 now in
  let toolStates := <[toolName := state]> toolStates in
  let cfg := config state in
  let firstCall := head (calls state) in
  let resetTime :=
    match firstCall with
    | Some t => t + windowMs cfg
    | None => now + windowMs cfg
    end in
  if decide (maxCalls cfg ≤ Z.of_nat (length (calls state))) then
    ({| allowed := false;
        remaining := 0;
        resetTime := resetTime;
        retryAfter :=
          Some (match firstCall with
                | Some t => t + windowMs cfg - now
                | None => windowMs cfg
                end) |}, toolStates)
  else
    ({| allowed := true;
        remaining := maxCalls cfg - Z.of_nat (length (calls state));
        resetTime := resetTime;
        retryAfter := None |}, toolStates).

Definition record (toolName : string) (now : Z) (toolStates : Limiter) : Limiter :=
  let '(state, toolStates) := getState toolName toolStates in
  <[toolName := {| calls := calls state ++ [now]; config := config state |}]> toolStates.

Definition getConfig (toolName : string) (toolStates : Limiter)
  : RateLimitConfig * Limiter :=
  let '(state, toolStates) := getState toolName toolStates in
  (config state, toolStates).

Definition setConfig (toolName : string) (cfg : RateLimitConfig)
    (toolStates : Limiter) : Limiter :=
  let '(state, toolStates) := getState toolName toolStates in
  <[toolName := {| calls := calls state; config := cfg |}]> toolStates.

(** The timestamps that [cleanOldCalls] keeps at time [now]. *)
Definition inWindow (cfg : RateLimitConfig) (now : Z) (times : list Z) : list Z :=
  filter (λ time, now - windowMs cfg < time) times.

(** [record] once per timestamp of [times], in order. *)
Definition recordAll (toolName : string) (times : list Z) (toolStates : Limiter)
  : Limiter :=
  foldl (λ ts now, record toolName now ts) toolStates times.

(** What the limiter holds for a tool, whether or not the entry exists yet. *)
Definition callsOf (toolName : string) (toolStates : Limiter) : list Z :=
  calls (getState toolName toolStates).1.
Definition configOf (toolName : string) (toolStates : Limiter) : RateLimitConfig :=
  config (getState toolName toolStates).1.

End RateLimiter.

(** ** JavaScript values, as far as the validator inspects them *)

Module Js.

Inductive JsValue :=
| JUndefined
| JNull
| JBool (b : bool)
| JNumber (n : Z)
| JString (s : string)
| JArray (items : list JsValue)
| JObject (fields : list (string * JsValue))
| JFunction.

(** [Array.isArray(value) ? 'array' : typeof value] *)
Definition actualTypeOf (value : JsValue) : string :=
  match value with
  | JUndefined => "undefined"
  | JNull => "object"
  | JBool _ => "boolean"
  | JNumber _ => "number"
  | JString _ => "string"
  | JArray _ => "array"
  | JObject _ => "object"
  | JFunction => "function"
  end.

Definition typeof (value : JsValue) : string :=
  match value with
  | JArray _ => "object"
  | _ => actualTypeOf value
  end.

Definition isNull (value : JsValue) : bool :=
  match value with JNull => true | _ => false end.

(** An own property of an object literal: the first binding of the key. *)
Fixpoint ownProperty (fields : list (string * JsValue)) (key : string)
  : option JsValue :=
  match fields with
  | [] => None
  | (k, v) :: rest => if decide (k = key) then Some v else ownProperty rest key
  end.

(** [obj[key]]: an own property, else what the prototype chain gives
    ([inherited], [JUndefined] for a name no prototype defines). An array
    answers to ["length"] and to the decimal spelling of its indices. *)
Definition getProperty (inherited : string → JsValue) (obj : JsValue)
    (key : string) : JsValue :=
  match obj with
  | JObject fields => default (inherited key) (ownProperty fields key)
  | JArray items =>
      if decide (key = "length") then JNumber (Z.of_nat (length items))
      else match list_find (λ i, pretty i = key) (seq 0 (length items)) with
           | Some (_, i) => default JUndefined (items !! i)
           | None => inherited key
           end
  | _ => JUndefined
  end.

End Js.

(** ** packages/tool-system/src/types.ts and tool-validator.ts *)

Module ToolValidator.
Import Js.

Inductive ToolParameterProperty := mkProperty {
  ptype : string;
  pdescription : string;
  penum : option (list string);
  pitems : option ToolParameterProperty;
  pproperties : option (list (string * ToolParameterProperty))
}.

Record ToolParameters := mkParameters {
  properties : list (string * ToolParameterProperty);
  required : option (list string)
}.

Record Tool := mkTool {
  name : string;
  description : string;
  parameters : ToolParameters
}.

Record ValidationResult := mkValidation { valid : bool; errors : list string }.

(** [list.join(sep)] *)
Fixpoint join (sep : string) (l : list string) : string :=
  match l with
  | [] => ""
  | [s] => s
  | s :: rest => s +:+ sep +:+ join sep rest
  end.

(** [prop.enum.includes(value)]: only a string can be a member. *)
Definition enumIncludes (enum : list string) (value : JsValue) : bool :=
  match value with
  | JString s => bool_decide (s ∈ enum)
  | _ => false
  end.

Section Validator.
(** Members found on the prototype chain of a parameter object. *)
Variable inherited : string → JsValue.

Fixpoint validateProperty (value : JsValue) (prop : ToolParameterProperty)
    (path : string) {struct prop} : list string :=
  match value with
  | JUndefined | JNull => []
  | _ =>
    let actualType := actualTypeOf value in
    if bool_decide (actualType ≠ ptype prop)
         && negb (bool_decide (actualType = "number")
                  && bool_decide (ptype prop = "number"))
    then [path +:+ ": expected " +:+ ptype prop +:+ ", got " +:+ actualType]
    else
      let enumErrors :=
        match penum prop with
        | Some enum =>
            if enumIncludes enum value then []
            else [path +:+ ": value must be one of [" +:+ join ", " enum +:+ "]"]
        | None => []
        end in
      let itemErrors :=
        match pitems prop, value with
        | Some itemProp, JArray items =>
            if bool_decide (ptype prop = "array") then
              concat (imap (λ index item,
                        validateProperty item itemProp
                          (path +:+ "[" +:+ pretty index +:+ "]")) items)
            else []
        | _, _ => []
        end in
      let nestedErrors :=
        match pproperties prop with
        | Some props =>
            if bool_decide (ptype prop = "object")
               && bool_decide (typeof value = "object") then
              (fix entries (l : list (string * ToolParameterProperty)) : list string :=
                 match l with
                 | [] => []
                 | (key, nestedProp) :: rest =>
                     let nestedValue := getProperty inherited value key in
                     ((match nestedValue with
                       | JUndefined => []
                       | _ => validateProperty nestedValue nestedProp
                                (path +:+ "." +:+ key)
                       end) ++ entries rest)%list
                 end) props
            else []
        | None => []
        end in
      (enumErrors ++ itemErrors ++ nestedErrors)%list
  end.

(** The first loop of [validateSchema]: one error per required name
    whose value is [undefined]. *)
Definition requiredErrors (paramObj : JsValue) (required : list string)
  : list string :=
  flat_map (λ req,
    match getProperty inherited paramObj req with
    | JUndefined => ["Missing required parameter: " +:+ req]
    | _ => []
    end) required.

(** The second loop: [Object.entries(schema.properties)] in order. *)
Definition propertyErrors (paramObj : JsValue)
    (props : list (string * ToolParameterProperty)) : list string :=
  flat_map (λ '(key, prop),
    match getProperty inherited paramObj key with
    | JUndefined => []
    | value => validateProperty value prop key
    end) props.

Definition validateSchema (params : JsValue) (schema : ToolParameters)
  : ValidationResult :=
  if bool_decide (typeof params ≠ "object") || isNull params then
    {| valid := false; errors := ["Parameters must be an object"] |}
  else
    let errors :=
      ((match required schema with
        | Some reqs => requiredErrors params reqs
        | None => []
        end) ++ propertyErrors params (properties schema))%list in
    {| valid := bool_decide (length errors = 0%nat); errors := errors |}.

Definition validate (tools : gmap string Tool) (toolName : string)
    (params : JsValue) : ValidationResult :=
  match tools !! toolName with
  | None => {| valid := false; errors := ["Tool not found: " +:+ toolName] |}
  | Some tool => validateSchema params (parameters tool)
  end.

End Validator.

End ToolValidator.

(** ** The string methods the guards and the shell tools use

    A string is held as the bytes of its UTF-8 form.  Equality,
    concatenation, [startsWith] and [includes] are the same on these
    bytes as on the UTF-16 code units of a well-formed string.  The
    methods whose result depends on the Unicode tables or on the code
    units ([toLowerCase], [trim], [substring], [length]) belong to the
    environment: [StringPrototype] holds them, and what is proved of the
    code is proved for whatever they are.  [asciiStrings] is what they
    are on ASCII strings; concrete inputs, all ASCII, are evaluated with
    it. *)

Module JsString.

Class StringPrototype := mkStringPrototype {
  toLowerCase : string → string;
  trim : string → string;
  (** [s.substring(start, end)] *)
  substring : string → nat → nat → string;
  (** [s.length] *)
  lengthOf : string → nat
}.

(** [s.startsWith(p)] *)
Definition startsWith (s p : string) : bool := String.prefix p s.

(** [s.includes(sub)] *)
Fixpoint includes (s sub : string) : bool :=
  startsWith s sub ||
  match s with
  | EmptyString => false
  | String _ rest => includes rest sub
  end.

(** *** The methods on ASCII strings *)

Definition lowerChar (c : ascii) : ascii :=
  let n := N_of_ascii c in
  if ((65 <=? n) && (n <=? 90))%N then ascii_of_N (n + 32) else c.

Fixpoint asciiToLowerCase (s : string) : string :=
  match s with
  | EmptyString => EmptyString
  | String c rest => String (lowerChar c) (asciiToLowerCase rest)
  end.

(** The white space and the line terminators of ASCII: tab, line feed,
    vertical tab, form feed, carriage return, space. *)
Definition isWhiteSpace (c : ascii) : bool :=
  let n := N_of_ascii c in
  (((9 <=? n) && (n <=? 13)) || (n =? 32))%N.

Fixpoint trimStart (s : string) : string :=
  match s with
  | EmptyString => EmptyString
  | String c rest => if isWhiteSpace c then trimStart rest else s
  end.

Fixpoint trimEnd (s : string) : string :=
  match s with
  | EmptyString => EmptyString
  | String c rest =>
      match trimEnd rest with
      | EmptyString => if isWhiteSpace c then EmptyString else String c EmptyString
      | kept => String c kept
      end
  end.

Definition asciiTrim (s : string) : string := trimEnd (trimStart s).

Definition asciiStrings : StringPrototype :=
  {| toLowerCase := asciiToLowerCase;
     trim := asciiTrim;
     substring := λ s start end_, String.substring start (end_ - start) s;
     lengthOf := String.length |}.

Definition firstChar (s : string) : option ascii :=
  match s with
  | EmptyString => None
  | String c _ => Some c
  end.

Fixpoint lastChar (s : string) : option ascii :=
  match s with
  | EmptyString => None
  | String c rest =>
      match lastChar rest with
      | None => Some c
      | found => found
      end
  end.

(** An ASCII string that neither begins nor ends with white space. *)
Definition edgeFree (s : string) : bool :=
  from_option (λ c, negb (isWhiteSpace c)) true (firstChar s)
  && from_option (λ c, negb (isWhiteSpace c)) true (lastChar s).

End JsString.

(** ** packages/permission-system/src/types.ts and enhanced-permission-guard.ts *)

Module PermissionGuard.
Import JsString.

Inductive RiskLevel := READ | MODIFY | DELETE | SYSTEM.

#[export] Instance RiskLevel_eq_dec : EqDecision RiskLevel.
Proof. solve_decision. Defined.

Definition riskLevelName (r : RiskLevel) : string :=
  match r with
  | READ => "READ" | MODIFY => "MODIFY" | DELETE => "DELETE" | SYSTEM => "SYSTEM"
  end.

Record PermissionRequest := mkRequest {
  toolName : string;
  action : string;
  target : option string;
  riskLevel : RiskLevel;
  description : string
}.

Record PermissionResult := mkPermission {
  granted : bool;
  reason : option string;
  requiresBackup : bool
}.

Record ApprovalPolicy := mkPolicy {
  autoApprove : list RiskLevel;
  requireConfirmation : list RiskLevel;
  denyByDefault : bool
}.

Record WhitelistConfig := mkWhitelist {
  allowedCommands : list string;
  allowedPaths : list string;
  allowedDomains : list string;
  deniedCommands : list string;
  deniedPaths : list string;
  deniedDomains : list string
}.

Record EnhancedPermissionConfig := mkEnhancedConfig {
  cfgApprovalPolicy : option ApprovalPolicy;
  cfgWhitelist : option WhitelistConfig;
  cfgSessionTimeout : option Z;
  cfgMaxApprovalsPerSession : option Z
}.

Record SessionState := mkSession {
  approvals : gmap string Z;
  lastActivity : Z
}.

Definition DEFAULT_WHITELIST : WhitelistConfig :=
  {| allowedCommands := [];
     allowedPaths := [];
     allowedDomains := [];
     deniedCommands :=
       ["rm -rf"; "del /s"; "format"; "shutdown"; "restart"; "reg delete"; "bcdedit"];
     deniedPaths := ["C:\Windows\System32"; "C:\Program Files"; "/etc"; "/usr/bin"];
     deniedDomains := [] |}.

Definition DEFAULT_APPROVAL_POLICY : ApprovalPolicy :=
  {| autoApprove := [READ];
     requireConfirmation := [MODIFY; DELETE; SYSTEM];
     denyByDefault := false |}.

(** The closure of [createEnhancedPermissionGuard]: the merged
    configuration, the registered callback and the session state. *)
Record Guard := mkGuard {
  whitelist : WhitelistConfig;
  approvalPolicy : ApprovalPolicy;
  sessionTimeout : Z;
  maxApprovalsPerSession : Z;
  callback : option (PermissionRequest → bool);
  sessionState : SessionState
}.

Definition createEnhancedPermissionGuard (config : EnhancedPermissionConfig)
    (now : Z) : Guard :=
  {| whitelist := default DEFAULT_WHITELIST (cfgWhitelist config);
     approvalPolicy := default DEFAULT_APPROVAL_POLICY (cfgApprovalPolicy config);
     sessionTimeout := default 300000 (cfgSessionTimeout config);
     maxApprovalsPerSession := default 100 (cfgMaxApprovalsPerSession config);
     callback := None;
     sessionState := {| approvals := ∅; lastActivity := now |} |}.

Definition setCallback (cb : PermissionRequest → bool) (g : Guard) : Guard :=
  {| whitelist := whitelist g;
     approvalPolicy := approvalPolicy g;
     sessionTimeout := sessionTimeout g;
     maxApprovalsPerSession := maxApprovalsPerSession g;
     callback := Some cb;
     sessionState := sessionState g |}.

Definition withSession (g : Guard) (s : SessionState) : Guard :=
  {| whitelist := whitelist g;
     approvalPolicy := approvalPolicy g;
     sessionTimeout := sessionTimeout g;
     maxApprovalsPerSession := maxApprovalsPerSession g;
     callback := callback g;
     sessionState := s |}.

Definition withWhitelist (g : Guard) (w : WhitelistConfig) : Guard :=
  {| whitelist := w;
     approvalPolicy := approvalPolicy g;
     sessionTimeout := sessionTimeout g;
     maxApprovalsPerSession := maxApprovalsPerSession g;
     callback := callback g;
     sessionState := sessionState g |}.

(** A whitelist with other domain lists. *)
Definition withDomains (w : WhitelistConfig) (denied allowed_ : list string)
  : WhitelistConfig :=
  {| allowedCommands := allowedCommands w;
     allowedPaths := allowedPaths w;
     allowedDomains := allowed_;
     deniedCommands := deniedCommands w;
     deniedPaths := deniedPaths w;
     deniedDomains := denied |}.

(** The [{ allowed, reason? }] objects of the three whitelist checks. *)
Record CheckResult := mkCheck { allowed : bool; checkReason : option string }.

Section Evaluate.
Context `{!StringPrototype}.
(** [new URL(url).hostname], [None] when the constructor throws. *)
Variable hostnameOf : string → option string.

Definition isCommandAllowed (w : WhitelistConfig) (command : string) : CheckResult :=
  let cmd := trim (toLowerCase command) in
  match list_find (λ denied, includes cmd (toLowerCase denied) = true)
          (deniedCommands w) with
  | Some (_, denied) =>
      {| allowed := false;
         checkReason := Some ("Command contains denied pattern: " +:+ denied) |}
  | None =>
      if bool_decide (0 < length (allowedCommands w))%nat
         && negb (existsb (λ a, includes cmd (toLowerCase a)) (allowedCommands w))
      then {| allowed := false; checkReason := Some "Command not in allowed list" |}
      else {| allowed := true; checkReason := None |}
  end.

Definition isPathAllowed (w : WhitelistConfig) (targetPath : string) : CheckResult :=
  match list_find (λ denied,
            startsWith (toLowerCase targetPath) (toLowerCase denied) = true)
          (deniedPaths w) with
  | Some (_, denied) =>
      {| allowed := false;
         checkReason := Some ("Path is in denied list: " +:+ denied) |}
  | None =>
      if bool_decide (0 < length (allowedPaths w))%nat
         && negb (existsb (λ a, startsWith (toLowerCase targetPath) (toLowerCase a))
                    (allowedPaths w))
      then {| allowed := false; checkReason := Some "Path not in allowed list" |}
      else {| allowed := true; checkReason := None |}
  end.

Definition isDomainAllowed (w : WhitelistConfig) (url : string) : CheckResult :=
  match hostnameOf url with
  | Some hostname =>
      let domain := toLowerCase hostname in
      match list_find (λ denied, includes domain (toLowerCase denied) = true)
              (deniedDomains w) with
      | Some (_, denied) =>
          {| allowed := false;
             checkReason := Some ("Domain is in denied list: " +:+ denied) |}
      | None =>
          if bool_decide (0 < length (allowedDomains w))%nat
             && negb (existsb (λ a, includes domain (toLowerCase a))
                        (allowedDomains w))
          then {| allowed := false; checkReason := Some "Domain not in allowed list" |}
          else {| allowed := true; checkReason := None |}
      end
  | None => {| allowed := true; checkReason := None |}
  end.

Definition checkSessionLimit (g : Guard) (now : Z) (toolName : string)
  : bool * SessionState :=
  let s := sessionState g in
  let approvals :=
    if decide (sessionTimeout g < now - lastActivity s) then ∅ else approvals s in
  let currentCount := default 0 (approvals !! toolName) in
  if decide (maxApprovalsPerSession g ≤ currentCount) then
    (false, {| approvals := approvals; lastActivity := now |})
  else
    (true, {| approvals := <[toolName := currentCount + 1]> approvals;
              lastActivity := now |}).

Definition denied (r : CheckResult) : PermissionResult :=
  {| granted := false; reason := checkReason r; requiresBackup := false |}.

(** A [target] that is set and not the empty string. *)
Definition truthy (target : option string) : option string :=
  match target with
  | Some "" => None
  | other => other
  end.

(** The command check of [evaluate]: [Some] denial or [None]. *)
Definition commandStage (g : Guard) (request : PermissionRequest)
  : option PermissionResult :=
  match truthy (target request) with
  | Some t =>
      if bool_decide (action request = "shell")
         && negb (allowed (isCommandAllowed (whitelist g) t))
      then Some (denied (isCommandAllowed (whitelist g) t))
      else None
  | None => None
  end.

Definition pathStage (g : Guard) (request : PermissionRequest)
  : option PermissionResult :=
  match truthy (target request) with
  | Some t =>
      if negb (startsWith t "http") && negb (allowed (isPathAllowed (whitelist g) t))
      then Some (denied (isPathAllowed (whitelist g) t))
      else None
  | None => None
  end.

Definition domainStage (g : Guard) (request : PermissionRequest)
  : option PermissionResult :=
  match truthy (target request) with
  | Some t =>
      if startsWith t "http" && negb (allowed (isDomainAllowed (whitelist g) t))
      then Some (denied (isDomainAllowed (whitelist g) t))
      else None
  | None => None
  end.

(** The three whitelist checks, short-circuiting on the first denial. *)
Definition whitelistStage (g : Guard) (request : PermissionRequest)
  : option PermissionResult :=
  match commandStage g request with
  | Some r => Some r
  | None =>
      match pathStage g request with
      | Some r => Some r
      | None => domainStage g request
      end
  end.

(** The risk-tier policy, the session quota and the callback. *)
Definition policyStage (g : Guard) (now : Z) (request : PermissionRequest)
  : PermissionResult * Guard :=
  let policy := approvalPolicy g in
  let risk := riskLevel request in
  if bool_decide (risk ∈ autoApprove policy) then
    ({| granted := true; reason := None;
        requiresBackup := bool_decide (risk = MODIFY) |}, g)
  else if negb (bool_decide (risk ∈ requireConfirmation policy)) then
    ({| granted := negb (denyByDefault policy);
        reason := if denyByDefault policy then Some "Denied by policy" else None;
        requiresBackup := false |}, g)
  else
    let '(ok, session) := checkSessionLimit g now (toolName request) in
    let g := withSession g session in
    if negb ok then
      ({| granted := false;
          reason := Some ("Session approval limit reached for "
                          +:+ toolName request);
          requiresBackup := false |}, g)
    else
      match callback g with
      | Some cb =>
          let userApproved := cb request in
          ({| granted := userApproved;
              reason := if userApproved then None
                        else Some "User denied permission";
              requiresBackup := bool_decide (risk = MODIFY) |}, g)
      | None =>
          ({| granted := false;
              reason := Some "No permission callback configured for interactive confirmation";
              requiresBackup := false |}, g)
      end.

Definition evaluate (g : Guard) (now : Z) (request : PermissionRequest)
  : PermissionResult * Guard :=
  match whitelistStage g request with
  | Some r => (r, g)
  | None => policyStage g now request
  end.

(** The branches of the policy stage that set [requiresBackup] from the
    tier: the auto-approve list, and the callback once the session
    quota lets the request through. *)
Definition backupBranch (g : Guard) (now : Z) (request : PermissionRequest) : Prop :=
  riskLevel request ∈ autoApprove (approvalPolicy g)
  ∨ (riskLevel request ∈ requireConfirmation (approvalPolicy g)
     ∧ (checkSessionLimit g now (toolName request)).1 = true
     ∧ is_Some (callback g)).

End Evaluate.

End PermissionGuard.

(** ** packages/execution-engine/src/types.ts

    Opaque payloads ([params], executor results) are [JsValue]s.  The slots
    of a result array have type [R]: [StepResult] for the dense array of
    the basic engine, [option StepResult] for the [new Array(n)] of the
    enhanced engine, whose slots may stay empty. *)

Module EngineTypes.
Import Js.

Record PlanStep := mkStep {
  id : string;
  toolName : string;
  params : JsValue;
  riskLevel : string;
  description : option string
}.

Record StepResult := mkStepResult {
  stepId : string;
  success : bool;
  result : option JsValue;
  error : option string
}.

Inductive Phase := planning | executing | formatting.

Inductive ConfirmType := plan | permission.

Inductive ResultData (R : Type) :=
| Formatted (text : string)
| RawSteps (results : list R).
Arguments Formatted {R} text.
Arguments RawSteps {R} results.

Inductive ExecutionEvent (R : Type) :=
| EvStatus (message : string) (phase : Phase)
| EvConfirmPlan (taskId goal : string) (steps highRiskSteps : list PlanStep)
| EvConfirmPermission (toolName action riskLevel description : string)
| EvStepStart (stepIndex totalSteps : nat) (toolName : string)
    (description : option string)
| EvStepComplete (stepIndex : nat) (success : bool) (result : option JsValue)
    (error : option string)
| EvResult (success : bool) (data : option (ResultData R)) (error : option string)
| EvError (message : string).
Arguments EvStatus {R} message phase.
Arguments EvConfirmPlan {R} taskId goal steps highRiskSteps.
Arguments EvConfirmPermission {R} toolName action riskLevel description.
Arguments EvStepStart {R} stepIndex totalSteps toolName description.
Arguments EvStepComplete {R} stepIndex success result error.
Arguments EvResult {R} success data error.
Arguments EvError {R} message.

Record ExecutionResult (R : Type) := mkExecutionResult {
  runSuccess : bool;
  runError : option string;
  steps : list R
}.
Arguments mkExecutionResult {R} runSuccess runError steps.
Arguments runSuccess {R} e.
Arguments runError {R} e.
Arguments steps {R} e.

(** What an engine does that the outside can see, in the order it does
    it: the events it yields or emits, the confirmations it starts to
    wait for, and its calls of the three collaborators. *)
Inductive Action (R : Type) :=
| Emit (event : ExecutionEvent R)
| AwaitConfirm (type : ConfirmType)
| CallPlanner (goal : string)
| CallExecutor (step : PlanStep)
| CallFormatter (goal : string) (results : list R).
Arguments Emit {R} event.
Arguments AwaitConfirm {R} type.
Arguments CallPlanner {R} goal.
Arguments CallExecutor {R} step.
Arguments CallFormatter {R} goal results.

(** How an awaited promise settles; a rejection carries
    [error instanceof Error ? error.message : String(error)]. *)
Inductive Settled (A : Type) :=
| Resolved (value : A)
| Rejected (message : string).
Arguments Resolved {A} value.
Arguments Rejected {A} message.

(** What the controller does to a pending confirmation: [confirmX(true)],
    [confirmX(false)] or [cancel()], which resolves it to [false]. *)
Inductive Answer := Approve | Reject | Cancel.

(** The controller of one run.  The [cancel...] flags say whether
    [cancel()] is called in a stretch of the run where no answer of the
    controller is awaited. *)
Record Controller := mkController {
  cancelWhilePlanning : bool;
  planAnswer : Answer;
  cancelAfterPlanAnswer : bool;
  permissionAnswer : nat → Answer;
  cancelDuringStep : nat → bool
}.

Definition approved (a : Answer) : bool :=
  match a with Approve => true | _ => false end.
Definition cancels (a : Answer) : bool :=
  match a with Cancel => true | _ => false end.

(** [s.riskLevel === 'SYSTEM' || s.riskLevel === 'DELETE'] *)
Definition highRisk (s : PlanStep) : bool :=
  bool_decide (riskLevel s = "SYSTEM") || bool_decide (riskLevel s = "DELETE").

(** The payload of the [confirm_permission] event of a step. *)
Definition confirmPermissionOf {R} (step : PlanStep) : ExecutionEvent R :=
  EvConfirmPermission (toolName step)
    (default ("执行 " +:+ toolName step) (description step))
    (riskLevel step)
    (default "" (description step)).

Definition stepStartOf {R} (stepIndex totalSteps : nat) (step : PlanStep)
  : ExecutionEvent R :=
  EvStepStart stepIndex totalSteps (toolName step) (description step).

Definition userDenied (step : PlanStep) : StepResult :=
  {| stepId := id step; success := false; result := None; error := Some "用户拒绝" |}.

Definition stepCancelled (step : PlanStep) : StepResult :=
  {| stepId := id step; success := false; result := None; error := Some "已取消" |}.

(** The result recorded for a step whose executor promise settled. *)
Definition resultOf (step : PlanStep) (outcome : Settled JsValue) : StepResult :=
  match outcome with
  | Resolved v => {| stepId := id step; success := true; result := Some v; error := None |}
  | Rejected m => {| stepId := id step; success := false; result := None; error := Some m |}
  end.

(** The [step_complete] event that announces a result. *)
Definition stepCompleteOf {R} (stepIndex : nat) (r : StepResult) : ExecutionEvent R :=
  EvStepComplete stepIndex (success r) (result r) (error r).

(** Projections of a log. *)
Definition executorCalls {R} (log : list (Action R)) : list PlanStep :=
  omap (λ a, match a with CallExecutor s => Some s | _ => None end) log.

Definition events {R} (log : list (Action R)) : list (ExecutionEvent R) :=
  omap (λ a, match a with Emit e => Some e | _ => None end) log.

Definition waits {R} (log : list (Action R)) : list ConfirmType :=
  omap (λ a, match a with AwaitConfirm t => Some t | _ => None end) log.

Definition isConfirmPermission {R} (e : ExecutionEvent R) : bool :=
  match e with EvConfirmPermission _ _ _ _ => true | _ => false end.

Definition isConfirmPlan {R} (e : ExecutionEvent R) : bool :=
  match e with EvConfirmPlan _ _ _ _ => true | _ => false end.

Definition isResult {R} (e : ExecutionEvent R) : bool :=
  match e with EvResult _ _ _ => true | _ => false end.

(** The [confirm_permission] events of a log, in order. *)
Definition prompts {R} (log : list (Action R)) : list (ExecutionEvent R) :=
  List.filter isConfirmPermission (events log).

(** A controller that never calls [cancel()]. *)
Definition neverCancels (ctl : Controller) : Prop :=
  cancelWhilePlanning ctl = false
  ∧ cancelAfterPlanAnswer ctl = false
  ∧ ∀ i, cancels (permissionAnswer ctl i) = false ∧ cancelDuringStep ctl i = false.


(** The step at index [i] asks for permission and does not get it. *)
Definition denied (ctl : Controller) (i : nat) (step : PlanStep) : bool :=
  highRisk step && negb (approved (permissionAnswer ctl i)).

(** The steps of a plan, numbered from [i], that are not denied. *)
Fixpoint executed (ctl : Controller) (i : nat) (steps : list PlanStep)
  : list PlanStep :=
  match steps with
  | [] => []
  | step :: rest =>
      if denied ctl i step then executed ctl (S i) rest
      else step :: executed ctl (S i) rest
  end.

End EngineTypes.

(** ** packages/execution-engine/src/engine.ts: [ExecutionEngine]

    [run] is an async generator; the model returns what one run does (its
    log) and the value the generator returns.  The executor is handed the
    list of its earlier calls, so its outcome may depend on them. *)

Module Engine.
Import Js EngineTypes.

Abbreviation Act := (Action StepResult).

(** How the step loop ends: past the last step, or at the
    [if (this.cancelled) return] on top of an iteration. *)
Inductive LoopExit :=
| Completed (stepResults : list StepResult)
| CancelledAt (stepResults : list StepResult).

Section Run.
Variable planner : string → Settled (list PlanStep).
Variable executor : list PlanStep → PlanStep → Settled JsValue.
Variable formatter : option (string → list StepResult → Settled string).
Variable ctl : Controller.

(** One iteration of the loop for a step that is reached: its actions,
    the result it pushes, and whether [cancel()] was called meanwhile. *)
Definition runStep (total i : nat) (step : PlanStep) (calls : list PlanStep)
  : list Act * StepResult * bool :=
  let start := Emit (stepStartOf i total step) in
  let r := resultOf step (executor calls step) in
  if highRisk step then
    let prompt := [Emit (confirmPermissionOf step); AwaitConfirm permission] in
    let answer := permissionAnswer ctl i in
    if approved answer then
      (start :: prompt ++ [CallExecutor step; Emit (stepCompleteOf i r)],
       r, cancelDuringStep ctl i)
    else
      (start :: prompt ++ [Emit (stepCompleteOf i (userDenied step))],
       userDenied step, cancels answer || cancelDuringStep ctl i)
  else
    ([start; CallExecutor step; Emit (stepCompleteOf i r)],
     r, cancelDuringStep ctl i).

Fixpoint runSteps (total i : nat) (steps : list PlanStep) (cancelled : bool)
    (calls : list PlanStep) (stepResults : list StepResult)
  : list Act * LoopExit :=
  match steps with
  | [] => ([], Completed stepResults)
  | step :: rest =>
      if cancelled then ([], CancelledAt stepResults)
      else
        let '(acts, r, cancelled) := runStep total i step calls in
        let '(more, exit) :=
          runSteps total (S i) rest cancelled
            (calls ++ executorCalls acts) (stepResults ++ [r]) in
        (acts ++ more, exit)
  end.

(** Phase 4 of [run]. *)
Definition formatPhase (goal : string) (stepResults : list StepResult) : list Act :=
  match formatter with
  | Some format =>
      if existsb success stepResults then
        [Emit (EvStatus "整理结果..." formatting);
         CallFormatter goal stepResults;
         Emit (match format goal stepResults with
               | Resolved formatted => EvResult true (Some (Formatted formatted)) None
               | Rejected _ => EvResult true (Some (RawSteps stepResults)) None
               end)]
      else
        [Emit (EvResult (forallb success stepResults)
                 (Some (RawSteps stepResults)) None)]
  | None =>
      [Emit (EvResult (forallb success stepResults)
               (Some (RawSteps stepResults)) None)]
  end.

Definition failed (message : string) (stepResults : list StepResult)
  : ExecutionResult StepResult :=
  {| runSuccess := false; runError := Some message; steps := stepResults |}.

(** [run(goal)]; [now] is the reading of [Date.now()] for the task id. *)
Definition run (goal : string) (now : Z) : list Act * ExecutionResult StepResult :=
  let planning_ := [Emit (EvStatus "正在规划..." planning); CallPlanner goal] in
  match planner goal with
  | Rejected message =>
      (planning_ ++ [Emit (EvError message)], failed "规划失败" [])
  | Resolved steps =>
      if cancelWhilePlanning ctl then (planning_, failed "已取消" [])
      else
        let confirm :=
          [Emit (EvConfirmPlan ("task_" +:+ pretty now) goal steps
                   (List.filter highRisk steps));
           AwaitConfirm plan] in
        if negb (approved (planAnswer ctl)) then
          (planning_ ++ confirm, failed "用户取消" [])
        else if cancelAfterPlanAnswer ctl then
          (planning_ ++ confirm, failed "已取消" [])
        else
          let '(acts, exit) := runSteps (length steps) 0 steps false [] [] in
          let before :=
            planning_ ++ confirm ++ [Emit (EvStatus "正在执行..." executing)] ++ acts in
          match exit with
          | CancelledAt stepResults => (before, failed "已取消" stepResults)
          | Completed stepResults =>
              (before ++ formatPhase goal stepResults,
               {| runSuccess := forallb success stepResults;
                  runError := None;
                  steps := stepResults |})
          end
  end.

End Run.

End Engine.

(** ** packages/execution-engine/src/enhanced-engine.ts: [EnhancedExecutionEngine]

    The model follows the private [execute]: what it does (its log, where
    [Emit] is a call of [this.emit]) and the value its promise resolves
    to, [None] when the promise never settles. *)

Module EnhancedEngine.
Import Js EngineTypes.

Abbreviation Slot := (option StepResult).
Abbreviation Act := (Action Slot).

Record SandboxConfig := mkSandbox {
  timeout : Z;
  maxMemoryMB : Z;
  allowedCommands : list string;
  allowedPaths : list string;
  env : list (string * string)
}.

Record ParallelConfig := mkParallel {
  maxConcurrent : Z;
  failFast : bool
}.

Definition DEFAULT_SANDBOX_CONFIG : SandboxConfig :=
  {| timeout := 30000; maxMemoryMB := 512; allowedCommands := [];
     allowedPaths := []; env := [] |}.

Definition DEFAULT_PARALLEL_CONFIG : ParallelConfig :=
  {| maxConcurrent := 3; failFast := false |}.

(** A promise raced against the timer of [withTimeout]: it settles in
    time, or the timer fires first. *)
Inductive Timed (A : Type) :=
| InTime (outcome : Settled A)
| Late.
Arguments InTime {A} outcome.
Arguments Late {A}.

Definition withTimeout {A} (promise : Timed A) (errorMessage : string) : Settled A :=
  match promise with
  | InTime outcome => outcome
  | Late => Rejected errorMessage
  end.

(** [!dependentTools.includes(step.toolName)] *)
Definition isIndependentStep (step : PlanStep) : bool :=
  negb (bool_decide
          (toolName step ∈ ["file_write"; "file_delete"; "file_move"; "shell_execute"])).

(** [every] and [some] skip the empty slots of an array. *)
Definition everySuccess (results : list Slot) : bool :=
  forallb (λ slot, from_option success true slot) results.
Definition someSuccess (results : list Slot) : bool :=
  existsb (λ slot, from_option success false slot) results.

(** The loop [for (i = 0; i < steps.length; i += k) batches.push(steps.slice(i, i + k))]
    for a step [k] of at least one. *)
Equations? slices {A} (k : nat) (l : list A) : list (list A) by wf (length l) lt :=
  slices k [] := [];
  slices k (x :: l) := take (S (pred k)) (x :: l) :: slices k (drop (S (pred k)) (x :: l)).
Proof. simpl. rewrite length_drop. lia. Qed.

(** With [maxConcurrent <= 0] the index never passes [steps.length] and
    the loop does not end: there are no batches to return. *)
Definition makeBatches {A} (maxConcurrent : Z) (steps : list A)
  : option (list (list A)) :=
  match steps with
  | [] => Some []
  | _ => if decide (0 < maxConcurrent)
         then Some (slices (Z.to_nat maxConcurrent) steps)
         else None
  end.

(** [pairs.forEach(({ index, result }) => { results[index] = result })] *)
Definition assign (results : list Slot) (pairs : list (nat * StepResult))
  : list Slot :=
  foldl (λ results item, <[item.1 := Some item.2]> results) results pairs.

(** The pairs hold one result for each item, with the index and the
    [stepId] of the item. *)
Definition resultsOf (pairs : list (nat * StepResult)) (items : list (nat * PlanStep))
  : Prop :=
  Forall2 (λ p item, p.1 = item.1 ∧ stepId p.2 = id item.2) pairs items.

(** Where [executeSingleStep] stands at its first [await]. *)
Inductive Suspended :=
| Returned (r : StepResult)
| AwaitingPermission
| AwaitingExecutor (outcome : Settled JsValue).

Section Execute.
Variable planner : string → Timed (list PlanStep).
Variable executor : list PlanStep → PlanStep → SandboxConfig → Timed JsValue.
Variable formatter : option (string → list Slot → Settled string).
Variable sandboxConfig : SandboxConfig.
Variable parallelConfig : ParallelConfig.
Variable ctl : Controller.

(** The executor call of a step, raced against the timer. *)
Definition invoke (calls : list PlanStep) (step : PlanStep) : Settled JsValue :=
  withTimeout (executor calls step sandboxConfig)
    ("执行 " +:+ toolName step +:+ " 超时").

(** [executeSingleStep] up to its first [await]. *)
Definition beginStep (cancelled : bool) (calls : list PlanStep)
    (stepIndex totalSteps : nat) (step : PlanStep) : list Act * Suspended :=
  if cancelled then ([], Returned (stepCancelled step))
  else if highRisk step then
    ([Emit (stepStartOf stepIndex totalSteps step);
      Emit (confirmPermissionOf step);
      AwaitConfirm permission], AwaitingPermission)
  else
    ([Emit (stepStartOf stepIndex totalSteps step); CallExecutor step],
     AwaitingExecutor (invoke calls step)).

(** [executeSingleStep] from its first [await] on; [answer] is what the
    controller does to the pending permission request. *)
Definition resumeStep (calls : list PlanStep) (stepIndex : nat) (step : PlanStep)
    (at_ : Suspended) (answer : Answer) : list Act * StepResult :=
  match at_ with
  | Returned r => ([], r)
  | AwaitingExecutor outcome =>
      let r := resultOf step outcome in
      ([Emit (stepCompleteOf stepIndex r)], r)
  | AwaitingPermission =>
      if approved answer then
        let r := resultOf step (invoke calls step) in
        ([CallExecutor step; Emit (stepCompleteOf stepIndex r)], r)
      else
        ([Emit (stepCompleteOf stepIndex (userDenied step))], userDenied step)
  end.

(** Whether [cancel()] has been called by the time the step is over. *)
Definition cancelledAfter (cancelled : bool) (stepIndex : nat) (at_ : Suspended)
  : bool :=
  cancelled
  || match at_ with
     | Returned _ => false
     | AwaitingPermission =>
         cancels (permissionAnswer ctl stepIndex) || cancelDuringStep ctl stepIndex
     | AwaitingExecutor _ => cancelDuringStep ctl stepIndex
     end.

(** [await this.executeSingleStep(step, index, total)] on its own. *)
Definition executeSingleStep (cancelled : bool) (calls : list PlanStep)
    (stepIndex totalSteps : nat) (step : PlanStep)
  : list Act * StepResult * bool :=
  let '(acts, at_) := beginStep cancelled calls stepIndex totalSteps step in
  let '(more, r) :=
    resumeStep (calls ++ executorCalls acts) stepIndex step at_
      (permissionAnswer ctl stepIndex) in
  (acts ++ more, r, cancelledAfter cancelled stepIndex at_).

(** [for (const { index, step } of items) results[index] = await executeSingleStep(...)] *)
Fixpoint executeSerial (totalSteps : nat) (items : list (nat * PlanStep))
    (cancelled : bool) (calls : list PlanStep) (results : list Slot)
  : list Act * list Slot * bool * list PlanStep :=
  match items with
  | [] => ([], results, cancelled, calls)
  | (index, step) :: rest =>
      let '(acts, r, cancelled) :=
        executeSingleStep cancelled calls index totalSteps step in
      let '(more, results, cancelled, calls) :=
        executeSerial totalSteps rest cancelled (calls ++ executorCalls acts)
          (<[index := Some r]> results) in
      (acts ++ more, results, cancelled, calls)
  end.

(** The synchronous start of a batch: [batch.map(async ...)] runs every
    member up to its first [await], in order. *)
Fixpoint beginAll (calls : list PlanStep) (totalSteps : nat)
    (batch : list (nat * PlanStep))
  : list Act * list (nat * PlanStep * Suspended) :=
  match batch with
  | [] => ([], [])
  | (index, step) :: rest =>
      let '(acts, at_) := beginStep false calls index totalSteps step in
      let '(more, started) :=
        beginAll (calls ++ executorCalls acts) totalSteps rest in
      (acts ++ more, (index, step, at_) :: started)
  end.

Definition awaitsPermission (member : nat * PlanStep * Suspended) : bool :=
  match member.2 with AwaitingPermission => true | _ => false end.

(** [this.pendingConfirm] once the batch is started: each
    [waitForConfirm] overwrites the slot, so it holds the resolver of
    the last member that asked. *)
Definition pendingConfirm (started : list (nat * PlanStep * Suspended))
  : option nat :=
  (λ member, member.1.1) <$> last (List.filter awaitsPermission started).

(** What becomes of a started member: it runs to its result, unless it
    waits on a resolver that [pendingConfirm] no longer holds. *)
Definition settle (calls : list PlanStep) (pending : option nat)
    (member : nat * PlanStep * Suspended) : list Act * option StepResult :=
  let '(index, step, at_) := member in
  if awaitsPermission member && negb (bool_decide (pending = Some index)) then
    ([], None)
  else
    let '(acts, r) := resumeStep calls index step at_ (permissionAnswer ctl index) in
    (acts, Some r).

(** One [await Promise.all(batch.map(...))]: the log of the batch, its
    results in the order of the batch ([None] when some member never
    settles), whether [cancel()] was called, and the executor calls.
    The results come in the order of the batch, as [Promise.all] returns
    them.  In the log the members are resumed in the order of the batch;
    in the engine they complete in the order in which their promises
    settle, so what is stated of the log of a batch after its start is
    stated up to the order of its actions. *)
Definition executeBatch (calls : list PlanStep) (totalSteps : nat)
    (batch : list (nat * PlanStep))
  : list Act * option (list (nat * StepResult)) * bool * list PlanStep :=
  let '(acts, started) := beginAll calls totalSteps batch in
  let calls := calls ++ executorCalls acts in
  let pending := pendingConfirm started in
  let more := flat_map (λ member, (settle calls pending member).1) started in
  let batchResults :=
    mapM (λ member, pair member.1.1 <$> (settle calls pending member).2) started in
  (acts ++ more, batchResults,
   existsb (λ member, cancelledAfter false member.1.1 member.2) started,
   calls ++ executorCalls more).

(** The loop over the batches of [executeParallel]. *)
Fixpoint runBatches (totalSteps : nat) (batches : list (list (nat * PlanStep)))
    (cancelled : bool) (calls : list PlanStep) (results : list (nat * StepResult))
  : list Act * option (list (nat * StepResult)) * bool * list PlanStep :=
  match batches with
  | [] => ([], Some results, cancelled, calls)
  | batch :: rest =>
      if cancelled then ([], Some results, cancelled, calls)
      else
        match executeBatch calls totalSteps batch with
        | (acts, None, cancelled, calls) => (acts, None, cancelled, calls)
        | (acts, Some batchResults, cancelled, calls) =>
            let results := results ++ batchResults in
            if failFast parallelConfig
               && existsb (λ r, negb (success r.2)) batchResults
            then (acts, Some results, cancelled, calls)
            else
              let '(more, out, cancelled, calls) :=
                runBatches totalSteps rest cancelled calls results in
              (acts ++ more, out, cancelled, calls)
        end
  end.

Definition executeParallel (steps : list (nat * PlanStep)) (totalSteps : nat)
    (cancelled : bool) (calls : list PlanStep)
  : list Act * option (list (nat * StepResult)) * bool * list PlanStep :=
  match makeBatches (maxConcurrent parallelConfig) steps with
  | None => ([], None, cancelled, calls)
  | Some batches => runBatches totalSteps batches cancelled calls []
  end.

Definition independentSteps (steps : list PlanStep) : list (nat * PlanStep) :=
  List.filter (λ item, isIndependentStep item.2) (imap pair steps).
Definition dependentSteps (steps : list PlanStep) : list (nat * PlanStep) :=
  List.filter (λ item, negb (isIndependentStep item.2)) (imap pair steps).

(** [executeSteps]: the log and the result array, [None] when the
    promise never settles. *)
Definition executeSteps (steps : list PlanStep) (cancelled : bool)
  : list Act * option (list Slot) :=
  let total := length steps in
  let results := replicate total None in
  let independent := independentSteps steps in
  let dependent := dependentSteps steps in
  if decide (1 < length independent)%nat then
    match executeParallel independent total cancelled [] with
    | (acts, None, _, _) => (acts, None)
    | (acts, Some parallelResults, cancelled, calls) =>
        let results := assign results parallelResults in
        let '(more, results, _, _) :=
          executeSerial total dependent cancelled calls results in
        (acts ++ more, Some results)
    end
  else
    let '(acts, results, cancelled, calls) :=
      executeSerial total independent cancelled [] results in
    let '(more, results, _, _) :=
      executeSerial total dependent cancelled calls results in
    (acts ++ more, Some results).

Definition failed (message : string) : list Act * option (ExecutionResult Slot) :=
  ([Emit (EvResult false None (Some message))],
   Some {| runSuccess := false; runError := Some message; steps := [] |}).

Definition formatPhase (goal : string) (stepResults : list Slot) : list Act :=
  let allSuccess := everySuccess stepResults in
  match formatter with
  | Some format =>
      if someSuccess stepResults then
        [Emit (EvStatus "整理结果..." formatting);
         CallFormatter goal stepResults;
         Emit (match format goal stepResults with
               | Resolved formatted =>
                   EvResult allSuccess (Some (Formatted formatted)) None
               | Rejected _ =>
                   EvResult allSuccess (Some (RawSteps stepResults)) None
               end)]
      else [Emit (EvResult allSuccess (Some (RawSteps stepResults)) None)]
  | None => [Emit (EvResult allSuccess (Some (RawSteps stepResults)) None)]
  end.

(** [execute(goal)]; [now] is the reading of [Date.now()] for the task id. *)
Definition execute (goal : string) (now : Z)
  : list Act * option (ExecutionResult Slot) :=
  let planning_ := [Emit (EvStatus "正在规划..." planning); CallPlanner goal] in
  let after (prefix : list Act) (rest : list Act * option (ExecutionResult Slot)) :=
    (prefix ++ rest.1, rest.2) in
  match withTimeout (planner goal) "规划超时" with
  | Rejected message =>
      after (planning_ ++ [Emit (EvError message)]) (failed "规划失败")
  | Resolved steps =>
      if cancelWhilePlanning ctl then after planning_ (failed "已取消")
      else if decide (length steps = 0%nat) then
        (planning_ ++ [Emit (EvStatus "无需执行" executing);
                       Emit (EvResult true None None)],
         Some {| runSuccess := true; runError := None; steps := [] |})
      else
        let confirm :=
          [Emit (EvConfirmPlan ("task_" +:+ pretty now) goal steps
                   (List.filter highRisk steps));
           AwaitConfirm plan] in
        if negb (approved (planAnswer ctl)) then
          after (planning_ ++ confirm) (failed "用户取消")
        else if cancelAfterPlanAnswer ctl then
          after (planning_ ++ confirm) (failed "已取消")
        else
          let before :=
            planning_ ++ confirm ++ [Emit (EvStatus "正在执行..." executing)] in
          match executeSteps steps false with
          | (acts, None) => (before ++ acts, None)
          | (acts, Some stepResults) =>
              (before ++ acts ++ formatPhase goal stepResults,
               Some {| runSuccess := everySuccess stepResults;
                       runError := None;
                       steps := stepResults |})
          end
  end.

End Execute.

(** When the independent steps run in batches, no batch holds two steps
    that ask for permission. *)
Definition onePromptPerBatch (maxConcurrent : Z) (steps : list PlanStep) : Prop :=
  (1 < length (independentSteps steps))%nat →
  Forall (λ batch, (length (List.filter (λ item, highRisk item.2) batch) ≤ 1)%nat)
    (slices (Z.to_nat maxConcurrent) (independentSteps steps)).

End EnhancedEngine.

(** ** Inputs of the unit tests and of the scenarios of the specification *)

Module Examples.
Import Js EngineTypes EnhancedEngine.

Definition fileReadTool : ToolValidator.Tool :=
  {| ToolValidator.name := "file_read";
     ToolValidator.description := "Read a file";
     ToolValidator.parameters :=
       {| ToolValidator.properties :=
            [("path", ToolValidator.mkProperty "string" "File path" None None None);
             ("encoding",
              ToolValidator.mkProperty "string" "Encoding" (Some ["utf8"; "ascii"])
                None None)];
          ToolValidator.required := Some ["path"] |} |}.

(** The guard of [createEnhancedPermissionGuard()]. *)
Definition defaultGuard : PermissionGuard.Guard :=
  PermissionGuard.createEnhancedPermissionGuard
    {| PermissionGuard.cfgApprovalPolicy := None;
       PermissionGuard.cfgWhitelist := None;
       PermissionGuard.cfgSessionTimeout := None;
       PermissionGuard.cfgMaxApprovalsPerSession := None |} 0.

(** A guard whose policy lists MODIFY in neither of its two sets. *)
Definition lenientGuard : PermissionGuard.Guard :=
  PermissionGuard.createEnhancedPermissionGuard
    {| PermissionGuard.cfgApprovalPolicy :=
         Some {| PermissionGuard.autoApprove := [PermissionGuard.READ];
                 PermissionGuard.requireConfirmation :=
                   [PermissionGuard.DELETE; PermissionGuard.SYSTEM];
                 PermissionGuard.denyByDefault := false |};
       PermissionGuard.cfgWhitelist := None;
       PermissionGuard.cfgSessionTimeout := None;
       PermissionGuard.cfgMaxApprovalsPerSession := None |} 0.

(** A guard whose only denylisted command ends with a blank. *)
Definition customGuard : PermissionGuard.Guard :=
  PermissionGuard.createEnhancedPermissionGuard
    {| PermissionGuard.cfgApprovalPolicy := None;
       PermissionGuard.cfgWhitelist :=
         Some {| PermissionGuard.allowedCommands := [];
                 PermissionGuard.allowedPaths := [];
                 PermissionGuard.allowedDomains := [];
                 PermissionGuard.deniedCommands := ["rm "];
                 PermissionGuard.deniedPaths := [];
                 PermissionGuard.deniedDomains := [] |};
       PermissionGuard.cfgSessionTimeout := None;
       PermissionGuard.cfgMaxApprovalsPerSession := None |} 0.

Definition testStep (name tool risk : string) : PlanStep :=
  {| id := name; toolName := tool; params := JObject []; riskLevel := risk;
     description := Some "Test step" |}.

(** A controller that approves everything and never cancels. *)
Definition autoConfirm : Controller :=
  {| cancelWhilePlanning := false; planAnswer := Approve;
     cancelAfterPlanAnswer := false;
     permissionAnswer := λ _, Approve;
     cancelDuringStep := λ _, false |}.

(** An executor whose second call throws. *)
Definition secondCallThrows (calls : list PlanStep) (step : PlanStep)
  : Settled JsValue :=
  if decide (length calls = 1%nat) then Rejected "Step 1 failed"
  else Resolved (JObject [("success", JBool true)]).

Definition alwaysThrows (calls : list PlanStep) (step : PlanStep)
    (sandbox : SandboxConfig) : Timed JsValue :=
  InTime (Rejected "boom").

Definition alwaysReturns (calls : list PlanStep) (step : PlanStep)
    (sandbox : SandboxConfig) : Timed JsValue :=
  InTime (Resolved (JBool true)).

Definition formatterThrows {R} (goal : string) (results : list R) : Settled string :=
  Rejected "formatter failed".

Definition threeSteps : list PlanStep :=
  [testStep "step_0" "test_tool" "LOW"; testStep "step_1" "test_tool" "LOW";
   testStep "step_2" "test_tool" "LOW"].

Definition mixedPlan : list PlanStep :=
  [testStep "step_0" "file_read" "READ"; testStep "step_1" "file_write" "MODIFY";
   testStep "step_2" "process_kill" "SYSTEM"; testStep "step_3" "file_delete" "DELETE";
   testStep "step_4" "file_list" "READ"].

End Examples.

(** ** A JavaScript [Map] with string keys, in insertion order *)

Module JsMap.

(** [m.get(key)] *)
Fixpoint get {V} (m : list (string * V)) (key : string) : option V :=
  match m with
  | [] => None
  | (k, v) :: rest => if decide (k = key) then Some v else get rest key
  end.

(** [m.has(key)] *)
Definition has {V} (m : list (string * V)) (key : string) : bool :=
  bool_decide (is_Some (get m key)).

(** [m.set(key, value)]: a key that is present keeps its place. *)
Fixpoint set {V} (m : list (string * V)) (key : string) (value : V)
  : list (string * V) :=
  match m with
  | [] => [(key, value)]
  | (k, v) :: rest =>
      if decide (k = key) then (k, value) :: rest
      else (k, v) :: set rest key value
  end.

(** [Array.from(m.values())] *)
Definition values {V} (m : list (string * V)) : list V := m.*2.

End JsMap.

(** ** packages/tool-system/src/types.ts and registry.ts *)

Module ToolSystem.
Import Js EngineTypes.

Record ToolResult := mkToolResult {
  success : bool;
  data : option JsValue;
  error : option string;
  metadata : option JsValue
}.

Record ToolContext := mkContext {
  taskId : string;
  workingDirectory : option string;
  dryRun : option bool
}.

(** A tool.  [schema] holds what the validator reads of it (name,
    description, parameters).  [execute] is handed the number of tool
    executions that came before, so its outcome may depend on them; the
    outcome says whether the promise settles before a timer set by the
    caller. *)
Record Tool := mkTool {
  schema : ToolValidator.Tool;
  riskLevel : PermissionGuard.RiskLevel;
  execute : nat → JsValue → ToolContext → EnhancedEngine.Timed ToolResult
}.

Definition name (tool : Tool) : string := ToolValidator.name (schema tool).
Definition description (tool : Tool) : string :=
  ToolValidator.description (schema tool).
Definition parameters (tool : Tool) : ToolValidator.ToolParameters :=
  ToolValidator.parameters (schema tool).

Record FunctionDefinition := mkFunction {
  fname : string;
  fdescription : string;
  fparameters : ToolValidator.ToolParameters
}.

Record ToolDefinition := mkDefinition {
  dtype : string;
  function_ : FunctionDefinition
}.

Definition definitionOf (tool : Tool) : ToolDefinition :=
  {| dtype := "function";
     function_ := {| fname := name tool;
                     fdescription := description tool;
                     fparameters := parameters tool |} |}.

(** The [tools] map of one [createToolRegistry()] closure. *)
Abbreviation Registry := (list (string * Tool)).

Definition createToolRegistry : Registry := [].

(** [register]: [inl] is the message of the error it throws. *)
Definition register (tool : Tool) (tools : Registry) : string + Registry :=
  if JsMap.has tools (name tool)
  then inl ("Tool already registered: " +:+ name tool)
  else inr (JsMap.set tools (name tool) tool).

Definition get (toolName : string) (tools : Registry) : option Tool :=
  JsMap.get tools toolName.

Definition getAll (tools : Registry) : list Tool := JsMap.values tools.

Definition getDefinitions (tools : Registry) : list ToolDefinition :=
  map definitionOf (JsMap.values tools).

Definition has (toolName : string) (tools : Registry) : bool :=
  JsMap.has tools toolName.

(** [register] for each tool of a list in turn, stopping at the first
    throw. *)
Fixpoint registerAll (batch : list Tool) (tools : Registry) : string + Registry :=
  match batch with
  | [] => inr tools
  | tool :: rest =>
      match register tool tools with
      | inl message => inl message
      | inr tools => registerAll rest tools
      end
  end.

End ToolSystem.

(** ** packages/tool-system/src/shell-tools.ts

    The two tools are modelled on their typed parameters.  The shell
    adapter is a function of the environment; a tool returns the adapter
    calls it makes with its result. *)

Module ShellTools.
Import Js JsString EngineTypes ToolSystem.

Record ShellExecuteParams := mkShellParams {
  command : string;
  args : option (list string);
  cwd : option string;
  timeout : option Z
}.

Record PowerShellExecuteParams := mkPowerShellParams { script : string }.

Record ShellExecuteResult := mkShellResult {
  ranCommand : string;
  exitCode : Z;
  stdout : string;
  stderr : string;
  duration : Z
}.

(** The [options] handed to [shellAdapter.execute]. *)
Record ShellExecuteOptions := mkShellOptions {
  optCwd : option string;
  optTimeout : Z
}.

Inductive AdapterCall :=
| Execute (command : string) (args : option (list string))
    (options : ShellExecuteOptions)
| ExecutePowerShell (script : string).

Definition DANGEROUS_COMMANDS : list string :=
  ["format"; "del /s"; "rmdir /s"; "rd /s"; "erase"; "cipher"; "diskpart";
   "bcdedit"; "reg delete"].

Definition quote : string := String "034"%char EmptyString.

(** [context.dryRun] as a condition *)
Definition isDryRun (context : ToolContext) : bool := default false (dryRun context).

Section Tools.
Context `{!StringPrototype}.
Variable execute : string → option (list string) → ShellExecuteOptions
                   → Settled ShellExecuteResult.
Variable executePowerShell : string → Settled ShellExecuteResult.

Definition isCommandDangerous (command : string) : bool :=
  let lowerCommand := toLowerCase command in
  existsb (λ dangerous, includes lowerCommand dangerous) DANGEROUS_COMMANDS.

(** [createShellTool(shellAdapter).execute] *)
Definition shellExecute (params : ShellExecuteParams) (context : ToolContext)
  : list AdapterCall * ToolResult :=
  if isCommandDangerous (command params) then
    ([], {| success := false; data := None;
            error := Some ("Command " +:+ quote +:+ command params +:+ quote
                           +:+ " is flagged as potentially dangerous and requires explicit approval");
            metadata := None |})
  else if isDryRun context then
    ([], {| success := true;
            data := Some (JObject
              [("message",
                JString ("Would execute: " +:+ command params +:+ " "
                         +:+ match args params with
                             | Some l => ToolValidator.join " " l
                             | None => ""
                             end));
               ("dryRun", JBool true)]);
            error := None; metadata := None |})
  else
    let options :=
      {| optCwd := match cwd params with
                   | Some dir => Some dir
                   | None => workingDirectory context
                   end;
         optTimeout := default 60000 (timeout params) |} in
    ([Execute (command params) (args params) options],
     match execute (command params) (args params) options with
     | Resolved result =>
         {| success := bool_decide (exitCode result = 0);
            data := Some (JObject
              [("command", JString (ranCommand result));
               ("exitCode", JNumber (exitCode result));
               ("stdout", JString (stdout result));
               ("stderr", JString (stderr result));
               ("duration", JNumber (duration result))]);
            error := if bool_decide (exitCode result ≠ 0)
                     then Some ("Command exited with code " +:+ pretty (exitCode result))
                     else None;
            metadata := Some (JObject
              [("taskId", JString (taskId context));
               ("operation", JString "shell_execute")]) |}
     | Rejected message =>
         {| success := false; data := None; error := Some message;
            metadata := None |}
     end).

(** [createPowerShellTool(shellAdapter).execute] *)
Definition powerShellExecute (params : PowerShellExecuteParams)
    (context : ToolContext) : list AdapterCall * ToolResult :=
  if isDryRun context then
    ([], {| success := true;
            data := Some (JObject
              [("message", JString "Would execute PowerShell script");
               ("script",
                JString (substring (script params) 0 200
                         +:+ if decide (200 < lengthOf (script params))%nat
                             then "..." else ""));
               ("dryRun", JBool true)]);
            error := None; metadata := None |})
  else
    ([ExecutePowerShell (script params)],
     match executePowerShell (script params) with
     | Resolved result =>
         {| success := bool_decide (exitCode result = 0);
            data := Some (JObject
              [("exitCode", JNumber (exitCode result));
               ("stdout", JString (stdout result));
               ("stderr", JString (stderr result));
               ("duration", JNumber (duration result))]);
            error := if bool_decide (exitCode result ≠ 0)
                     then Some ("PowerShell exited with code "
                                +:+ pretty (exitCode result))
                     else None;
            metadata := Some (JObject
              [("taskId", JString (taskId context));
               ("operation", JString "powershell_execute")]) |}
     | Rejected message =>
         {| success := false; data := None; error := Some message;
            metadata := None |}
     end).

End Tools.

End ShellTools.

(** ** packages/tool-system/src/orchestrator.ts

    [executeWithRetry] reads [Date.now()] at five places; [clock k] holds
    the five readings of the [k]-th invocation.  The permission guard is
    any implementation of the [PermissionGuard] interface: a state [G] with
    its [evaluate].  Listeners that only have an effect ([onAfterExecute],
    [onRateLimited]) are flags, and their calls are part of the log. *)

Module Orchestrator.
Import Js JsString EngineTypes.

Record OrchestratorConfig := mkConfig {
  maxParallelCalls : option Z;
  timeout : option Z;
  retryCount : option Z;
  retryDelay : option Z
}.

Definition DEFAULT_CONFIG : OrchestratorConfig :=
  {| maxParallelCalls := Some 5; timeout := Some 30000;
     retryCount := Some 2; retryDelay := Some 1000 |}.

(** [{ ...base, ...over }] on the optional fields of a configuration *)
Definition spread (base over : OrchestratorConfig) : OrchestratorConfig :=
  {| maxParallelCalls := from_option Some (maxParallelCalls base) (maxParallelCalls over);
     timeout := from_option Some (timeout base) (timeout over);
     retryCount := from_option Some (retryCount base) (retryCount over);
     retryDelay := from_option Some (retryDelay base) (retryDelay over) |}.

Record ExecutionRequest := mkRequest {
  toolName : string;
  params : JsValue;
  context : ToolSystem.ToolContext
}.

Record ExecutionResult := mkResult {
  success : bool;
  result : option ToolSystem.ToolResult;
  error : option string;
  duration : Z;
  retries : Z
}.

Record OrchestratorEvents := mkEvents {
  onBeforeExecute : option (ExecutionRequest → bool);
  onAfterExecute : bool;
  onPermissionRequired : option (PermissionGuard.PermissionRequest → bool);
  onRateLimited : bool
}.

Definition noEvents : OrchestratorEvents :=
  {| onBeforeExecute := None; onAfterExecute := false;
     onPermissionRequired := None; onRateLimited := false |}.

(** What an invocation does to its environment, in order. *)
Inductive Effect :=
| Evaluate (request : PermissionGuard.PermissionRequest)
| PermissionRequired (request : PermissionGuard.PermissionRequest)
| RateLimited (toolName : string) (retryAfter : Z)
| BeforeExecute (request : ExecutionRequest)
| ToolExecute (toolName : string) (params : JsValue)
    (context : ToolSystem.ToolContext)
| AfterExecute (request : ExecutionRequest) (result : ExecutionResult)
| Sleep (ms : Z).

Definition isToolExecute (e : Effect) : bool :=
  match e with ToolExecute _ _ _ => true | _ => false end.

Definition isEvaluate (e : Effect) : bool :=
  match e with Evaluate _ => true | _ => false end.

(** How many times a log runs a tool. *)
Definition executions (effects : list Effect) : nat :=
  length (List.filter isToolExecute effects).

(** The readings of [Date.now()] in one invocation of [executeWithRetry]:
    on entry, in [rateLimiter.check], in the guard, in
    [rateLimiter.record], and for the [duration] of the result. *)
Record Clock := mkClock {
  startTime : Z;
  checkTime : Z;
  evaluateTime : Z;
  recordTime : Z;
  endTime : Z
}.

(** The closure of one [createToolOrchestrator(config)]; [attempts]
    counts the invocations of [executeWithRetry] so far. *)
Record State (G : Type) := mkState {
  finalConfig : OrchestratorConfig;
  tools : ToolSystem.Registry;
  rateLimiter : RateLimiter.Limiter;
  permissionGuard : option G;
  events : OrchestratorEvents;
  attempts : nat
}.
Arguments mkState {G} finalConfig tools rateLimiter permissionGuard events attempts.
Arguments finalConfig {G} s.
Arguments tools {G} s.
Arguments rateLimiter {G} s.
Arguments permissionGuard {G} s.
Arguments events {G} s.
Arguments attempts {G} s.

Definition createToolOrchestrator {G} (config : OrchestratorConfig) : State G :=
  {| finalConfig := spread DEFAULT_CONFIG config;
     tools := [];
     rateLimiter := RateLimiter.createRateLimiter;
     permissionGuard := None;
     events := noEvents;
     attempts := 0 |}.

(** [a ?? b] *)
Definition coalesce (a b : JsValue) : JsValue :=
  match a with
  | JUndefined | JNull => b
  | _ => a
  end.

(** The map the validator was created with, as the validator reads it. *)
Definition schemas (tools : ToolSystem.Registry)
  : gmap string ToolValidator.Tool :=
  list_to_map (prod_map Datatypes.id ToolSystem.schema <$> tools).

(** An outcome of [executeWithRetry] before the [catch]. *)
Inductive Attempt :=
| Finished (r : ExecutionResult)
| Thrown (errorMessage : string).

Section Execute.
Variable inherited : string → JsValue.
Context {G : Type}.
Variable evaluate : G → Z → PermissionGuard.PermissionRequest
                    → PermissionGuard.PermissionResult * G.
Variable clock : nat → Clock.

(** The request that [checkPermission] hands to the guard.  ([data] is
    set to [params]; no guard reads it.) *)
Definition permissionRequest (tool : ToolSystem.Tool) (params : JsValue)
  : PermissionGuard.PermissionRequest :=
  let targetValue :=
    coalesce (coalesce (getProperty inherited params "path")
                (getProperty inherited params "target"))
      (getProperty inherited params "command") in
  {| PermissionGuard.toolName := ToolSystem.name tool;
     PermissionGuard.action := ToolSystem.name tool;
     PermissionGuard.target :=
       match targetValue with JString s => Some s | _ => None end;
     PermissionGuard.riskLevel := ToolSystem.riskLevel tool;
     PermissionGuard.description := ToolSystem.description tool |}.

Definition checkPermission (guard : option G) (events : OrchestratorEvents)
    (tool : ToolSystem.Tool) (params : JsValue) (now : Z)
  : list Effect * bool * option G :=
  match guard with
  | None => ([], true, None)
  | Some guard =>
      let request := permissionRequest tool params in
      let '(result, guard) := evaluate guard now request in
      match PermissionGuard.granted result, onPermissionRequired events with
      | false, Some ask =>
          ([Evaluate request; PermissionRequired request], ask request, Some guard)
      | granted, _ => ([Evaluate request], granted, Some guard)
      end
  end.

(** A result of the early returns. *)
Definition refused (t : Clock) (message : string) : Attempt :=
  Finished {| success := false; result := None; error := Some message;
              duration := endTime t - startTime t; retries := 0 |}.

(** The promise of [tool.execute] raced against the timer. *)
Definition race (promise : EnhancedEngine.Timed ToolSystem.ToolResult)
  : Settled ToolSystem.ToolResult :=
  match promise with
  | EnhancedEngine.InTime outcome => outcome
  | EnhancedEngine.Late => Rejected "Timeout"
  end.

(** One invocation of [executeWithRetry] up to its [catch]. *)
Definition attempt (st : State G) (request : ExecutionRequest) (retriesLeft : Z)
  : list Effect * Attempt * State G :=
  let k := attempts st in
  let t := clock k in
  let st0 := mkState (finalConfig st) (tools st) (rateLimiter st)
               (permissionGuard st) (events st) (S k) in
  match JsMap.get (tools st) (toolName request) with
  | None => ([], refused t ("Tool not found: " +:+ toolName request), st0)
  | Some tool =>
      let validation :=
        ToolValidator.validate inherited (schemas (tools st)) (toolName request)
          (params request) in
      if negb (ToolValidator.valid validation) then
        ([], refused t ("Validation failed: "
                        +:+ ToolValidator.join ", " (ToolValidator.errors validation)),
         st0)
      else
        let '(rateLimit, limiter) :=
          RateLimiter.check (toolName request) (checkTime t) (rateLimiter st) in
        if negb (RateLimiter.allowed rateLimit) then
          (if onRateLimited (events st)
           then [RateLimited (toolName request)
                   (default 1000 (RateLimiter.retryAfter rateLimit))]
           else [],
           refused t ("Rate limited. Retry after "
                      +:+ match RateLimiter.retryAfter rateLimit with
                          | Some ms => pretty ms
                          | None => "undefined"
                          end +:+ "ms"),
           mkState (finalConfig st) (tools st) limiter (permissionGuard st)
             (events st) (S k))
        else
          let '(asked, hasPermission, guard) :=
            checkPermission (permissionGuard st) (events st) tool (params request)
              (evaluateTime t) in
          if negb hasPermission then
            (asked, refused t "Permission denied",
             mkState (finalConfig st) (tools st) limiter guard (events st) (S k))
          else
            let before :=
              match onBeforeExecute (events st) with
              | Some _ => [BeforeExecute request]
              | None => []
              end in
            if negb (from_option (λ shouldContinue, shouldContinue request) true
                       (onBeforeExecute (events st)))
            then
              (asked ++ before, refused t "Execution cancelled by callback",
               mkState (finalConfig st) (tools st) limiter guard (events st) (S k))
            else
              let recorded :=
                RateLimiter.record (toolName request) (recordTime t) limiter in
              let st1 := mkState (finalConfig st) (tools st) recorded guard
                           (events st) (S k) in
              let call := ToolExecute (toolName request) (params request)
                            (context request) in
              match race (ToolSystem.execute tool k (params request)
                            (context request)) with
              | Resolved toolResult =>
                  let r := {| success := ToolSystem.success toolResult;
                              result := Some toolResult;
                              error := None;
                              duration := endTime t - startTime t;
                              retries := default 0 (retryCount (finalConfig st))
                                         - retriesLeft |} in
                  (asked ++ before ++ [call]
                     ++ (if onAfterExecute (events st)
                         then [AfterExecute request r] else []),
                   Finished r, st1)
              | Rejected message => (asked ++ before ++ [call], Thrown message, st1)
              end
  end.

(** The result built in the [catch] when there is no retry; its
    [duration] is taken on the clock of the invocation that threw. *)
Definition gaveUp (st : State G) (request : ExecutionRequest) (k : nat)
    (retriesLeft : Z) (errorMessage : string) : list Effect * ExecutionResult :=
  let t := clock k in
  let r := {| success := false; result := None; error := Some errorMessage;
              duration := endTime t - startTime t;
              retries := default 0 (retryCount (finalConfig st)) - retriesLeft |} in
  (if onAfterExecute (events st) then [AfterExecute request r] else [], r).

(** [!errorMessage.includes('Permission') && !errorMessage.includes('Validation')] *)
Definition retryable (errorMessage : string) : bool :=
  negb (includes errorMessage "Permission")
  && negb (includes errorMessage "Validation").

(** [executeWithRetry(request, retriesLeft)], by recursion on
    [n = Z.to_nat retriesLeft]: [retriesLeft > 0] holds exactly when [n] is
    a successor. *)
Fixpoint retryLoop (n : nat) (st : State G) (request : ExecutionRequest)
    (retriesLeft : Z) : list Effect * ExecutionResult * State G :=
  let k := attempts st in
  let '(effects, outcome, st) := attempt st request retriesLeft in
  match outcome with
  | Finished r => (effects, r, st)
  | Thrown errorMessage =>
      match n with
      | S n' =>
          if retryable errorMessage then
            let delay := Sleep (default 0 (retryDelay (finalConfig st))) in
            let '(more, r, st) := retryLoop n' st request (retriesLeft - 1) in
            (effects ++ [delay] ++ more, r, st)
          else
            let '(after, r) := gaveUp st request k retriesLeft errorMessage in
            (effects ++ after, r, st)
      | O =>
          let '(after, r) := gaveUp st request k retriesLeft errorMessage in
          (effects ++ after, r, st)
      end
  end.

Definition executeWithRetry (st : State G) (request : ExecutionRequest)
    (retriesLeft : Z) : list Effect * ExecutionResult * State G :=
  retryLoop (Z.to_nat retriesLeft) st request retriesLeft.

Definition execute (st : State G) (request : ExecutionRequest)
  : list Effect * ExecutionResult * State G :=
  executeWithRetry st request (default 0 (retryCount (finalConfig st))).

End Execute.

Definition registerTool {G} (tool : ToolSystem.Tool) (st : State G) : State G :=
  mkState (finalConfig st) (JsMap.set (tools st) (ToolSystem.name tool) tool)
    (rateLimiter st) (permissionGuard st) (events st) (attempts st).

Definition getToolDefinitions {G} (st : State G) : list ToolSystem.ToolDefinition :=
  map ToolSystem.definitionOf (JsMap.values (tools st)).

Definition setPermissionGuard {G} (guard : G) (st : State G) : State G :=
  mkState (finalConfig st) (tools st) (rateLimiter st) (Some guard) (events st)
    (attempts st).

(** [events = { ...events, ...newEvents }] *)
Definition setEvents {G} (newEvents : OrchestratorEvents) (st : State G) : State G :=
  mkState (finalConfig st) (tools st) (rateLimiter st) (permissionGuard st)
    {| onBeforeExecute :=
         from_option Some (onBeforeExecute (events st)) (onBeforeExecute newEvents);
       onAfterExecute := onAfterExecute newEvents || onAfterExecute (events st);
       onPermissionRequired :=
         from_option Some (onPermissionRequired (events st))
           (onPermissionRequired newEvents);
       onRateLimited := onRateLimited newEvents || onRateLimited (events st) |}
    (attempts st).

End Orchestrator.

(** ** The enhanced guard over a sequence of requests *)

Module GuardUse.
Import PermissionGuard.

Section Session.
Context `{!JsString.StringPrototype}.
Variable hostnameOf : string → option string.

(** [evaluate] for each request of a list in turn, each at its own
    reading of [Date.now()]. *)
Fixpoint evaluateAll (g : Guard) (requests : list (Z * PermissionRequest))
  : list PermissionResult * Guard :=
  match requests with
  | [] => ([], g)
  | (now, request) :: rest =>
      let '(r, g) := evaluate hostnameOf g now request in
      let '(rs, g) := evaluateAll g rest in
      (r :: rs, g)
  end.

(** A request that gets to the session quota: it passes the whitelist
    checks and its tier asks for a confirmation. *)
Definition needsConfirmation (g : Guard) (request : PermissionRequest) : Prop :=
  whitelistStage hostnameOf g request = None
  ∧ riskLevel request ∉ autoApprove (approvalPolicy g)
  ∧ riskLevel request ∈ requireConfirmation (approvalPolicy g).

End Session.

(** A whitelist with other command lists. *)
Definition withCommands (w : WhitelistConfig) (denied allowed_ : list string)
  : WhitelistConfig :=
  {| allowedCommands := allowed_;
     allowedPaths := allowedPaths w;
     allowedDomains := allowedDomains w;
     deniedCommands := denied;
     deniedPaths := deniedPaths w;
     deniedDomains := deniedDomains w |}.

(** The requests arrive in one session: no gap between two of them, nor
    before the first, is longer than the timeout. *)
Fixpoint oneSession (timeout last : Z) (requests : list (Z * PermissionRequest))
  : Prop :=
  match requests with
  | [] => True
  | (now, _) :: rest => now - last ≤ timeout ∧ oneSession timeout now rest
  end.

(** The result of asking the callback. *)
Definition asked (cb : PermissionRequest → bool) (request : PermissionRequest)
  : PermissionResult :=
  {| granted := cb request;
     reason := if cb request then None else Some "User denied permission";
     requiresBackup := bool_decide (riskLevel request = MODIFY) |}.

(** The result of a request over the quota. *)
Definition limitReached (toolName : string) : PermissionResult :=
  {| granted := false;
     reason := Some ("Session approval limit reached for " +:+ toolName);
     requiresBackup := false |}.

End GuardUse.

(** ** packages/permission-system/src/permission-guard.ts

    [path.resolve] is a function of the environment. *)

Module BasicGuard.
Import JsString PermissionGuard.

Record PermissionConfig := mkConfig {
  autoApproveRead : option bool;
  autoApproveModify : option bool;
  requireConfirmationForDelete : option bool;
  requireConfirmationForSystem : option bool;
  backupBeforeModify : option bool;
  backupDir : option string;
  allowedPaths : option (list string);
  deniedPaths : option (list string);
  allowedCommands : option (list string);
  deniedCommands : option (list string)
}.

Definition DEFAULT_CONFIG : PermissionConfig :=
  {| autoApproveRead := Some true;
     autoApproveModify := Some false;
     requireConfirmationForDelete := Some true;
     requireConfirmationForSystem := Some true;
     backupBeforeModify := Some true;
     backupDir := Some "./.robot-backups";
     allowedPaths := Some [];
     deniedPaths := Some [];
     allowedCommands := Some [];
     deniedCommands := Some [] |}.

Definition emptyConfig : PermissionConfig :=
  {| autoApproveRead := None; autoApproveModify := None;
     requireConfirmationForDelete := None; requireConfirmationForSystem := None;
     backupBeforeModify := None; backupDir := None; allowedPaths := None;
     deniedPaths := None; allowedCommands := None; deniedCommands := None |}.

(** [{ ...base, ...over }] *)
Definition spread (base over : PermissionConfig) : PermissionConfig :=
  {| autoApproveRead := from_option Some (autoApproveRead base) (autoApproveRead over);
     autoApproveModify :=
       from_option Some (autoApproveModify base) (autoApproveModify over);
     requireConfirmationForDelete :=
       from_option Some (requireConfirmationForDelete base)
         (requireConfirmationForDelete over);
     requireConfirmationForSystem :=
       from_option Some (requireConfirmationForSystem base)
         (requireConfirmationForSystem over);
     backupBeforeModify :=
       from_option Some (backupBeforeModify base) (backupBeforeModify over);
     backupDir := from_option Some (backupDir base) (backupDir over);
     allowedPaths := from_option Some (allowedPaths base) (allowedPaths over);
     deniedPaths := from_option Some (deniedPaths base) (deniedPaths over);
     allowedCommands := from_option Some (allowedCommands base) (allowedCommands over);
     deniedCommands := from_option Some (deniedCommands base) (deniedCommands over) |}.

(** The closure of [createPermissionGuard(config)]. *)
Record Guard := mkGuard {
  finalConfig : PermissionConfig;
  callback : option (PermissionRequest → bool)
}.

Definition createPermissionGuard (config : PermissionConfig) : Guard :=
  {| finalConfig := spread DEFAULT_CONFIG config; callback := None |}.

Definition setCallback (cb : PermissionRequest → bool) (g : Guard) : Guard :=
  {| finalConfig := finalConfig g; callback := Some cb |}.

(** [list && list.length > 0]: the list, when it is set and not empty *)
Definition nonEmpty (list_ : option (list string)) : option (list string) :=
  match list_ with
  | Some (x :: l) => Some (x :: l)
  | _ => None
  end.

Section Evaluate.
Context `{!StringPrototype}.
Variable resolve : string → string.

Definition isPathAllowed (g : Guard) (targetPath : string) : bool :=
  let normalizedPath := resolve targetPath in
  if existsb (λ denied, startsWith normalizedPath (resolve denied))
       (default [] (nonEmpty (deniedPaths (finalConfig g))))
  then false
  else
    match nonEmpty (allowedPaths (finalConfig g)) with
    | Some allowed =>
        existsb (λ a, startsWith normalizedPath (resolve a)) allowed
    | None => true
    end.

Definition isCommandAllowed (g : Guard) (command : string) : bool :=
  let cmd := trim (toLowerCase command) in
  if existsb (λ denied, includes cmd (toLowerCase denied))
       (default [] (nonEmpty (deniedCommands (finalConfig g))))
  then false
  else
    match nonEmpty (allowedCommands (finalConfig g)) with
    | Some allowed => existsb (λ a, includes cmd (toLowerCase a)) allowed
    | None => true
    end.

(** The [switch] of [evaluate]: [(requiresConfirmation, requiresBackup)]. *)
Definition tierPolicy (g : Guard) (risk : RiskLevel) : bool * bool :=
  let cfg := finalConfig g in
  match risk with
  | READ => (negb (default false (autoApproveRead cfg)), false)
  | MODIFY => (negb (default false (autoApproveModify cfg)),
               default false (backupBeforeModify cfg))
  | DELETE => (default true (requireConfirmationForDelete cfg), false)
  | SYSTEM => (default true (requireConfirmationForSystem cfg), false)
  end.

(** The end of [evaluate]: the tier's policy, then the callback. *)
Definition confirmStage (g : Guard) (request : PermissionRequest)
  : PermissionResult :=
  let '(requiresConfirmation, backup) := tierPolicy g (riskLevel request) in
  if negb requiresConfirmation then
    {| granted := true; reason := None; requiresBackup := backup |}
  else
    match callback g with
    | Some cb =>
        let userApproved := cb request in
        {| granted := userApproved;
           reason := if userApproved then None else Some "User denied permission";
           requiresBackup := backup |}
    | None =>
        {| granted := false;
           reason := Some "No permission callback configured for interactive confirmation";
           requiresBackup := false |}
    end.

Definition evaluate (g : Guard) (request : PermissionRequest) : PermissionResult :=
  match truthy (target request) with
  | Some t =>
      if negb (isPathAllowed g t) then
        {| granted := false; reason := Some ("Path not allowed: " +:+ t);
           requiresBackup := false |}
      else if bool_decide (action request = "shell") && negb (isCommandAllowed g t)
      then
        {| granted := false; reason := Some ("Command not allowed: " +:+ t);
           requiresBackup := false |}
      else confirmStage g request
  | None => confirmStage g request
  end.

End Evaluate.

(** *** The names of backup files *)

(** [s.replace(/[:.]/g, '-')] *)
Fixpoint replaceColonsAndDots (s : string) : string :=
  match s with
  | EmptyString => EmptyString
  | String c rest =>
      String (if bool_decide (c = ":"%char) || bool_decide (c = "."%char)
              then "-"%char else c)
        (replaceColonsAndDots rest)
  end.

(** The name [createBackup] gives to the copy of a file with base name
    [base], made at the instant whose [toISOString()] is [iso]. *)
Definition backupName (base iso : string) : string :=
  base +:+ "." +:+ replaceColonsAndDots iso +:+ ".bak".

(** [s.split('.')] *)
Fixpoint splitDots (s : string) : list string :=
  match s with
  | EmptyString => [EmptyString]
  | String c rest =>
      if bool_decide (c = "."%char) then EmptyString :: splitDots rest
      else match splitDots rest with
           | part :: parts => String c part :: parts
           | [] => [String c EmptyString]
           end
  end.

(** [parts.slice(0, -2)] *)
Definition dropLastTwo {A} (parts : list A) : list A :=
  take (length parts - 2) parts.

(** [originalName] of [getBackupInfo], from the base name of the backup. *)
Definition originalName (backupBase : string) : string :=
  ToolValidator.join "." (dropLastTwo (splitDots backupBase)).

End BasicGuard.

(** ** Reading a run of the engines *)

Module EngineUse.
Import EngineTypes Engine.

Definition isStepStart {R} (e : ExecutionEvent R) : bool :=
  match e with EvStepStart _ _ _ _ => true | _ => false end.

Definition isStepComplete {R} (e : ExecutionEvent R) : bool :=
  match e with EvStepComplete _ _ _ _ => true | _ => false end.

(** [cancel()] is called while the step at index [i] is under way: as
    the answer to its permission prompt, or later in the iteration. *)
Definition cancelledDuring (ctl : Controller) (i : nat) (step : PlanStep) : bool :=
  highRisk step && cancels (permissionAnswer ctl i) || cancelDuringStep ctl i.

(** The results the step loop has pushed when it ends. *)
Definition pushed (exit : LoopExit) : list StepResult :=
  match exit with
  | Completed stepResults => stepResults
  | CancelledAt stepResults => stepResults
  end.







End EngineUse.

(** ** The controller methods of both engines

    [waitForConfirm], [confirmPlan], [confirmPermission] and [cancel] on
    the fields [pendingConfirm] and [cancelled].  A waiter is named by a
    number; a method returns the waiter it resolves and the value it
    resolves it to. *)

Module Confirmation.
Import EngineTypes.

Record Pending := mkPending {
  pendingConfirm : option (ConfirmType * nat);
  cancelled : bool
}.

Definition idle : Pending := {| pendingConfirm := None; cancelled := false |}.

Definition waitForConfirm (type : ConfirmType) (waiter : nat) (st : Pending)
  : Pending :=
  {| pendingConfirm := Some (type, waiter); cancelled := cancelled st |}.

Definition confirmPlan (approved : bool) (st : Pending)
  : option (nat * bool) * Pending :=
  match pendingConfirm st with
  | Some (plan, waiter) =>
      (Some (waiter, approved),
       {| pendingConfirm := None; cancelled := cancelled st |})
  | _ => (None, st)
  end.

Definition confirmPermission (approved : bool) (st : Pending)
  : option (nat * bool) * Pending :=
  match pendingConfirm st with
  | Some (permission, waiter) =>
      (Some (waiter, approved),
       {| pendingConfirm := None; cancelled := cancelled st |})
  | _ => (None, st)
  end.

Definition cancel (st : Pending) : option (nat * bool) * Pending :=
  ((λ p, (p.2, false)) <$> pendingConfirm st,
   {| pendingConfirm := None; cancelled := true |}).

(** A call of the [ExecutionController] interface. *)
Inductive Call :=
| ConfirmPlan (approved : bool)
| ConfirmPermission (approved : bool)
| CancelRun.

Definition call (c : Call) (st : Pending) : option (nat * bool) * Pending :=
  match c with
  | ConfirmPlan approved => confirmPlan approved st
  | ConfirmPermission approved => confirmPermission approved st
  | CancelRun => cancel st
  end.

(** The waiters that a sequence of calls resolves, in order. *)
Fixpoint calls (cs : list Call) (st : Pending) : list (nat * bool) * Pending :=
  match cs with
  | [] => ([], st)
  | c :: rest =>
      let '(resolved, st) := call c st in
      let '(more, st) := calls rest st in
      (from_option (λ r, [r]) [] resolved ++ more, st)
  end.

(** Whether a call answers a wait of the given kind, and with what. *)
Definition answers (type : ConfirmType) (c : Call) : option bool :=
  match c, type with
  | ConfirmPlan approved, plan => Some approved
  | ConfirmPermission approved, permission => Some approved
  | CancelRun, _ => Some false
  | _, _ => None
  end.

End Confirmation.

(** ** The event channel of the enhanced engine

    [emit], the loop of [eventGenerator] and the last lines of [cancel],
    on the fields [eventQueue] and [eventResolver].  The generator is
    [Ready] to run an iteration when its consumer asks for the next
    event, [Waiting] on the promise whose resolver is [eventResolver], or
    [Done] once it has left the loop. *)

Module EventChannel.

Inductive Generator := Ready | Waiting | Done.

Record Channel (E : Type) := mkChannel {
  eventQueue : list E;
  generator : Generator
}.
Arguments mkChannel {E} eventQueue generator.
Arguments eventQueue {E} c.
Arguments generator {E} c.

(** [this.eventResolver !== null] *)
Definition eventResolver {E} (ch : Channel E) : bool :=
  match generator ch with Waiting => true | _ => false end.

(** [run] resets the queue and starts the generator. *)
Definition start {E} : Channel E := {| eventQueue := []; generator := Ready |}.

(** [emit(event)]: the event the generator yields at once, if any. *)
Definition emit {E} (event : E) (ch : Channel E) : option E * Channel E :=
  if eventResolver ch
  then (Some event, {| eventQueue := eventQueue ch; generator := Ready |})
  else (None, {| eventQueue := eventQueue ch ++ [event]; generator := generator ch |}).

(** One iteration of the loop of [eventGenerator], run when the consumer
    asks for the next event: the event it yields, if the queue has one. *)
Definition next {E} (ch : Channel E) : option E * Channel E :=
  match generator ch with
  | Ready =>
      match eventQueue ch with
      | event :: rest => (Some event, {| eventQueue := rest; generator := Ready |})
      | [] => (None, {| eventQueue := []; generator := Waiting |})
      end
  | _ => (None, ch)
  end.

(** [cancel()]: a waiting generator receives [null] and leaves the loop. *)
Definition cancel {E} (ch : Channel E) : Channel E :=
  if eventResolver ch
  then {| eventQueue := eventQueue ch; generator := Done |}
  else ch.

Inductive Op (E : Type) :=
| Emit (event : E)
| Next
| Cancel.
Arguments Emit {E} event.
Arguments Next {E}.
Arguments Cancel {E}.

(** The events the consumer receives under a sequence of operations. *)
Fixpoint run {E} (ops : list (Op E)) (ch : Channel E) : list E * Channel E :=
  match ops with
  | [] => ([], ch)
  | op :: rest =>
      let '(yielded, ch) :=
        match op with
        | Emit event => emit event ch
        | Next => next ch
        | Cancel => (None, cancel ch)
        end in
      let '(more, ch) := run rest ch in
      (from_option (λ e, [e]) [] yielded ++ more, ch)
  end.

Definition emitted {E} (ops : list (Op E)) : list E :=
  omap (λ op, match op with Emit event => Some event | _ => None end) ops.

End EventChannel.

(** ** The rate limiter under a caller that works through its calls
    one after the other

    Such a caller asks [check] and, when the call is allowed and goes
    ahead, calls [record] before it asks [check] again.  Calls that are
    in flight together are not of this shape: [executeWithRetry] awaits
    the permission guard between its [check] and its [record], and
    another call may be checked in between. *)

Module RateLimiterUse.
Import RateLimiter.

(** The same entry for a tool in two limiters: the same calls, the same
    configuration, the same answers. *)
Definition sameFor (toolName : string) (ls ls' : Limiter) : Prop :=
  callsOf toolName ls' = callsOf toolName ls
  ∧ configOf toolName ls' = configOf toolName ls
  ∧ ∀ at_, (check toolName at_ ls').1 = (check toolName at_ ls).1.

(** One call of a sequential caller: a check at [checkAt]; when it
    allows and [proceed] holds, a record at [recordAt].  The second component collects the
    instants of the recorded calls. *)
Definition guardedCall (toolName : string) (step : Z * Z * bool)
    (st : Limiter * list Z) : Limiter * list Z :=
  let '(checkAt, recordAt, proceed) := step in
  let '(answer, ls) := check toolName checkAt st.1 in
  if allowed answer && proceed
  then (record toolName recordAt ls, st.2 ++ [recordAt])
  else (ls, st.2).

Definition guardedCalls (toolName : string) (steps : list (Z * Z * bool))
    (st : Limiter * list Z) : Limiter * list Z :=
  foldl (λ st step, guardedCall toolName step st) st steps.

(** The instants of a schedule never go back. *)
Fixpoint inOrder (from : Z) (steps : list (Z * Z * bool)) : Prop :=
  match steps with
  | [] => True
  | (checkAt, recordAt, _) :: rest =>
      from ≤ checkAt ∧ checkAt ≤ recordAt ∧ inOrder recordAt rest
  end.

(** The recorded calls that fall in the window that ends at [at_]. *)
Definition within (windowMs at_ : Z) (history : list Z) : list Z :=
  filter (λ time, at_ - windowMs < time ∧ time ≤ at_) history.

End RateLimiterUse.

(** ** The agent of agent-core: [Agent.execute]

    The agent walks through the steps of a plan: it looks the tool up
    in the registry, asks the permission guard, has a backup made, runs
    the tool.  The guard is any implementation of the [PermissionGuard]
    interface, as for the orchestrator; [clock i] is the reading of
    [Date.now()] that the guard takes for the step at index [i].  The
    calls of the logger are left out.  The agent sets no timer: a tool
    promise that is [Late] is one that never settles, and then
    [execute] never returns.  The guard, the backup manager and the
    [onStepExecuted] callback belong to the environment: the log records
    the calls made to them and the model takes each of their promises as
    settled, so it tells what [execute] does and in which order, not
    whether it returns. *)

Module Agent.
Import Js EngineTypes.

(** The values of [status], of a step and of a plan. *)
Inductive Status := pending | running | completed | failed | skipped | cancelled.

#[export] Instance Status_eq_dec : EqDecision Status.
Proof. solve_decision. Defined.

(** [params] is an object, as its type [Record<string, unknown>] says:
    the list holds its own properties. *)
Record ExecutionStep := mkStep {
  id : string;
  toolName : string;
  params : list (string * JsValue);
  description : string;
  riskLevel : PermissionGuard.RiskLevel;
  status : Status;
  result : option ToolSystem.ToolResult;
  error : option string
}.

Record ExecutionPlan := mkPlan {
  planId : string;
  planTaskId : string;
  goal : string;
  steps : list ExecutionStep;
  planStatus : Status;
  planError : option string
}.

Record AgentSession := mkSession {
  taskId : string;
  plan : option ExecutionPlan
}.

Record ExecutionResult := mkResult {
  success : bool;
  resultPlan : ExecutionPlan;
  resultError : option string
}.

(** What the agent does to its environment, in order.  [Evaluate] holds
    the answer of the guard with the request. *)
Inductive Effect :=
| Evaluate (request : PermissionGuard.PermissionRequest)
    (answer : PermissionGuard.PermissionResult)
| CreateBackup (path : string)
| ToolExecute (toolName : string) (params : JsValue)
    (context : ToolSystem.ToolContext)
| StepExecuted (step : ExecutionStep) (index total : nat).

Definition isToolExecute (e : Effect) : bool :=
  match e with ToolExecute _ _ _ => true | _ => false end.

(** The fields of an [Agent] that [execute] reads.  [createBackup] says
    whether the guard has the optional method; [onStepExecuted] whether
    a step callback is set. *)
Record Agent (G : Type) := mkAgent {
  toolRegistry : ToolSystem.Registry;
  permissionGuard : G;
  createBackup : bool;
  maxIterations : Z;
  workingDirectory : string;
  onStepExecuted : bool
}.
Arguments mkAgent {G} toolRegistry permissionGuard createBackup maxIterations
  workingDirectory onStepExecuted.
Arguments toolRegistry {G} a.
Arguments permissionGuard {G} a.
Arguments createBackup {G} a.
Arguments maxIterations {G} a.
Arguments workingDirectory {G} a.
Arguments onStepExecuted {G} a.

(** How the loop over the steps ends: after the last step, at the
    [break] of [maxIterations], or never, waiting for a tool. *)
Inductive LoopExit :=
| Through (allStepsCompleted : bool)
| MaxIterations (allStepsCompleted : bool)
| Waiting.

Definition withOutcome (step : ExecutionStep) (status_ : Status)
    (result_ : option ToolSystem.ToolResult) (error_ : option string)
  : ExecutionStep :=
  {| id := id step; toolName := toolName step; params := params step;
     description := description step; riskLevel := riskLevel step;
     status := status_; result := result_; error := error_ |}.

Section Execute.
Variable inherited : string → JsValue.
Context {G : Type}.
Variable evaluate : G → Z → PermissionGuard.PermissionRequest
                    → PermissionGuard.PermissionResult * G.
Variable clock : nat → Z.
(** The identifier that [generateId()] makes up for a plan. *)
Variable generateId : string.

(** [typeof step.params.path === 'string' ? step.params.path : undefined] *)
Definition pathOf (step : ExecutionStep) : option string :=
  match getProperty inherited (JObject (params step)) "path" with
  | JString s => Some s
  | _ => None
  end.

Definition permissionRequest (step : ExecutionStep)
  : PermissionGuard.PermissionRequest :=
  {| PermissionGuard.toolName := toolName step;
     PermissionGuard.action := "execute";
     PermissionGuard.target := pathOf step;
     PermissionGuard.riskLevel := riskLevel step;
     PermissionGuard.description := description step |}.

Definition stepExecuted (agent : Agent G) (step : ExecutionStep) (i total : nat)
  : list Effect :=
  if onStepExecuted agent then [StepExecuted step i total] else [].

(** One iteration of the loop, past the check of [maxIterations]: the
    step as the iteration leaves it, and whether it keeps
    [allStepsCompleted] as it is; [None] when the tool never settles. *)
Definition runStep (agent : Agent G) (dryRun : bool) (taskId_ : string)
    (i total : nat) (step : ExecutionStep) (guard : G)
  : list Effect * option (ExecutionStep * bool) * G :=
  match ToolSystem.get (toolName step) (toolRegistry agent) with
  | None =>
      let step' := withOutcome step failed (result step)
                     (Some ("Tool not found: " +:+ toolName step)) in
      (stepExecuted agent step' i total, Some (step', false), guard)
  | Some tool =>
      let request := permissionRequest step in
      let '(answer, guard) := evaluate guard (clock i) request in
      if negb (PermissionGuard.granted answer) then
        let step' := withOutcome step skipped (result step)
                       (Some (default "Permission denied"
                                (PermissionGuard.reason answer))) in
        ([Evaluate request answer] ++ stepExecuted agent step' i total,
         Some (step', true), guard)
      else
        let backup :=
          match pathOf step with
          | Some path =>
              if PermissionGuard.requiresBackup answer && createBackup agent
              then [CreateBackup path] else []
          | None => []
          end in
        let context :=
          {| ToolSystem.taskId := taskId_;
             ToolSystem.workingDirectory := Some (workingDirectory agent);
             ToolSystem.dryRun := Some dryRun |} in
        let call := ToolExecute (toolName step) (JObject (params step)) context in
        match ToolSystem.execute tool i (JObject (params step)) context with
        | EnhancedEngine.Late =>
            ([Evaluate request answer] ++ backup ++ [call], None, guard)
        | EnhancedEngine.InTime (Resolved toolResult) =>
            let step' :=
              if ToolSystem.success toolResult
              then withOutcome step completed (Some toolResult) (error step)
              else withOutcome step failed (Some toolResult)
                     (ToolSystem.error toolResult) in
            ([Evaluate request answer] ++ backup ++ [call]
               ++ stepExecuted agent step' i total,
             Some (step', ToolSystem.success toolResult), guard)
        | EnhancedEngine.InTime (Rejected message) =>
            let step' := withOutcome step failed (result step) (Some message) in
            ([Evaluate request answer] ++ backup ++ [call]
               ++ stepExecuted agent step' i total,
             Some (step', false), guard)
        end
  end.

(** The loop over [plan.steps], from index [i] on.  [iteration] is
    [i + 1] in the iteration of index [i]: no entry of the array is
    empty. *)
Fixpoint runSteps (agent : Agent G) (dryRun : bool) (taskId_ : string)
    (total i : nat) (todo : list ExecutionStep) (guard : G)
    (allStepsCompleted : bool)
  : list Effect * list ExecutionStep * G * LoopExit :=
  match todo with
  | [] => ([], [], guard, Through allStepsCompleted)
  | step :: rest =>
      if decide (maxIterations agent < Z.of_nat (S i)) then
        ([], todo, guard, MaxIterations allStepsCompleted)
      else
        match runStep agent dryRun taskId_ i total step guard with
        | (effects, None, guard) =>
            (effects,
             withOutcome step running (result step) (error step) :: rest,
             guard, Waiting)
        | (effects, Some (step', kept), guard) =>
            let '(more, rest', guard, exit) :=
              runSteps agent dryRun taskId_ total (S i) rest guard
                (allStepsCompleted && kept) in
            (effects ++ more, step' :: rest', guard, exit)
        end
  end.

(** The plan and the result after the loop. *)
Definition finish (plan_ : ExecutionPlan) (steps_ : list ExecutionStep)
    (allStepsCompleted : bool) (error_ : option string) : ExecutionResult :=
  {| success := allStepsCompleted;
     resultPlan :=
       {| planId := planId plan_; planTaskId := planTaskId plan_;
          goal := goal plan_; steps := steps_;
          planStatus := if allStepsCompleted then completed else failed;
          planError := error_ |};
     resultError := if allStepsCompleted then None else Some "Some steps failed" |}.

(** [execute(session, dryRun)]: its effects, its result if it returns,
    and the guard as it leaves it.  The plan of the result is the plan of
    the session, which the run has changed in place. *)
Definition execute (agent : Agent G) (session : AgentSession) (dryRun : bool)
  : list Effect * option ExecutionResult * G :=
  match plan session with
  | None =>
      ([],
       Some {| success := false;
               resultPlan :=
                 {| planId := generateId; planTaskId := taskId session;
                    goal := ""; steps := []; planStatus := failed;
                    planError := Some "No plan to execute" |};
               resultError := Some "No plan to execute" |},
       permissionGuard agent)
  | Some plan_ =>
      if decide (planStatus plan_ = cancelled) then
        ([],
         Some {| success := false; resultPlan := plan_;
                 resultError := Some "Plan was cancelled" |},
         permissionGuard agent)
      else
        let '(effects, steps_, guard, exit) :=
          runSteps agent dryRun (taskId session) (length (steps plan_)) 0
            (steps plan_) (permissionGuard agent) true in
        match exit with
        | Through allStepsCompleted =>
            (effects,
             Some (finish plan_ steps_ allStepsCompleted (planError plan_)),
             guard)
        | MaxIterations allStepsCompleted =>
            (effects,
             Some (finish plan_ steps_ allStepsCompleted
                     (Some "Maximum iterations reached")),
             guard)
        | Waiting => (effects, None, guard)
        end
  end.

End Execute.

End Agent.

(** * Properties *)

(** ** The rate limiter *)

Module RateLimiterSpec.
Import RateLimiter.


Lemma getState_lookup toolName (ls : Limiter) :
  (getState toolName ls).2 !! toolName = Some (getState toolName ls).1.
Proof.
  unfold getState. destruct (ls !! toolName) eqn:E; simpl; [done|].
  by rewrite lookup_insert_eq.
Qed.

Lemma callsOf_insert toolName st (ls : Limiter) :
  callsOf toolName (<[toolName := st]> ls) = calls st.
Proof. unfold callsOf, getState. by rewrite lookup_insert_eq. Qed.

Lemma configOf_insert toolName st (ls : Limiter) :
  configOf toolName (<[toolName := st]> ls) = config st.
Proof. unfold configOf, getState. by rewrite lookup_insert_eq. Qed.

Lemma record_calls toolName now ls :
  callsOf toolName (record toolName now ls) = callsOf toolName ls ++ [now].
Proof.
  unfold record. destruct (getState toolName ls) as [st ls'] eqn:E.
  rewrite callsOf_insert. simpl. unfold callsOf. by rewrite E.
Qed.

Lemma record_config toolName now ls :
  configOf toolName (record toolName now ls) = configOf toolName ls.
Proof.
  unfold record. destruct (getState toolName ls) as [st ls'] eqn:E.
  rewrite configOf_insert. simpl. unfold configOf. by rewrite E.
Qed.

Lemma recordAll_calls toolName times : ∀ ls,
  callsOf toolName (recordAll toolName times ls) = callsOf toolName ls ++ times.
Proof.
  induction times as [|t times IH]; intros ls; simpl.
  - by rewrite app_nil_r.
  - unfold recordAll in *. simpl. rewrite IH, record_calls, <- app_assoc. done.
Qed.

Lemma recordAll_config toolName times : ∀ ls,
  configOf toolName (recordAll toolName times ls) = configOf toolName ls.
Proof.
  induction times as [|t times IH]; intros ls; [done|].
  unfold recordAll in *. simpl. by rewrite IH, record_config.
Qed.

Lemma setConfig_config toolName cfg ls :
  configOf toolName (setConfig toolName cfg ls) = cfg.
Proof.
  unfold setConfig. destruct (getState toolName ls) as [st ls'].
  by rewrite configOf_insert.
Qed.

(** What [check] computes, in terms of the tool's calls and config. *)
Lemma check_spec toolName now ls :
  let cfg := configOf toolName ls in
  let kept := inWindow cfg now (callsOf toolName ls) in
  let r := (check toolName now ls).1 in
  let ls' := (check toolName now ls).2 in
  callsOf toolName ls' = kept
  ∧ configOf toolName ls' = cfg
  ∧ allowed r = bool_decide (Z.of_nat (length kept) < maxCalls cfg)
  ∧ remaining r = (if allowed r then maxCalls cfg - Z.of_nat (length kept) else 0).
Proof.
  intros cfg kept r ls'. subst r ls'. unfold check.
  assert (Hst : cfg = config (getState toolName ls).1
                ∧ callsOf toolName ls = calls (getState toolName ls).1) by done.
  destruct Hst as [Hcfg Hcalls].
  destruct (getState toolName ls) as [st ls0]. simpl in Hcfg, Hcalls.
  subst kept. unfold inWindow. rewrite Hcalls, Hcfg. simpl.
  case_decide as Hfull; simpl; rewrite callsOf_insert, configOf_insert; simpl;
    (repeat split; try done).
  - rewrite bool_decide_eq_false_2; [done | lia].
  - rewrite bool_decide_eq_true_2; [done | lia].
Qed.

Lemma inWindow_all cfg now times :
  Forall (λ t, now - windowMs cfg < t) times → inWindow cfg now times = times.
Proof.
  induction 1 as [|t times Ht _ IH]; [done|].
  unfold inWindow in *. rewrite filter_cons_True by done. by rewrite IH.
Qed.

Lemma inWindow_none cfg now times :
  Forall (λ t, t ≤ now - windowMs cfg) times → inWindow cfg now times = [].
Proof.
  induction 1 as [|t times Ht _ IH]; [done|].
  unfold inWindow in *. rewrite filter_cons_False by lia. done.
Qed.

Lemma inWindow_app cfg now l1 l2 :
  inWindow cfg now (l1 ++ l2) = inWindow cfg now l1 ++ inWindow cfg now l2.
Proof. apply filter_app. Qed.

Lemma inWindow_Forall (P : Z → Prop) cfg now times :
  Forall P times → Forall P (inWindow cfg now times).
Proof.
  rewrite !Forall_forall. intros H x Hx. apply H.
  unfold inWindow in Hx. by apply list_elem_of_filter in Hx as [_ ?].
Qed.

(** C9 as stated fails for a window of zero milliseconds: the call just
    recorded is already outside the window, and the immediate check allows.
    It also fails for a budget of zero calls: no check ever allows, however
    much time has passed. *)
Lemma C9_counterexample :
  let noWindow :=
    recordAll "tool" [1000]
      (setConfig "tool" {| maxCalls := 1; windowMs := 0 |} createRateLimiter) in
  let noBudget :=
    setConfig "tool" {| maxCalls := 0; windowMs := 1000 |} createRateLimiter in
  ((check "tool" 1000 noWindow).1
     = {| allowed := true; remaining := 1; resetTime := 1000; retryAfter := None |}
   ∧ ¬ (allowed (check "tool" 1000 noWindow).1 = false
        ∧ remaining (check "tool" 1000 noWindow).1 = 0))
  ∧ (allowed (check "tool" 2001 (check "tool" 1000 noBudget).2).1 = false
     ∧ ¬ allowed (check "tool" 2001 (check "tool" 1000 noBudget).2).1 = true).
Proof.
  vm_compute. split; split; try reflexivity.
  - intros [? ?]; discriminate.
  - discriminate.
Qed.

(** C9 (amended): for a tool whose name is not a member inherited from
    [Object.prototype] and whose [maxCalls] and [windowMs] are at least
    one, after [maxCalls] records inside the current window a check
    returns [allowed = false] with [remaining = 0], and a check
    [windowMs + 1] later, with nothing recorded in between, returns
    [allowed = true] with the full budget; for every configuration of
    such a tool, a check keeps the timestamps with [now - windowMs < time]
    and allows exactly when fewer than [maxCalls] are kept. *)
Theorem C9_sliding_window (toolName : string) (ls : Limiter) (times : list Z) (now : Z) :
  let cfg := configOf toolName ls in
  toolName ∉ inheritedMembers →
  1 ≤ maxCalls cfg →
  1 ≤ windowMs cfg →
  Z.of_nat (length times) = maxCalls cfg →
  Forall (λ t, now - windowMs cfg < t ∧ t ≤ now) times →
  Forall (λ t, t ≤ now) (callsOf toolName ls) →
  let first := check toolName now (recordAll toolName times ls) in
  let second := check toolName (now + windowMs cfg + 1) first.2 in
  (allowed first.1 = false ∧ remaining first.1 = 0)
  ∧ (allowed second.1 = true ∧ remaining second.1 = maxCalls cfg)
  ∧ ∀ ls0 at_,
      callsOf toolName (check toolName at_ ls0).2
        = inWindow (configOf toolName ls0) at_ (callsOf toolName ls0)
      ∧ (allowed (check toolName at_ ls0).1 = true
         ↔ Z.of_nat (length (inWindow (configOf toolName ls0) at_
                               (callsOf toolName ls0)))
           < maxCalls (configOf toolName ls0)).
Proof.
  intros cfg _ Hmax Hwin Hlen Htimes Hold first second.
  pose proof (check_spec toolName now (recordAll toolName times ls)) as H1.
  simpl in H1. rewrite recordAll_config, recordAll_calls in H1.
  fold cfg in H1. fold first in H1.
  destruct H1 as (Hcalls1 & Hcfg1 & Hallowed1 & Hrem1).
  rewrite inWindow_app in Hcalls1, Hallowed1, Hrem1.
  rewrite (inWindow_all cfg now times) in Hcalls1, Hallowed1, Hrem1
    by (eapply Forall_impl; [exact Htimes | simpl; lia]).
  assert (Hfirst : allowed first.1 = false).
  { rewrite Hallowed1. apply bool_decide_eq_false_2. rewrite length_app. lia. }
  pose proof (check_spec toolName (now + windowMs cfg + 1) first.2) as H2.
  simpl in H2. rewrite Hcfg1, Hcalls1 in H2. fold second in H2.
  destruct H2 as (_ & _ & Hallowed2 & Hrem2).
  assert (Hgone : inWindow cfg (now + windowMs cfg + 1)
                    (inWindow cfg now (callsOf toolName ls) ++ times) = []).
  { apply inWindow_none, Forall_app. split.
    - apply inWindow_Forall. eapply Forall_impl; [exact Hold | simpl; lia].
    - eapply Forall_impl; [exact Htimes | simpl; lia]. }
  rewrite Hgone in Hallowed2, Hrem2.
  assert (Hsecond : allowed second.1 = true).
  { rewrite Hallowed2. apply bool_decide_eq_true_2. simpl. lia. }
  split; [|split].
  - split; [done|]. by rewrite Hrem1, Hfirst.
  - split; [done|]. rewrite Hrem2, Hsecond. simpl. lia.
  - intros ls0 at_. pose proof (check_spec toolName at_ ls0) as H0. simpl in H0.
    destruct H0 as (Hc & _ & Ha & _). split; [done|].
    rewrite Ha. apply bool_decide_eq_true.
Qed.

(** The scenario of the unit tests: one call allowed per second. *)
Lemma C9_sliding_window_witness :
  let ls := setConfig "tool" {| maxCalls := 1; windowMs := 1000 |} createRateLimiter in
  let first := check "tool" 5000 (recordAll "tool" [5000] ls) in
  let second := check "tool" 6001 first.2 in
  (allowed first.1 = false ∧ remaining first.1 = 0)
  ∧ (allowed second.1 = true ∧ remaining second.1 = 1).
Proof.
  pose proof (C9_sliding_window "tool"
    (setConfig "tool" {| maxCalls := 1; windowMs := 1000 |} createRateLimiter)
    [5000] 5000) as H.
  simpl in H.
  destruct H as (H1 & H2 & _).
  - apply (bool_decide_unpack _). vm_compute. exact I.
  - vm_compute. discriminate.
  - vm_compute. discriminate.
  - reflexivity.
  - repeat constructor; vm_compute; congruence.
  - vm_compute. constructor.
  - split; [exact H1 | exact H2].
Defined.

End RateLimiterSpec.

(** ** The tool validator *)

Module ToolValidatorSpec.
Import Js ToolValidator Examples.

Section Validator.
Variable inherited : string → JsValue.

Lemma validateProperty_null prop path :
  validateProperty inherited JNull prop path = [].
Proof. by destruct prop. Qed.

Lemma validateProperty_undefined prop path :
  validateProperty inherited JUndefined prop path = [].
Proof. by destruct prop. Qed.

Lemma getProperty_own fields key v :
  ownProperty fields key = Some v →
  getProperty inherited (JObject fields) key = v.
Proof. intros H. simpl. by rewrite H. Qed.

Lemma flat_map_nil {A B} (f : A → list B) (l : list A) :
  (∀ x, x ∈ l → f x = []) → flat_map f l = [].
Proof.
  induction l as [|x l IH]; intros H; [done|]. simpl.
  rewrite (H x) by left. apply IH. intros y Hy. apply H. by right.
Qed.

Lemma requiredErrors_nil paramObj reqs :
  (∀ req, req ∈ reqs → getProperty inherited paramObj req ≠ JUndefined) →
  requiredErrors inherited paramObj reqs = [].
Proof.
  intros H. apply flat_map_nil. intros req Hreq.
  specialize (H req Hreq). by destruct (getProperty inherited paramObj req).
Qed.

Lemma propertyErrors_nil paramObj props :
  (∀ key prop, (key, prop) ∈ props →
     validateProperty inherited (getProperty inherited paramObj key) prop key = []) →
  propertyErrors inherited paramObj props = [].
Proof.
  intros H. apply flat_map_nil. intros [key prop] Hin.
  specialize (H key prop Hin).
  destruct (getProperty inherited paramObj key); try done.
Qed.

(** C10: a required field that is present with the value [null] is not
    reported as missing and gets no type error, and the parameters are
    valid when no other field has an error. *)
Theorem C10_null_required_field (tools : gmap string Tool) (toolName : string)
    (tool : Tool) (reqs : list string) (fields : list (string * JsValue))
    (field : string) :
  tools !! toolName = Some tool →
  required (parameters tool) = Some reqs →
  field ∈ reqs →
  ownProperty fields field = Some JNull →
  (∀ req, req ∈ reqs → req ≠ field →
     getProperty inherited (JObject fields) req ≠ JUndefined) →
  (∀ key prop, (key, prop) ∈ properties (parameters tool) → key ≠ field →
     validateProperty inherited (getProperty inherited (JObject fields) key)
       prop key = []) →
  requiredErrors inherited (JObject fields) [field] = []
  ∧ (∀ prop path, validateProperty inherited JNull prop path = [])
  ∧ validate inherited tools toolName (JObject fields)
    = {| valid := true; errors := [] |}.
Proof.
  intros Htool Hreqs Hin Hnull Hreq Hprops.
  pose proof (getProperty_own fields field JNull Hnull) as Hget.
  split; [|split].
  - apply requiredErrors_nil. intros req ->%list_elem_of_singleton.
    by rewrite Hget.
  - apply validateProperty_null.
  - unfold validate. rewrite Htool. unfold validateSchema. simpl.
    rewrite Hreqs.
    rewrite requiredErrors_nil, propertyErrors_nil; [done| |].
    + intros key prop Hkp. destruct (decide (key = field)) as [->|Hne].
      * rewrite Hget. apply validateProperty_null.
      * by apply Hprops.
    + intros req Hr. destruct (decide (req = field)) as [->|Hne].
      * by rewrite Hget.
      * by apply Hreq.
Qed.

End Validator.

Lemma C10_null_required_field_witness :
  validate (λ _, JUndefined) {["file_read" := fileReadTool]} "file_read"
    (JObject [("path", JNull); ("encoding", JString "utf8")])
  = {| valid := true; errors := [] |}.
Proof.
  refine (proj2 (proj2 (C10_null_required_field (λ _, JUndefined)
            {["file_read" := fileReadTool]} "file_read" fileReadTool ["path"]
            [("path", JNull); ("encoding", JString "utf8")] "path" _ _ _ _ _ _))).
  - reflexivity.
  - reflexivity.
  - apply list_elem_of_singleton. reflexivity.
  - reflexivity.
  - intros req Hr%list_elem_of_singleton. congruence.
  - intros key prop Hin Hne. simpl in Hin.
    apply elem_of_cons in Hin as [Heq|Hin]; [congruence|].
    apply list_elem_of_singleton in Hin. injection Hin as -> ->. reflexivity.
Defined.

End ToolValidatorSpec.

(** ** The enhanced permission guard *)

Module JsStringFacts.
Import JsString.

Lemma isWhiteSpace_lowerChar c : isWhiteSpace (lowerChar c) = isWhiteSpace c.
Proof. by destruct c as [[] [] [] [] [] [] [] []]. Qed.

Lemma firstChar_toLowerCase s :
  firstChar (asciiToLowerCase s) = lowerChar <$> firstChar s.
Proof. by destruct s. Qed.

Lemma lastChar_toLowerCase s :
  lastChar (asciiToLowerCase s) = lowerChar <$> lastChar s.
Proof.
  induction s as [|c s IH]; [done|]. simpl. rewrite IH.
  by destruct (lastChar s).
Qed.

Lemma edgeFree_toLowerCase s : edgeFree (asciiToLowerCase s) = edgeFree s.
Proof.
  unfold edgeFree. rewrite firstChar_toLowerCase, lastChar_toLowerCase.
  destruct (firstChar s), (lastChar s); simpl;
    by rewrite ?isWhiteSpace_lowerChar.
Qed.

Lemma prefix_empty s : String.prefix "" s = true.
Proof. by destruct s. Qed.

Lemma prefix_of_empty p : String.prefix p "" = true → p = "".
Proof. by destruct p. Qed.

Lemma includes_prefix s p : startsWith s p = true → includes s p = true.
Proof. intros H. destruct s; cbn [includes]; by rewrite H. Qed.

Lemma includes_empty s : includes s "" = true.
Proof. apply includes_prefix, prefix_empty. Qed.

Lemma includes_cons c s p : includes s p = true → includes (String c s) p = true.
Proof. intros H. cbn [includes]. rewrite H. apply orb_true_r. Qed.

Lemma includes_of_empty p : includes "" p = true → p = "".
Proof.
  cbn [includes]. rewrite orb_false_r. apply prefix_of_empty.
Qed.

Lemma prefix_trimEnd p : ∀ s,
  String.prefix p s = true →
  from_option (λ c, negb (isWhiteSpace c)) true (lastChar p) = true →
  String.prefix p (trimEnd s) = true.
Proof.
  induction p as [|c p IH]; intros s Hpre Hlast.
  - apply prefix_empty.
  - destruct s as [|d s]; [done|]. simpl in Hpre.
    destruct (ascii_dec c d) as [->|]; [|done].
    simpl in Hlast. simpl.
    destruct (lastChar p) as [e|] eqn:El.
    + specialize (IH s Hpre Hlast).
      destruct (trimEnd s) as [|k kept] eqn:Et.
      * apply prefix_of_empty in IH. by subst p.
      * simpl. destruct (ascii_dec d d); [done|congruence].
    + assert (p = "") as -> by (destruct p as [|x p]; [done|];
        simpl in El; by destruct (lastChar p)).
      simpl in Hlast. apply negb_true_iff in Hlast. rewrite Hlast.
      destruct (trimEnd s); simpl; destruct (ascii_dec d d); done || congruence.
Qed.

Lemma includes_trimEnd p s :
  includes s p = true →
  from_option (λ c, negb (isWhiteSpace c)) true (lastChar p) = true →
  includes (trimEnd s) p = true.
Proof.
  intros Hinc Hlast. induction s as [|d s IH]; [done|].
  cbn [includes] in Hinc. apply orb_true_iff in Hinc as [Hpre|Hrest].
  - apply includes_prefix. by apply prefix_trimEnd.
  - specialize (IH Hrest). simpl.
    destruct (trimEnd s) as [|k kept].
    + apply includes_of_empty in IH as ->. apply includes_empty.
    + by apply includes_cons.
Qed.

Lemma includes_trimStart p s :
  includes s p = true →
  from_option (λ c, negb (isWhiteSpace c)) true (firstChar p) = true →
  includes (trimStart s) p = true.
Proof.
  intros Hinc Hfirst. induction s as [|d s IH]; [done|].
  simpl. destruct (isWhiteSpace d) eqn:Hd; [|done].
  cbn [includes] in Hinc. apply orb_true_iff in Hinc as [Hpre|Hrest]; [|by apply IH].
  destruct p as [|c p]; [apply includes_empty|].
  unfold startsWith in Hpre. simpl in Hpre.
  destruct (ascii_dec c d) as [->|]; [|done].
  simpl in Hfirst. by rewrite Hd in Hfirst.
Qed.

(** Trimming the text does not lose an occurrence of a pattern that has
    no white space at its ends. *)
Lemma includes_trim s p :
  edgeFree p = true → includes s p = true → includes (asciiTrim s) p = true.
Proof.
  unfold edgeFree, asciiTrim. intros [Hf Hl]%andb_true_iff Hinc.
  by apply includes_trimEnd; [apply includes_trimStart|].
Qed.

(** What [asciiTrim] returns has no white space at its ends, and a
    string without white space at its ends is returned as it is. *)
Lemma trimStart_firstChar s :
  from_option (λ c, negb (isWhiteSpace c)) true (firstChar (trimStart s)) = true.
Proof.
  induction s as [|c s IH]; [done|]. simpl.
  destruct (isWhiteSpace c) eqn:Hc; [done|]. simpl. by rewrite Hc.
Qed.

Lemma trimEnd_firstChar s :
  from_option (λ c, negb (isWhiteSpace c)) true (firstChar s) = true →
  from_option (λ c, negb (isWhiteSpace c)) true (firstChar (trimEnd s)) = true.
Proof.
  destruct s as [|c s]; [done|]. cbn [firstChar trimEnd from_option]. intros Hc.
  destruct (trimEnd s); [|exact Hc].
  destruct (isWhiteSpace c) eqn:Ec; [done|].
  cbn [firstChar from_option]. by rewrite Ec.
Qed.

Lemma trimEnd_lastChar s :
  from_option (λ c, negb (isWhiteSpace c)) true (lastChar (trimEnd s)) = true.
Proof.
  induction s as [|c s IH]; [done|]. simpl.
  destruct (trimEnd s) as [|d kept] eqn:Et.
  - destruct (isWhiteSpace c) eqn:Hc; [done|]. simpl. by rewrite Hc.
  - change (lastChar (String c (String d kept)))
      with (match lastChar (String d kept) with None => Some c | found => found end).
    destruct (lastChar (String d kept)) eqn:El; [done|].
    simpl in El. by destruct (lastChar kept).
Qed.

Lemma edgeFree_asciiTrim s : edgeFree (asciiTrim s) = true.
Proof.
  unfold edgeFree, asciiTrim. apply andb_true_iff. split.
  - apply trimEnd_firstChar, trimStart_firstChar.
  - apply trimEnd_lastChar.
Qed.

Lemma trimEnd_fixed s :
  from_option (λ c, negb (isWhiteSpace c)) true (lastChar s) = true → trimEnd s = s.
Proof.
  induction s as [|c s IH]; [done|]. simpl.
  destruct (lastChar s) as [d|] eqn:El.
  - intros Hd. rewrite (IH Hd). by destruct s.
  - assert (s = "") as -> by (destruct s as [|x s]; [done|];
      simpl in El; by destruct (lastChar s)).
    simpl. intros Hc. apply negb_true_iff in Hc. by rewrite Hc.
Qed.

Lemma asciiTrim_fixed s : asciiTrim s = s ↔ edgeFree s = true.
Proof.
  split.
  - intros <-. apply edgeFree_asciiTrim.
  - unfold edgeFree, asciiTrim. intros [Hf Hl]%andb_true_iff.
    assert (trimStart s = s) as ->.
    { destruct s as [|c s]; [done|]. simpl in *.
      apply negb_true_iff in Hf. by rewrite Hf. }
    by apply trimEnd_fixed.
Qed.

(** The two facts about [trim] and [toLowerCase] that the command check
    calls for, on ASCII strings. *)
Lemma asciiTrim_keeps s p :
  asciiTrim p = p → includes s p = true → includes (asciiTrim s) p = true.
Proof. intros Hp%asciiTrim_fixed. by apply includes_trim. Qed.

Lemma asciiToLowerCase_edges p :
  asciiTrim p = p → asciiTrim (asciiToLowerCase p) = asciiToLowerCase p.
Proof.
  intros Hp%asciiTrim_fixed. apply asciiTrim_fixed. by rewrite edgeFree_toLowerCase.
Qed.

End JsStringFacts.

Module PermissionGuardSpec.
Import JsString PermissionGuard JsStringFacts Examples.

Section Evaluate.
Context `{!StringPrototype}.
Variable hostnameOf : string → option string.

Lemma list_find_first {A} (P : A → Prop) `{∀ x, Decision (P x)} (l : list A) x :
  x ∈ l → P x → ∃ i y, list_find P l = Some (i, y) ∧ y ∈ l ∧ P y.
Proof.
  intros Hin HP.
  destruct (list_find P l) as [[i y]|] eqn:E.
  - apply list_find_Some in E as (Hl & Hy & _).
    exists i, y. split; [done|]. split; [|done].
    by eapply list_elem_of_lookup_2.
  - apply list_find_None in E. rewrite Forall_forall in E.
    exfalso. by eapply E.
Qed.

(** The command check denies a shell request whose lower-cased and
    trimmed target contains a lower-cased denylisted string, and names
    the first such string of the list. *)
Lemma evaluate_denied_command (g : Guard) (now : Z) (request : PermissionRequest)
    (t pattern : string) :
  action request = "shell" →
  target request = Some t →
  t ≠ "" →
  pattern ∈ deniedCommands (whitelist g) →
  includes (trim (toLowerCase t)) (toLowerCase pattern) = true →
  ∃ i named,
    deniedCommands (whitelist g) !! i = Some named
    ∧ includes (trim (toLowerCase t)) (toLowerCase named) = true
    ∧ (∀ j earlier, deniedCommands (whitelist g) !! j = Some earlier → (j < i)%nat →
         includes (trim (toLowerCase t)) (toLowerCase earlier) ≠ true)
    ∧ evaluate hostnameOf g now request
      = ({| granted := false;
            reason := Some ("Command contains denied pattern: " +:+ named);
            requiresBackup := false |}, g).
Proof.
  intros Haction Htarget Hne Hin Hinc.
  destruct (list_find_first
              (λ denied, includes (trim (toLowerCase t)) (toLowerCase denied) = true)
              (deniedCommands (whitelist g)) pattern Hin Hinc)
    as (i & named & Hfind & _ & _).
  pose proof Hfind as (Hi & Hmatch & Hfirst)%list_find_Some.
  exists i, named. split; [done|]. split; [done|]. split; [done|].
  unfold evaluate, whitelistStage, commandStage.
  rewrite Htarget. assert (truthy (Some t) = Some t) as -> by by destruct t.
  rewrite Haction. unfold isCommandAllowed. rewrite Hfind. simpl. done.
Qed.

(** C8 (amended): a shell request with a non-empty target is denied,
    whatever its risk tier, when the lower-cased and trimmed target
    contains the lower-cased form of a denylisted string, and the reason
    names the first such string of the list.  Since [trim] keeps every
    occurrence of a string that has no white space at its ends, and
    [toLowerCase] puts no white space there, this is so whenever the
    target contains, case-insensitively, a denylisted string that
    neither begins nor ends with white space. *)
Theorem C8_denied_command (g : Guard) (now : Z) (request : PermissionRequest)
    (t : string) :
  action request = "shell" →
  target request = Some t →
  t ≠ "" →
  let found := λ pattern,
    includes (trim (toLowerCase t)) (toLowerCase pattern) = true in
  let first := λ (i : nat) named,
    deniedCommands (whitelist g) !! i = Some named
    ∧ found named
    ∧ ∀ j earlier, deniedCommands (whitelist g) !! j = Some earlier → (j < i)%nat →
        ¬ found earlier in
  let denial := λ named,
    ({| granted := false;
        reason := Some ("Command contains denied pattern: " +:+ named);
        requiresBackup := false |}, g) in
  (∀ pattern, pattern ∈ deniedCommands (whitelist g) → found pattern →
     ∃ i named, first i named ∧ evaluate hostnameOf g now request = denial named)
  ∧ ((∀ s p, trim p = p → includes s p = true → includes (trim s) p = true) →
     (∀ p, trim p = p → trim (toLowerCase p) = toLowerCase p) →
     ∀ pattern, pattern ∈ deniedCommands (whitelist g) →
       trim pattern = pattern →
       includes (toLowerCase t) (toLowerCase pattern) = true →
       ∃ i named, first i named ∧ evaluate hostnameOf g now request = denial named).
Proof.
  intros Haction Htarget Hne found first denial.
  assert (Hfound : ∀ pattern, pattern ∈ deniedCommands (whitelist g) → found pattern →
            ∃ i named, first i named
                       ∧ evaluate hostnameOf g now request = denial named).
  { intros pattern Hin Hinc.
    destruct (evaluate_denied_command g now request t pattern Haction Htarget Hne
                Hin Hinc) as (i & named & Hi & Hmatch & Hfirst & Heval).
    by exists i, named. }
  split; [exact Hfound|].
  intros Hkeeps Hedges pattern Hin Hedge Hinc.
  apply (Hfound pattern Hin). unfold found.
  apply Hkeeps; [by apply Hedges|done].
Qed.

Lemma truthy_http t : startsWith t "http" = true → truthy (Some t) = Some t.
Proof. by destruct t. Qed.

(** C7: a target that starts with [http] and does not parse passes the
    domain check; the outcome does not depend on the two domain lists;
    and once the command check is passed, the outcome is that of the
    risk-tier policy stage. *)
Theorem C7_unparsable_url_fails_open (g : Guard) (now : Z)
    (request : PermissionRequest) (t : string) :
  target request = Some t →
  startsWith t "http" = true →
  hostnameOf t = None →
  isDomainAllowed hostnameOf (whitelist g) t
    = {| allowed := true; checkReason := None |}
  ∧ (∀ deniedDomains allowedDomains,
       let g' := withWhitelist g (withDomains (whitelist g) deniedDomains allowedDomains) in
       (evaluate hostnameOf g' now request).1 = (evaluate hostnameOf g now request).1
       ∧ sessionState (evaluate hostnameOf g' now request).2
         = sessionState (evaluate hostnameOf g now request).2)
  ∧ (commandStage g request = None →
     evaluate hostnameOf g now request = policyStage g now request).
Proof.
  intros Htarget Hhttp Hparse.
  assert (Hdom : ∀ w, isDomainAllowed hostnameOf w t
                      = {| allowed := true; checkReason := None |}).
  { intros w. unfold isDomainAllowed. by rewrite Hparse. }
  assert (Heval : ∀ g0, target request = Some t →
            evaluate hostnameOf g0 now request
            = match commandStage g0 request with
              | Some r => (r, g0)
              | None => policyStage g0 now request
              end).
  { intros g0 _. unfold evaluate, whitelistStage, pathStage, domainStage.
    rewrite Htarget, (truthy_http t Hhttp), Hhttp, Hdom. simpl.
    by destruct (commandStage g0 request). }
  split; [apply Hdom|]. split.
  - intros dd ad g'. rewrite !Heval by done.
    assert (commandStage g' request = commandStage g request) as -> by done.
    destruct (commandStage g request); [done|].
    unfold policyStage. subst g'. simpl.
    repeat case_bool_decide; simpl; try done;
      destruct (checkSessionLimit _ _ _) as [ok session] eqn:E;
      unfold checkSessionLimit in E; simpl in E;
      destruct (checkSessionLimit g now (toolName request)) as [ok' session'] eqn:E';
      unfold checkSessionLimit in E'; rewrite E in E'; injection E' as <- <-;
      destruct ok; simpl; try done; by destruct (callback g).
  - intros Hcmd. by rewrite Heval, Hcmd.
Qed.

(** C4 (amended): for a request that passes the whitelist checks,
    [requiresBackup] is true exactly when the tier is MODIFY and the
    outcome comes from the auto-approve list or from the callback,
    whatever the callback answers; so it is false for every other
    tier, and true for a granted MODIFY request whose tier is in one of
    the two lists of the policy. *)
Theorem C4_requires_backup (g : Guard) (now : Z) (request : PermissionRequest) :
  whitelistStage hostnameOf g request = None →
  let r := (evaluate hostnameOf g now request).1 in
  (requiresBackup r = true ↔ riskLevel request = MODIFY ∧ backupBranch g now request)
  ∧ (riskLevel request ≠ MODIFY → requiresBackup r = false)
  ∧ (riskLevel request = MODIFY → granted r = true →
     riskLevel request ∈ autoApprove (approvalPolicy g)
     ∨ riskLevel request ∈ requireConfirmation (approvalPolicy g) →
     requiresBackup r = true).
Proof.
  intros Hpass r. subst r. unfold evaluate. rewrite Hpass.
  unfold policyStage, backupBranch.
  destruct (checkSessionLimit g now (toolName request)) as [ok session] eqn:Hlimit.
  simpl.
  destruct (decide (riskLevel request = MODIFY)) as [Hm|Hm];
    repeat case_bool_decide; destruct ok; simpl;
    destruct (callback g) as [cb|] eqn:Hcb; simpl;
    rewrite ?bool_decide_eq_true, ?bool_decide_eq_false;
    unfold is_Some; naive_solver.
Qed.

End Evaluate.

(** The inputs that follow are ASCII strings. *)
#[local] Existing Instance asciiStrings.

(** C8 as stated fails for a denylisted string that ends with a blank:
    the blank at the end of the target is trimmed before the comparison. *)
Lemma C8_counterexample :
  let request :=
    {| toolName := "shell_execute"; action := "shell"; target := Some "sudo rm ";
       riskLevel := READ; description := "remove" |} in
  "rm " ∈ deniedCommands (whitelist customGuard)
  ∧ includes (toLowerCase "sudo rm ") (toLowerCase "rm ") = true
  ∧ (evaluate (λ _, None) customGuard 0 request).1
    = {| granted := true; reason := None; requiresBackup := false |}.
Proof. split; [by apply list_elem_of_singleton | split; reflexivity]. Qed.

Lemma C8_denied_command_witness :
  let request :=
    {| toolName := "shell_execute"; action := "shell";
       target := Some "sudo RM -RF /"; riskLevel := SYSTEM;
       description := "wipe" |} in
  includes (toLowerCase "sudo RM -RF /") (toLowerCase "rm -rf") = true
  ∧ ∃ i named,
      deniedCommands (whitelist defaultGuard) !! i = Some named
      ∧ evaluate (λ _, None) defaultGuard 0 request
        = ({| granted := false;
              reason := Some ("Command contains denied pattern: " +:+ named);
              requiresBackup := false |}, defaultGuard).
Proof.
  intros request. split; [reflexivity|].
  destruct (proj2 (C8_denied_command (λ _, None) defaultGuard 0 request
                     "sudo RM -RF /" eq_refl eq_refl ltac:(discriminate))
              asciiTrim_keeps asciiToLowerCase_edges "rm -rf")
    as (i & named & (Hi & _) & Heval).
  - vm_compute. left.
  - reflexivity.
  - reflexivity.
  - by exists i, named.
Defined.

Lemma C7_unparsable_url_fails_open_witness :
  evaluate (λ _, None) defaultGuard 0
    {| toolName := "browser_open"; action := "open"; target := Some "http://[bad";
       riskLevel := READ; description := "open" |}
  = policyStage defaultGuard 0
      {| toolName := "browser_open"; action := "open"; target := Some "http://[bad";
         riskLevel := READ; description := "open" |}.
Proof.
  refine (proj2 (proj2 (C7_unparsable_url_fails_open (λ _, None) defaultGuard 0
            {| toolName := "browser_open"; action := "open";
               target := Some "http://[bad"; riskLevel := READ;
               description := "open" |} "http://[bad" _ _ _)) _);
    reflexivity.
Defined.


(** C4 as stated fails for a MODIFY request that the user denies: the
    callback branch sets [requiresBackup] from the tier alone.  It also
    fails for a MODIFY request granted by the default of a policy that
    lists MODIFY nowhere: that branch never asks for a backup. *)
Lemma C4_counterexample :
  let request :=
    {| toolName := "file_writer"; action := "write"; target := None;
       riskLevel := MODIFY; description := "Write to file" |} in
  let asking := setCallback (λ _, false) defaultGuard in
  let lenient := (evaluate (λ _, None) lenientGuard 0 request).1 in
  (whitelistStage (λ _, None) asking request = None
   ∧ (evaluate (λ _, None) asking 0 request).1
     = {| granted := false; reason := Some "User denied permission";
          requiresBackup := true |}
   ∧ ¬ (requiresBackup (evaluate (λ _, None) asking 0 request).1 = true
        ↔ riskLevel request = MODIFY
          ∧ granted (evaluate (λ _, None) asking 0 request).1 = true))
  ∧ (whitelistStage (λ _, None) lenientGuard request = None
     ∧ lenient = {| granted := true; reason := None; requiresBackup := false |}
     ∧ ¬ (requiresBackup lenient = true
          ↔ riskLevel request = MODIFY ∧ granted lenient = true)).
Proof.
  split.
  - split; [reflexivity|]. split; [reflexivity|].
    intros [H _]. specialize (H eq_refl) as [_ H]. discriminate H.
  - split; [reflexivity|]. split; [reflexivity|].
    intros [_ H]. specialize (H (conj eq_refl eq_refl)). discriminate H.
Qed.

Lemma C4_requires_backup_witness :
  let g := setCallback (λ _, true) defaultGuard in
  let request :=
    {| toolName := "file_writer"; action := "write";
       target := Some "/path/to/file.txt";
       riskLevel := MODIFY; description := "Write to file" |} in
  requiresBackup (evaluate (λ _, None) g 0 request).1 = true.
Proof.
  intros g request.
  refine (proj2 (proj2 (C4_requires_backup (λ _, None) g 0 request _)) _ _ _).
  - reflexivity.
  - reflexivity.
  - reflexivity.
  - right. vm_compute. left.
Defined.

End PermissionGuardSpec.

(** ** The basic execution engine *)

Module LogFacts.
Import Js EngineTypes EngineUse.

Lemma executorCalls_app {R} (l1 l2 : list (Action R)) :
  executorCalls (l1 ++ l2) = executorCalls l1 ++ executorCalls l2.
Proof. apply omap_app. Qed.

Lemma events_app {R} (l1 l2 : list (Action R)) :
  events (l1 ++ l2) = events l1 ++ events l2.
Proof. apply omap_app. Qed.

Lemma waits_app {R} (l1 l2 : list (Action R)) :
  waits (l1 ++ l2) = waits l1 ++ waits l2.
Proof. apply omap_app. Qed.

Lemma prompts_app {R} (l1 l2 : list (Action R)) :
  prompts (l1 ++ l2) = prompts l1 ++ prompts l2.
Proof. unfold prompts. by rewrite events_app, List.filter_app. Qed.



End LogFacts.

Module EngineSpec.
Import Js EngineTypes Engine EngineUse LogFacts.

Section Run.
Variable planner : string → Settled (list PlanStep).
Variable executor : list PlanStep → PlanStep → Settled JsValue.
Variable formatter : option (string → list StepResult → Settled string).
Variable ctl : Controller.

Abbreviation runStep := (runStep executor ctl).
Abbreviation runSteps := (runSteps executor ctl).
Abbreviation run := (run planner executor formatter ctl).

(** One iteration: the prompt, the executor call and the result. *)
Lemma runStep_prompts total i step calls :
  prompts (runStep total i step calls).1.1
  = if highRisk step then [confirmPermissionOf step] else [].
Proof.
  unfold runStep. destruct (highRisk step); [|done].
  by destruct (approved (permissionAnswer ctl i)).
Qed.

Lemma runStep_calls total i step calls :
  executorCalls (runStep total i step calls).1.1
  = if denied ctl i step then [] else [step].
Proof.
  unfold runStep, denied. destruct (highRisk step); [|done].
  by destruct (approved (permissionAnswer ctl i)).
Qed.

Lemma runStep_result total i step calls :
  (runStep total i step calls).1.2
  = if denied ctl i step then userDenied step
    else resultOf step (executor calls step).
Proof.
  unfold runStep, denied. destruct (highRisk step); [|done].
  by destruct (approved (permissionAnswer ctl i)).
Qed.

Lemma runStep_quiet total i step calls :
  neverCancels ctl → (runStep total i step calls).2 = false.
Proof.
  intros (_ & _ & Hq). destruct (Hq i) as [Hc Hd].
  unfold runStep. destruct (highRisk step); [|done].
  destruct (approved (permissionAnswer ctl i)); simpl; [done|].
  by rewrite Hc, Hd.
Qed.

Lemma runSteps_cons total i step rest calls results :
  runSteps total i (step :: rest) false calls results
  = let this := runStep total i step calls in
    let tail := runSteps total (S i) rest this.2
                  (calls ++ executorCalls this.1.1) (results ++ [this.1.2]) in
    (this.1.1 ++ tail.1, tail.2).
Proof.
  simpl. destruct (runStep total i step calls) as [[acts r] c]. simpl.
  by destruct (runSteps total (S i) rest c _ _).
Qed.


(** When the controller never cancels, the loop reaches every step. *)
Lemma runSteps_quiet total steps : neverCancels ctl → ∀ i calls results,
  let out := runSteps total i steps false calls results in
  prompts out.1 = map confirmPermissionOf (List.filter highRisk steps)
  ∧ executorCalls out.1 = executed ctl i steps
  ∧ ∃ rs, out.2 = Completed (results ++ rs)
          ∧ length rs = length steps
          ∧ ∀ k step, steps !! k = Some step →
              rs !! k = Some (if denied ctl (i + k) step then userDenied step
                              else resultOf step
                                     (executor (calls ++ executed ctl i (take k steps))
                                        step)).
Proof.
  intros Hq. induction steps as [|step rest IH]; intros i calls results out.
  - subst out. simpl. repeat split; try done.
    exists []. by rewrite app_nil_r.
  - subst out. rewrite runSteps_cons. cbv zeta. cbn [fst snd].
    rewrite runStep_quiet by done.
    edestruct IH as (Hp & Hc & rs & Hexit & Hlen & Hrs).
    rewrite prompts_app, executorCalls_app, Hp, Hc, Hexit.
    rewrite runStep_prompts, runStep_calls, runStep_result.
    split; [|split].
    + cbn [List.filter]. by destruct (highRisk step).
    + cbn [executed]. by destruct (denied ctl i step).
    + eexists (_ :: rs). split; [by rewrite <- app_assoc|].
      split; [simpl; by rewrite Hlen|].
      intros [|k] s Hk.
      * injection Hk as <-. simpl.
        by rewrite Nat.add_0_r, app_nil_r.
      * simpl in Hk. change ((?x :: rs) !! S k) with (rs !! k).
        rewrite (Hrs k s Hk), Nat.add_succ_r, runStep_calls. f_equal.
        cbn [take executed plus].
        destruct (denied ctl i step); simpl;
          by rewrite <- ?app_assoc, ?app_nil_r.
Qed.

(** The shape of a run whose plan is approved and that is not cancelled. *)
Lemma run_quiet goal now steps :
  planner goal = Resolved steps →
  approved (planAnswer ctl) = true →
  neverCancels ctl →
  ∃ acts rs,
    runSteps (length steps) 0 steps false [] [] = (acts, Completed rs)
    ∧ run goal now
      = ([Emit (EvStatus "正在规划..." planning); CallPlanner goal]
           ++ [Emit (EvConfirmPlan ("task_" +:+ pretty now) goal steps
                       (List.filter highRisk steps));
               AwaitConfirm plan]
           ++ [Emit (EvStatus "正在执行..." executing)] ++ acts
           ++ formatPhase formatter goal rs,
         {| runSuccess := forallb success rs; runError := None; steps := rs |}).
Proof.
  intros Hplan Happroved Hq.
  destruct (runSteps_quiet (length steps) steps Hq 0%nat [] [])
    as (_ & _ & rs & Hexit & _).
  destruct (runSteps (length steps) 0 steps false [] []) as [acts exit] eqn:E.
  simpl in Hexit. subst exit. exists acts, rs. split; [done|].
  unfold Engine.run. rewrite Hplan.
  destruct Hq as (-> & -> & _). rewrite Happroved. simpl. rewrite E.
  by rewrite <- ?app_assoc.
Qed.


Lemma executorCalls_formatPhase goal rs :
  executorCalls (formatPhase formatter goal rs) = [].
Proof.
  unfold formatPhase. destruct formatter as [f|]; [|done].
  by destruct (existsb success rs).
Qed.

(** A run that ends without an error has gone through the step loop
    and the formatting phase. *)
Lemma run_completed goal now :
  runError (run goal now).2 = None →
  ∃ before,
    (run goal now).1 = before ++ formatPhase formatter goal (steps (run goal now).2)
    ∧ runSuccess (run goal now).2 = forallb success (steps (run goal now).2)
    ∧ List.filter isResult (events before) = [].
Proof.
  unfold Engine.run. destruct (planner goal) as [plan_|m]; [|done].
  destruct (cancelWhilePlanning ctl); [done|].
  destruct (approved (planAnswer ctl)); [|done]. simpl.
  destruct (cancelAfterPlanAnswer ctl); [done|].
  destruct (runSteps (length plan_) 0 plan_ false [] []) as [acts exit] eqn:E.
  destruct exit as [rs|rs]; [|done]. simpl. intros _.
  exists ([Emit (EvStatus "正在规划..." planning); CallPlanner goal;
           Emit (EvConfirmPlan ("task_" +:+ pretty now) goal plan_
                   (List.filter highRisk plan_));
           AwaitConfirm plan;
           Emit (EvStatus "正在执行..." executing)] ++ acts).
  split; [done|]. split; [done|].
  rewrite !events_app, !List.filter_app. simpl.
  assert (Hno : ∀ total steps i c calls results,
            List.filter isResult (events (runSteps total i steps c calls results).1) = []).
  { clear. intros total steps. induction steps as [|step rest IH];
      intros i c calls results; [done|].
    destruct c; [done|]. rewrite runSteps_cons. cbv zeta. cbn [fst snd].
    rewrite events_app, List.filter_app, IH, app_nil_r.
    unfold Engine.runStep. destruct (highRisk step); [|done].
    by destruct (approved (permissionAnswer ctl i)). }
  specialize (Hno (length plan_) plan_ 0%nat false [] []).
  by rewrite E in Hno.
Qed.









(** What a run that is approved and not cancelled calls and records. *)
Lemma run_results goal now planned :
  planner goal = Resolved planned →
  approved (planAnswer ctl) = true →
  neverCancels ctl →
  length (steps (run goal now).2) = length planned
  ∧ executorCalls (run goal now).1 = executed ctl 0 planned
  ∧ ∀ k step, planned !! k = Some step →
      steps (run goal now).2 !! k
      = Some (if denied ctl k step then userDenied step
              else resultOf step (executor (executed ctl 0 (take k planned)) step)).
Proof.
  intros Hplan Happroved Hq.
  destruct (run_quiet goal now planned Hplan Happroved Hq) as (acts & rs & Hloop & ->).
  destruct (runSteps_quiet (length planned) planned Hq 0%nat [] [])
    as (_ & Hc & rs' & Hexit & Hlen & Hrs).
  rewrite Hloop in Hc, Hexit. cbn [fst snd] in *.
  injection Hexit as ->.
  rewrite !executorCalls_app, Hc, executorCalls_formatPhase. simpl.
  by rewrite app_nil_r.
Qed.

(** The formatting phase of a run that ends without an error. *)
Lemma run_formatter goal now format :
  formatter = Some format →
  runError (run goal now).2 = None →
  existsb success (steps (run goal now).2) = true →
  CallFormatter goal (steps (run goal now).2) ∈ (run goal now).1
  ∧ runSuccess (run goal now).2 = forallb success (steps (run goal now).2)
  ∧ ∀ message,
      format goal (steps (run goal now).2) = Rejected message →
      last (events (run goal now).1)
      = Some (EvResult true (Some (RawSteps (steps (run goal now).2))) None).
Proof.
  intros Hf Hok Hsome.
  destruct (run_completed goal now Hok) as (before & Hlog & Hsuccess & Hnone).
  rewrite Hlog, Hsuccess. unfold formatPhase.
  destruct formatter as [f|]; [|done]. injection Hf as ->. rewrite Hsome.
  split; [|split; [done|]].
  - apply elem_of_app. right. right. left.
  - intros message Hthrow. rewrite Hthrow.
    by rewrite events_app, last_app.
Qed.

(** C5: in a run that is approved and not cancelled, a step whose
    executor call throws is recorded as failed with the thrown
    message, every step that is not denied is executed, once and in
    plan order, and there is one result per step; a three-step plan
    whose second call throws gives success, failure, success and three
    calls. *)
Theorem C5_executor_exception goal now planned :
  planner goal = Resolved planned →
  approved (planAnswer ctl) = true →
  neverCancels ctl →
  length (steps (run goal now).2) = length planned
  ∧ executorCalls (run goal now).1 = executed ctl 0 planned
  ∧ (∀ k step message,
       planned !! k = Some step →
       denied ctl k step = false →
       executor (executed ctl 0 (take k planned)) step = Rejected message →
       steps (run goal now).2 !! k
       = Some {| stepId := id step; success := false; result := None;
                 error := Some message |})
  ∧ (∀ s0 s1 s2 v0 v2 message,
       planned = [s0; s1; s2] →
       denied ctl 0 s0 = false → denied ctl 1 s1 = false → denied ctl 2 s2 = false →
       executor [] s0 = Resolved v0 →
       executor [s0] s1 = Rejected message →
       executor [s0; s1] s2 = Resolved v2 →
       steps (run goal now).2
       = [ {| stepId := id s0; success := true; result := Some v0; error := None |};
           {| stepId := id s1; success := false; result := None;
              error := Some message |};
           {| stepId := id s2; success := true; result := Some v2; error := None |} ]
       ∧ executorCalls (run goal now).1 = [s0; s1; s2]).
Proof.
  intros Hplan Happroved Hq.
  destruct (run_results goal now planned Hplan Happroved Hq) as (Hlen & Hcalls & Hrs).
  split; [done|]. split; [done|]. split.
  - intros k step message Hk Hd Hthrow. by rewrite (Hrs k step Hk), Hd, Hthrow.
  - intros s0 s1 s2 v0 v2 message -> Hd0 Hd1 Hd2 H0 H1 H2.
    split.
    + pose proof (Hrs 0%nat s0 eq_refl) as R0.
      pose proof (Hrs 1%nat s1 eq_refl) as R1.
      pose proof (Hrs 2%nat s2 eq_refl) as R2.
      cbn [take executed] in R0, R1, R2.
      rewrite Hd0 in R0, R1, R2. rewrite Hd1 in R1, R2. rewrite Hd2 in R2.
      rewrite H0 in R0. rewrite H1 in R1. rewrite H2 in R2.
      simpl in Hlen.
      destruct (steps (run goal now).2) as [|r0 [|r1 [|r2 [|r3 rest]]]];
        try discriminate.
      simpl in R0, R1, R2. by injection R0 as ->; injection R1 as ->; injection R2 as ->.
    + rewrite Hcalls. simpl. by rewrite Hd0, Hd1, Hd2.
Qed.
End Run.

(** C3 fails on the basic engine: with an empty plan it still emits
    [confirm_plan], waits for the answer, and succeeds only if the plan
    is approved. *)
Theorem C3_basic_engine_empty_plan executor formatter goal now
    (answer : Answer) (cancelAfter : bool) (permissions : nat → Answer)
    (cancelDuring : nat → bool) :
  let ctl := {| cancelWhilePlanning := false; planAnswer := answer;
                cancelAfterPlanAnswer := cancelAfter;
                permissionAnswer := permissions;
                cancelDuringStep := cancelDuring |} in
  let out := Engine.run (λ _, Resolved []) executor formatter ctl goal now in
  List.filter isConfirmPlan (events out.1)
    = [EvConfirmPlan ("task_" +:+ pretty now) goal [] []]
  ∧ waits out.1 = [plan]
  ∧ executorCalls out.1 = []
  ∧ (runSuccess out.2 = true ↔ answer = Approve ∧ cancelAfter = false).
Proof.
  unfold Engine.run, formatPhase. simpl.
  destruct answer, cancelAfter, formatter; simpl; repeat split; try done;
    intros [? ?]; done.
Qed.
End EngineSpec.

(** ** The enhanced execution engine *)

Module EnhancedEngineSpec.
Import Js EngineTypes EnhancedEngine EngineUse LogFacts.

Lemma slices_concat {A} (k : nat) (l : list A) : concat (slices k l) = l.
Proof.
  funelim (slices k l); simp slices; [done|].
  cbn [concat]. rewrite H. apply take_drop.
Qed.

Lemma slices_length {A} (k : nat) (l : list A) :
  (0 < k)%nat → Forall (λ batch, (length batch ≤ k)%nat) (slices k l).
Proof.
  intros Hk. funelim (slices k l); simp slices; [constructor|].
  constructor; [|by apply H].
  rewrite length_take. lia.
Qed.


(** ** The two groups of steps *)

Lemma indexed_lookup (steps : list PlanStep) j s :
  (j, s) ∈ imap pair steps ↔ steps !! j = Some s.
Proof.
  rewrite elem_of_lookup_imap. split.
  - intros (i & y & Heq & Hl). by injection Heq as -> ->.
  - intros Hl. by exists j, s.
Qed.

Lemma independentSteps_elem steps j s :
  (j, s) ∈ independentSteps steps ↔ steps !! j = Some s ∧ isIndependentStep s = true.
Proof.
  unfold independentSteps. rewrite list_elem_of_In, filter_In, <- list_elem_of_In.
  by rewrite indexed_lookup.
Qed.

Lemma dependentSteps_elem steps j s :
  (j, s) ∈ dependentSteps steps ↔ steps !! j = Some s ∧ isIndependentStep s = false.
Proof.
  unfold dependentSteps. rewrite list_elem_of_In, filter_In, <- list_elem_of_In.
  by rewrite indexed_lookup, negb_true_iff.
Qed.



(** ** Assigning results to their slots *)

Lemma assign_length results pairs : length (assign results pairs) = length results.
Proof.
  revert results. induction pairs as [|p pairs IH]; intros results; [done|].
  unfold assign in *. simpl. by rewrite IH, length_insert.
Qed.

Lemma assign_app results pairs1 pairs2 :
  assign results (pairs1 ++ pairs2) = assign (assign results pairs1) pairs2.
Proof. apply foldl_app. Qed.




Section Execute.
Variable planner : string → Timed (list PlanStep).
Variable executor : list PlanStep → PlanStep → SandboxConfig → Timed JsValue.
Variable formatter : option (string → list Slot → Settled string).
Variable sandboxConfig : SandboxConfig.
Variable parallelConfig : ParallelConfig.
Variable ctl : Controller.

Abbreviation invoke := (invoke executor sandboxConfig).
Abbreviation executeSingleStep := (executeSingleStep executor sandboxConfig ctl).
Abbreviation executeSerial := (executeSerial executor sandboxConfig ctl).
Abbreviation beginAll := (beginAll executor sandboxConfig).
Abbreviation settle := (settle executor sandboxConfig ctl).
Abbreviation executeBatch := (executeBatch executor sandboxConfig ctl).
Abbreviation runBatches := (runBatches executor sandboxConfig parallelConfig ctl).
Abbreviation executeParallel :=
  (executeParallel executor sandboxConfig parallelConfig ctl).
Abbreviation executeSteps := (executeSteps executor sandboxConfig parallelConfig ctl).
Abbreviation execute :=
  (execute planner executor formatter sandboxConfig parallelConfig ctl).


Lemma executeSingleStep_stepId cancelled calls i total step :
  stepId (executeSingleStep cancelled calls i total step).1.2 = id step.
Proof.
  unfold EnhancedEngine.executeSingleStep, beginStep, resumeStep.
  destruct cancelled; [done|]. destruct (highRisk step); simpl.
  - destruct (approved (permissionAnswer ctl i)); simpl; [|done].
    by destruct (invoke _ step).
  - by destruct (invoke _ step).
Qed.

Lemma stepId_resultOf step outcome : stepId (resultOf step outcome) = id step.
Proof. by destruct outcome. Qed.


Lemma executeSerial_cons total index step rest cancelled calls results :
  executeSerial total ((index, step) :: rest) cancelled calls results
  = let this := executeSingleStep cancelled calls index total step in
    let tail := executeSerial total rest this.2
                  (calls ++ executorCalls this.1.1)
                  (<[index := Some this.1.2]> results) in
    (this.1.1 ++ tail.1.1.1, tail.1.1.2, tail.1.2, tail.2).
Proof.
  simpl. destruct (executeSingleStep cancelled calls index total step) as [[acts r] c].
  simpl. by destruct (executeSerial total rest c _ _) as [[[? ?] ?] ?].
Qed.

(** The serial loop writes one result per item, whatever happens. *)
Lemma executeSerial_results total items : ∀ cancelled calls results,
  ∃ pairs,
    resultsOf pairs items
    ∧ (executeSerial total items cancelled calls results).1.1.2
      = assign results pairs.
Proof.
  induction items as [|[index step] rest IH]; intros cancelled calls results.
  - exists []. split; [constructor|done].
  - rewrite executeSerial_cons. cbv zeta. cbn [fst snd].
    edestruct IH as (pairs & Hof & ->).
    exists ((index, (executeSingleStep cancelled calls index total step).1.2) :: pairs).
    split; [|reflexivity].
    constructor; [|done]. split; [done|]. apply executeSingleStep_stepId.
Qed.


(** ** One batch *)

Lemma beginAll_cons calls total index step rest :
  beginAll calls total ((index, step) :: rest)
  = let this := beginStep executor sandboxConfig false calls index total step in
    let tail := beginAll (calls ++ executorCalls this.1) total rest in
    (this.1 ++ tail.1, (index, step, this.2) :: tail.2).
Proof.
  simpl. destruct (highRisk step); simpl; by destruct (beginAll _ total rest).
Qed.

Lemma beginAll_spec total batch : ∀ calls,
  let out := beginAll calls total batch in
  map fst out.2 = batch
  ∧ Forall (λ m, awaitsPermission m = highRisk m.1.2
                 ∧ ∀ r, m.2 ≠ Returned r) out.2
  ∧ executorCalls out.1 = List.filter (λ s, negb (highRisk s)) (map snd batch)
  ∧ prompts out.1 = map confirmPermissionOf (List.filter highRisk (map snd batch)).
Proof.
  induction batch as [|[index step] rest IH]; intros calls out; subst out.
  - simpl. repeat split; constructor.
  - rewrite beginAll_cons. cbv zeta. cbn [fst snd].
    edestruct IH as (Hm & Hs & Hc & Hp).
    rewrite executorCalls_app, prompts_app, Hc, Hp. cbn [map].
    rewrite Hm. unfold beginStep in *. simpl in *.
    destruct (highRisk step) eqn:Hr; simpl in *.
    all: split; [reflexivity|]; split; [|split; reflexivity].
    all: constructor; [|exact Hs]; split; [|done].
    all: unfold awaitsPermission; simpl; by rewrite Hr.
Qed.

Lemma pendingConfirm_only (started : list (nat * PlanStep * Suspended)) m :
  (length (List.filter awaitsPermission started) ≤ 1)%nat →
  m ∈ started → awaitsPermission m = true →
  pendingConfirm started = Some m.1.1.
Proof.
  intros Hlen Hin Hm. unfold pendingConfirm.
  assert (Hf : m ∈ List.filter awaitsPermission started).
  { apply list_elem_of_In, filter_In. split; [by apply list_elem_of_In|done]. }
  destruct (List.filter awaitsPermission started) as [|x [|y l]];
    [by apply elem_of_nil in Hf | | simpl in Hlen; lia].
  apply list_elem_of_singleton in Hf as ->. done.
Qed.

Lemma awaiting_count (started : list (nat * PlanStep * Suspended)) :
  Forall (λ m, awaitsPermission m = highRisk m.1.2 ∧ ∀ r, m.2 ≠ Returned r) started →
  length (List.filter awaitsPermission started)
  = length (List.filter (λ item : nat * PlanStep, highRisk item.2) (map fst started)).
Proof.
  induction 1 as [|m l [Hm _] _ IH]; [done|]. simpl. rewrite Hm.
  destruct (highRisk m.1.2); simpl; by rewrite IH.
Qed.




(** ** The loop over the batches *)

Lemma runBatches_cons total batch rest calls results :
  runBatches total (batch :: rest) false calls results
  = let this := executeBatch calls total batch in
    match this.1.1.2 with
    | None => (this.1.1.1, None, this.1.2, this.2)
    | Some batchResults =>
        if failFast parallelConfig
           && existsb (λ r, negb (success r.2)) batchResults
        then (this.1.1.1, Some (results ++ batchResults), this.1.2, this.2)
        else
          let tail := runBatches total rest this.1.2 this.2
                        (results ++ batchResults) in
          (this.1.1.1 ++ tail.1.1.1, tail.1.1.2, tail.1.2, tail.2)
    end.
Proof.
  cbn [EnhancedEngine.runBatches].
  destruct (executeBatch calls total batch) as [[[acts [pairs|]] c] calls']; [|done].
  cbn [fst snd]. destruct (failFast parallelConfig && _); [done|].
  by destruct (runBatches total rest c calls' _) as [[[? ?] ?] ?].
Qed.


(** ** [executeSteps] and [execute] *)







(** ** The marks of a run *)















(** ** The slots of the result array *)









Lemma everySuccess_spec (slots : list Slot) :
  everySuccess slots = true
  ↔ ∀ i r, slots !! i = Some (Some r) → success r = true.
Proof.
  unfold everySuccess. rewrite forallb_forall. split.
  - intros Hall i r Hi.
    apply (Hall (Some r)), list_elem_of_In. by eapply list_elem_of_lookup_2.
  - intros Hall [r|] Hin; [|done].
    apply list_elem_of_In, list_elem_of_lookup_1 in Hin as [i Hi]. by apply (Hall i).
Qed.

Lemma someSuccess_spec (slots : list Slot) :
  someSuccess slots = true
  ↔ ∃ i r, slots !! i = Some (Some r) ∧ success r = true.
Proof.
  unfold someSuccess. rewrite existsb_exists. split.
  - intros ([r|] & Hin & Hr); [|done].
    apply list_elem_of_In, list_elem_of_lookup_1 in Hin as [i Hi]. by exists i, r.
  - intros (i & r & Hi & Hr). exists (Some r). split; [|done].
    apply list_elem_of_In. by eapply list_elem_of_lookup_2.
Qed.




(** ** Runs that settle *)

(** A member of a batch settles unless it waits on a resolver that
    [pendingConfirm] no longer holds. *)
Lemma settle_some calls pending (m : nat * PlanStep * Suspended) :
  (awaitsPermission m = true → pending = Some m.1.1) →
  is_Some (settle calls pending m).2.
Proof.
  intros Hpending. destruct m as [[index step] at_]. unfold EnhancedEngine.settle.
  destruct (awaitsPermission (index, step, at_)) eqn:Haw; cbn [andb].
  - rewrite (Hpending eq_refl). cbn [fst].
    rewrite bool_decide_eq_true_2 by done. cbn [negb].
    destruct (resumeStep _ _ _ _ _ _ _) as [acts r]. by eexists.
  - destruct (resumeStep _ _ _ _ _ _ _) as [acts r]. by eexists.
Qed.

Lemma executeBatch_settles calls total batch :
  (length (List.filter (λ item : nat * PlanStep, highRisk item.2) batch) ≤ 1)%nat →
  is_Some (executeBatch calls total batch).1.1.2.
Proof.
  intros Hone. unfold EnhancedEngine.executeBatch.
  pose proof (beginAll_spec total batch calls) as Hb. simpl in Hb.
  destruct (beginAll calls total batch) as [acts started].
  cbn [fst snd] in *. destruct Hb as (Hm & Hall & _).
  apply mapM_is_Some, Forall_forall. intros m Hin. cbn.
  destruct (settle_some (calls ++ executorCalls acts) (pendingConfirm started) m)
    as [r Hr].
  - intros Haw. apply pendingConfirm_only; try done.
    by rewrite (awaiting_count started Hall), Hm.
  - rewrite Hr. by eexists.
Qed.

Lemma runBatches_settles total batches :
  Forall (λ batch,
    (length (List.filter (λ item : nat * PlanStep, highRisk item.2) batch) ≤ 1)%nat)
    batches →
  ∀ cancelled calls results,
    is_Some (runBatches total batches cancelled calls results).1.1.2.
Proof.
  induction 1 as [|batch rest Hb _ IH]; intros cancelled calls results; [by eexists|].
  cbn [EnhancedEngine.runBatches]. destruct cancelled; [by eexists|].
  destruct (executeBatch_settles calls total batch Hb) as [pairs Hpairs].
  destruct (executeBatch calls total batch) as [[[acts out] c] calls'].
  cbn [fst snd] in Hpairs. subst out.
  destruct (failFast parallelConfig && _); [by eexists|].
  specialize (IH c calls' (results ++ pairs)).
  by destruct (runBatches total rest c calls' _) as [[[? ?] ?] ?].
Qed.

(** With a positive [maxConcurrent] and no batch that holds two steps
    asking for permission, [executeSteps] settles, whatever the
    controller does, with one slot per step. *)
Lemma executeSteps_settles steps cancelled :
  0 < maxConcurrent parallelConfig →
  onePromptPerBatch (maxConcurrent parallelConfig) steps →
  ∃ slots, (executeSteps steps cancelled).2 = Some slots
           ∧ length slots = length steps.
Proof.
  intros Hk Hone. unfold EnhancedEngine.executeSteps. cbv zeta.
  case_decide as Hpar.
  - unfold EnhancedEngine.executeParallel, makeBatches.
    destruct (independentSteps steps) as [|item items] eqn:Hind; [simpl in Hpar; lia|].
    rewrite decide_True by done. rewrite <- Hind in *.
    destruct (runBatches_settles (length steps) _ (Hone Hpar) cancelled [] [])
      as [pairs Hpairs].
    destruct (runBatches _ _ _ _ _) as [[[acts out] c] calls].
    cbn [fst snd] in Hpairs. subst out.
    pose proof (executeSerial_results (length steps) (dependentSteps steps) c calls
                  (assign (replicate (length steps) None) pairs))
      as (pairsD & _ & HresD).
    destruct (executeSerial _ _ _ _ _) as [[[more results] c'] calls'].
    cbn [fst snd] in *. subst results. eexists. split; [done|].
    by rewrite !assign_length, length_replicate.
  - pose proof (executeSerial_results (length steps) (independentSteps steps)
                  cancelled [] (replicate (length steps) None))
      as (pairsI & _ & HresI).
    destruct (executeSerial _ (independentSteps steps) _ _ _)
      as [[[acts results] c] calls].
    cbn [fst snd] in *. subst results.
    pose proof (executeSerial_results (length steps) (dependentSteps steps) c calls
                  (assign (replicate (length steps) None) pairsI))
      as (pairsD & _ & HresD).
    destruct (executeSerial _ (dependentSteps steps) _ _ _)
      as [[[more results] c'] calls'].
    cbn [fst snd] in *. subst results. eexists. split; [done|].
    by rewrite !assign_length, length_replicate.
Qed.

(** Then [execute] settles too; when the plan is approved and the run is
    not cancelled it returns without an error, one slot per step. *)
Lemma execute_settles goal now :
  0 < maxConcurrent parallelConfig →
  (∀ planned, withTimeout (planner goal) "规划超时" = Resolved planned →
     onePromptPerBatch (maxConcurrent parallelConfig) planned) →
  ∃ res,
    (execute goal now).2 = Some res
    ∧ ∀ planned, withTimeout (planner goal) "规划超时" = Resolved planned →
        planAnswer ctl = Approve →
        neverCancels ctl →
        runError res = None ∧ length (steps res) = length planned.
Proof.
  intros Hk Hone. unfold EnhancedEngine.execute, EnhancedEngine.failed.
  destruct (withTimeout (planner goal) "规划超时") as [planned|m] eqn:Hplan;
    cbn [fst snd].
  2: { eexists. split; [done|]. by intros ? [=]. }
  destruct (cancelWhilePlanning ctl) eqn:Hc1; cbn [fst snd].
  { eexists. split; [done|]. intros ? _ _ (Hc & _). congruence. }
  case_decide as Hempty.
  { eexists. split; [done|]. intros ? [= <-] _ _. split; [done|]. by rewrite Hempty. }
  destruct (approved (planAnswer ctl)) eqn:Ha; cbn [negb fst snd].
  2: { eexists. split; [done|]. intros ? _ Hap _. by rewrite Hap in Ha. }
  destruct (cancelAfterPlanAnswer ctl) eqn:Hc2; cbn [fst snd].
  { eexists. split; [done|]. intros ? _ _ (_ & Hc & _). congruence. }
  destruct (executeSteps_settles planned false Hk (Hone planned eq_refl))
    as (slots & Hs & Hlen).
  destruct (executeSteps planned false) as [acts out]. cbn [snd] in Hs. subst out.
  eexists. split; [done|]. intros ? [= <-] _ _. by split.
Qed.


(** The formatting phase of an [execute] that returns without an error. *)
Lemma execute_formatter goal now format res :
  formatter = Some format →
  (execute goal now).2 = Some res →
  runError res = None →
  someSuccess (steps res) = true →
  CallFormatter goal (steps res) ∈ (execute goal now).1
  ∧ runSuccess res = everySuccess (steps res)
  ∧ ∀ message,
      format goal (steps res) = Rejected message →
      last (events (execute goal now).1)
      = Some (EvResult (everySuccess (steps res)) (Some (RawSteps (steps res))) None).
Proof.
  intros Hf Hres Hok Hsome. revert Hres.
  unfold EnhancedEngine.execute, EnhancedEngine.failed.
  destruct (withTimeout (planner goal) "规划超时") as [planned|m]; simpl;
    [|intros [= <-]; done].
  destruct (cancelWhilePlanning ctl); simpl; [intros [= <-]; done|].
  case_decide; [intros [= <-]; done|].
  destruct (approved (planAnswer ctl)); simpl; [|intros [= <-]; done].
  destruct (cancelAfterPlanAnswer ctl); simpl; [intros [= <-]; done|].
  destruct (executeSteps planned false) as [acts [rs|]]; [|done].
  intros [= <-]. cbn [steps runSuccess fst] in *.
  unfold formatPhase. destruct formatter as [f|]; [|done].
  injection Hf as ->. rewrite Hsome.
  split; [|split; [done|]].
  - do 5 right. apply elem_of_app. right. right. left.
  - intros message ->.
    change (?a :: ?b :: ?c :: ?d :: ?e :: ?l) with ([a; b; c; d; e] ++ l).
    by rewrite !events_app, !last_app.
Qed.
End Execute.

(** *** Plans without SYSTEM or DELETE steps *)

Section NoPrompt.
Variable planner : string → Timed (list PlanStep).
Variable executor : list PlanStep → PlanStep → SandboxConfig → Timed JsValue.
Variable formatter : option (string → list Slot → Settled string).
Variable sandboxConfig : SandboxConfig.
Variable parallelConfig : ParallelConfig.
Variable ctl : Controller.

Abbreviation lowRisk := (λ item : nat * PlanStep, highRisk item.2 = false).






End NoPrompt.

End EnhancedEngineSpec.

(** ** Both engines *)

Module EngineClaims.
Import Js EngineTypes EnhancedEngine EngineUse LogFacts Examples.

Lemma autoConfirm_neverCancels : neverCancels autoConfirm.
Proof. repeat split. Qed.


Lemma C5_executor_exception_witness :
  steps (Engine.run (λ _, Resolved threeSteps) secondCallThrows None autoConfirm
           "test goal" 0).2
  = [ {| stepId := "step_0"; success := true;
         result := Some (JObject [("success", JBool true)]); error := None |};
      {| stepId := "step_1"; success := false; result := None;
         error := Some "Step 1 failed" |};
      {| stepId := "step_2"; success := true;
         result := Some (JObject [("success", JBool true)]); error := None |} ]
  ∧ executorCalls (Engine.run (λ _, Resolved threeSteps) secondCallThrows None
                     autoConfirm "test goal" 0).1
    = threeSteps.
Proof.
  exact (proj2 (proj2 (proj2
    (EngineSpec.C5_executor_exception (λ _, Resolved threeSteps) secondCallThrows
       None autoConfirm "test goal" 0 threeSteps eq_refl eq_refl
       autoConfirm_neverCancels)))
    (testStep "step_0" "test_tool" "LOW") (testStep "step_1" "test_tool" "LOW")
    (testStep "step_2" "test_tool" "LOW")
    (JObject [("success", JBool true)]) (JObject [("success", JBool true)])
    "Step 1 failed" eq_refl eq_refl eq_refl eq_refl eq_refl eq_refl eq_refl).
Defined.


(** Two steps of one batch that both ask for permission: the second
    [waitForConfirm] overwrites the resolver of the first, the controller
    can only answer the second, and [execute] never returns. *)
Lemma two_prompts_in_a_batch_never_settle :
  let planned := [testStep "step_0" "registry_edit" "SYSTEM";
                  testStep "step_1" "process_kill" "SYSTEM"] in
  let out :=
    EnhancedEngine.execute (λ _, InTime (Resolved planned)) alwaysReturns None
      DEFAULT_SANDBOX_CONFIG DEFAULT_PARALLEL_CONFIG autoConfirm "goal" 0 in
  out.2 = None
  ∧ waits out.1 = [plan; permission; permission]
  ∧ executorCalls out.1 = [testStep "step_1" "process_kill" "SYSTEM"].
Proof. repeat split. Qed.

(** With [maxConcurrent = 0] the loop that cuts the batches does not end. *)
Lemma zero_concurrency_never_returns :
  (EnhancedEngine.execute
     (λ _, InTime (Resolved [testStep "step_0" "file_read" "READ";
                             testStep "step_1" "file_read" "READ"]))
     alwaysReturns None DEFAULT_SANDBOX_CONFIG
     {| maxConcurrent := 0; failFast := false |} autoConfirm "goal" 0).2 = None.
Proof. reflexivity. Qed.




(** C6: when a formatter is supplied and a run gets through its steps
    with at least one success, the formatter is called with the goal and
    the step results; if it throws, the final [result] event carries the
    raw step results; and the returned [success] says whether every step
    succeeded.  The same holds for [execute] of the enhanced engine,
    which returns when [maxConcurrent] is positive and no batch holds
    two steps that ask for permission, and returns without an error when
    the plan is approved and the run is not cancelled. *)
Theorem C6_formatter_fallback
    (planner : string → Settled (list PlanStep))
    (executor : list PlanStep → PlanStep → Settled JsValue)
    (format : string → list StepResult → Settled string)
    (plannerE : string → Timed (list PlanStep))
    (executorE : list PlanStep → PlanStep → SandboxConfig → Timed JsValue)
    (formatE : string → list Slot → Settled string)
    (sandboxConfig : SandboxConfig) (parallelConfig : ParallelConfig)
    (ctl : Controller) (goal : string) (now : Z) :
  let basic := Engine.run planner executor (Some format) ctl goal now in
  let enhanced :=
    execute plannerE executorE (Some formatE) sandboxConfig parallelConfig ctl goal now in
  (runError basic.2 = None →
   existsb success (steps basic.2) = true →
   CallFormatter goal (steps basic.2) ∈ basic.1
   ∧ runSuccess basic.2 = forallb success (steps basic.2)
   ∧ ∀ message,
       format goal (steps basic.2) = Rejected message →
       last (events basic.1)
       = Some (EvResult true (Some (RawSteps (steps basic.2))) None))
  ∧ (0 < maxConcurrent parallelConfig →
     (∀ planned, withTimeout (plannerE goal) "规划超时" = Resolved planned →
        onePromptPerBatch (maxConcurrent parallelConfig) planned) →
     ∃ res,
       enhanced.2 = Some res
       ∧ (∀ planned, withTimeout (plannerE goal) "规划超时" = Resolved planned →
            planAnswer ctl = Approve →
            neverCancels ctl →
            runError res = None ∧ length (steps res) = length planned)
       ∧ (runError res = None →
          (runSuccess res = true
           ↔ ∀ i r, steps res !! i = Some (Some r) → success r = true)
          ∧ ((∃ i r, steps res !! i = Some (Some r) ∧ success r = true) →
             CallFormatter goal (steps res) ∈ enhanced.1
             ∧ ∀ message,
                 formatE goal (steps res) = Rejected message →
                 last (events enhanced.1)
                 = Some (EvResult (runSuccess res) (Some (RawSteps (steps res)))
                           None)))).
Proof.
  intros basic enhanced. split.
  - intros Hok Hsome. by apply EngineSpec.run_formatter.
  - intros Hk Hone.
    destruct (EnhancedEngineSpec.execute_settles plannerE executorE (Some formatE)
                sandboxConfig parallelConfig ctl goal now Hk Hone)
      as (res & Hres & Hreturns).
    exists res. split; [done|]. split; [done|]. intros Hok.
    assert (Hsuccess : runSuccess res = everySuccess (steps res)).
    { clear Hreturns. revert Hres. subst enhanced.
      unfold execute, EnhancedEngine.failed.
      destruct (withTimeout (plannerE goal) "规划超时") as [planned|m]; cbn [fst snd];
        [|intros [= <-]; done].
      destruct (cancelWhilePlanning ctl); cbn [fst snd]; [intros [= <-]; done|].
      case_decide; [by intros [= <-]|].
      destruct (approved (planAnswer ctl)); cbn [negb fst snd];
        [|intros [= <-]; done].
      destruct (cancelAfterPlanAnswer ctl); cbn [fst snd]; [intros [= <-]; done|].
      destruct (executeSteps _ _ _ _ planned false) as [acts [rs|]]; [|done].
      by intros [= <-]. }
    split; [rewrite Hsuccess; apply EnhancedEngineSpec.everySuccess_spec|].
    intros Hsome%EnhancedEngineSpec.someSuccess_spec.
    destruct (EnhancedEngineSpec.execute_formatter plannerE executorE (Some formatE)
                sandboxConfig parallelConfig ctl goal now formatE res
                eq_refl Hres Hok Hsome) as (Hcall & _ & Hraw).
    split; [done|]. by rewrite Hsuccess.
Qed.

Lemma C6_formatter_fallback_witness :
  let basic :=
    Engine.run (λ _, Resolved threeSteps) secondCallThrows (Some formatterThrows)
      autoConfirm "test goal" 0 in
  let enhanced :=
    execute (λ _, InTime (Resolved threeSteps)) alwaysReturns (Some formatterThrows)
      DEFAULT_SANDBOX_CONFIG DEFAULT_PARALLEL_CONFIG autoConfirm "test goal" 0 in
  (CallFormatter "test goal" (steps basic.2) ∈ basic.1
   ∧ runSuccess basic.2 = false
   ∧ last (events basic.1)
     = Some (EvResult true (Some (RawSteps (steps basic.2))) None))
  ∧ ∃ res,
      enhanced.2 = Some res
      ∧ length (steps res) = 3%nat
      ∧ runSuccess res = true
      ∧ CallFormatter "test goal" (steps res) ∈ enhanced.1
      ∧ last (events enhanced.1)
        = Some (EvResult true (Some (RawSteps (steps res))) None).
Proof.
  intros basic enhanced.
  pose proof (C6_formatter_fallback (λ _, Resolved threeSteps) secondCallThrows
                formatterThrows (λ _, InTime (Resolved threeSteps))
                alwaysReturns formatterThrows DEFAULT_SANDBOX_CONFIG
                DEFAULT_PARALLEL_CONFIG autoConfirm "test goal" 0) as H.
  cbv zeta in H. destruct H as [Hbasic Henhanced]. split.
  - destruct (Hbasic eq_refl eq_refl) as (Hcall & Hsuccess & Hlast).
    split; [exact Hcall|]. split; [exact Hsuccess|].
    exact (Hlast "formatter failed" eq_refl).
  - destruct Henhanced as (res & Hres & Hreturns & Hformat).
    + reflexivity.
    + intros planned [= <-] _. vm_compute. repeat constructor.
    + destruct (Hreturns threeSteps eq_refl eq_refl autoConfirm_neverCancels)
        as [Hok Hlen].
      destruct (Hformat Hok) as [Hsuccess Hcalled].
      assert (Hall : ∀ i r, steps res !! i = Some (Some r) → success r = true).
      { assert (Hsome : Some res = enhanced.2) by (symmetry; exact Hres).
        vm_compute in Hsome. injection Hsome as ->.
        intros [|[|[|i]]] r [= <-]; reflexivity. }
      assert (Hone : ∃ i r, steps res !! i = Some (Some r) ∧ success r = true).
      { assert (Hsome : Some res = enhanced.2) by (symmetry; exact Hres).
        vm_compute in Hsome. injection Hsome as ->.
        exists 0%nat. eexists. split; reflexivity. }
      destruct (Hcalled Hone) as [Hcall Hraw].
      exists res. split; [exact Hres|]. split; [exact Hlen|].
      split; [exact (proj2 Hsuccess Hall)|]. split; [exact Hcall|].
      pose proof (Hraw "formatter failed" eq_refl) as Hlast.
      rewrite (proj2 Hsuccess Hall) in Hlast. exact Hlast.
Defined.

End EngineClaims.

(** * Further properties of the code *)

(** ** The tool registry and the shell tools *)

Module JsMapFacts.

Section Map.
Context {V : Type}.
Implicit Types m : list (string * V).

Lemma get_None m key : JsMap.get m key = None ↔ key ∉ m.*1.
Proof.
  induction m as [|[k v] m IH]; simpl.
  - split; [intros _; apply not_elem_of_nil|done].
  - case_decide as Hk.
    + subst k. split; [done|]. intros Hnot. destruct Hnot. left.
    + rewrite IH, not_elem_of_cons.
      split; [intros; split; [congruence|done] | by intros [_ ?]].
Qed.

Lemma has_spec m key : JsMap.has m key = true ↔ key ∈ m.*1.
Proof.
  unfold JsMap.has. rewrite bool_decide_eq_true.
  destruct (JsMap.get m key) as [v|] eqn:E.
  - split; [intros _|by eexists].
    destruct (decide (key ∈ m.*1)) as [|Hnot]; [done|].
    apply get_None in Hnot. congruence.
  - apply get_None in E. split; [by intros [? ?]|done].
Qed.

Lemma set_new m key value :
  key ∉ m.*1 → JsMap.set m key value = m ++ [(key, value)].
Proof.
  induction m as [|[k v] m IH]; intros Hnew; [done|]. simpl in *.
  apply not_elem_of_cons in Hnew as [Hne Hnew].
  rewrite decide_False by done. by rewrite IH.
Qed.

Lemma set_old m key value :
  key ∈ m.*1 →
  (JsMap.set m key value).*1 = m.*1
  ∧ length (JsMap.set m key value) = length m.
Proof.
  induction m as [|[k v] m IH]; intros Hold; [by apply elem_of_nil in Hold|].
  simpl in Hold. cbn [JsMap.set]. case_decide as Hk; [by subst|].
  apply elem_of_cons in Hold as [->|Hold]; [done|].
  destruct (IH Hold) as [Hkeys Hlen].
  split; [|simpl; by rewrite Hlen].
  change (k :: (JsMap.set m key value).*1 = k :: m.*1). by rewrite Hkeys.
Qed.

Lemma get_set m key value : JsMap.get (JsMap.set m key value) key = Some value.
Proof.
  induction m as [|[k v] m IH]; simpl.
  - by rewrite decide_True.
  - case_decide as Hk; simpl; [by rewrite decide_True|]. by rewrite decide_False.
Qed.

Lemma get_set_ne m key value other :
  other ≠ key → JsMap.get (JsMap.set m key value) other = JsMap.get m other.
Proof.
  intros Hne. induction m as [|[k v] m IH]; simpl.
  - by rewrite decide_False.
  - case_decide as Hk; simpl.
    + subst k. by rewrite !decide_False by done.
    + case_decide; [done|apply IH].
Qed.

Lemma get_app_new m key value other :
  key ∉ m.*1 →
  JsMap.get (m ++ [(key, value)]) other
  = if decide (other = key) then Some value else JsMap.get m other.
Proof.
  intros Hnew. rewrite <- set_new by done.
  case_decide as Ho; [subst; apply get_set | by apply get_set_ne].
Qed.

End Map.
End JsMapFacts.

Module ToolRegistryFacts.
Import Js ToolSystem JsMapFacts.

(** The entries that registering a list of tools adds. *)
Abbreviation entries := (λ batch : list Tool, (λ tool, (name tool, tool)) <$> batch).

Lemma entries_keys (batch : list Tool) : (entries batch).*1 = name <$> batch.
Proof. rewrite <- list_fmap_compose. by apply list_fmap_ext. Qed.

Lemma entries_values (batch : list Tool) : (entries batch).*2 = batch.
Proof.
  rewrite <- list_fmap_compose. rewrite <- (list_fmap_id batch) at 2.
  by apply list_fmap_ext.
Qed.

Lemma registerAll_fresh (batch : list Tool) : ∀ tools : Registry,
  NoDup (tools.*1 ++ (name <$> batch)) →
  registerAll batch tools = inr (tools ++ entries batch).
Proof.
  induction batch as [|tool batch IH]; intros tools Hfresh; simpl.
  - by rewrite app_nil_r.
  - unfold register.
    assert (Hnew : name tool ∉ tools.*1).
    { apply NoDup_app in Hfresh as (_ & Hdisj & _). intros Hin.
      apply (Hdisj _ Hin). left. }
    destruct (JsMap.has tools (name tool)) eqn:Ehas.
    { apply has_spec in Ehas. done. }
    rewrite set_new by done.
    rewrite IH.
    + by rewrite <- app_assoc.
    + rewrite fmap_app. simpl. by rewrite <- app_assoc.
Qed.

Lemma registerAll_clash (batch : list Tool) : ∀ tools : Registry,
  NoDup tools.*1 →
  ¬ NoDup (tools.*1 ++ (name <$> batch)) →
  ∃ taken, taken ∈ name <$> batch
           ∧ registerAll batch tools = inl ("Tool already registered: " +:+ taken).
Proof.
  induction batch as [|tool batch IH]; intros tools Hkeys Hclash; simpl.
  - destruct Hclash. by rewrite app_nil_r.
  - unfold register. destruct (JsMap.has tools (name tool)) eqn:Ehas.
    + exists (name tool). split; [left|done].
    + assert (Hnew : name tool ∉ tools.*1).
      { intros Hin. apply has_spec in Hin. congruence. }
      rewrite set_new by done.
      destruct (IH (tools ++ [(name tool, tool)])) as (taken & Hin & ->).
      * rewrite fmap_app. simpl. apply NoDup_app. split; [done|].
        split; [|apply NoDup_singleton].
        intros x Hx Hx'. apply list_elem_of_singleton in Hx'. by subst.
      * rewrite fmap_app. simpl. by rewrite <- app_assoc.
      * exists taken. split; [by right|done].
Qed.

(** X1: the registry holds each name once, in the order of
    registration.  Registering a list of tools in an empty registry
    succeeds exactly when their names differ; then [getAll] returns the
    tools and [getDefinitions] their definitions in that order, and
    [get] returns each tool under its name.  Otherwise [register] throws
    for a name that is taken, and says so. *)
Theorem registry_keeps_names_apart (batch : list Tool) :
  match registerAll batch createToolRegistry with
  | inr tools =>
      NoDup (name <$> batch)
      ∧ getAll tools = batch
      ∧ getDefinitions tools = definitionOf <$> batch
      ∧ ∀ tool, tool ∈ batch →
          get (name tool) tools = Some tool ∧ has (name tool) tools = true
  | inl message =>
      ¬ NoDup (name <$> batch)
      ∧ ∃ taken, taken ∈ name <$> batch
                 ∧ message = "Tool already registered: " +:+ taken
  end.
Proof.
  destruct (decide (NoDup (name <$> batch))) as [Hnames|Hclash].
  - rewrite registerAll_fresh by done. simpl.
    split; [done|]. unfold getAll, getDefinitions, JsMap.values.
    rewrite entries_values. split; [done|]. split; [done|].
    intros tool Hin.
    assert (Hget : ∀ done_ rest, batch = done_ ++ tool :: rest →
              JsMap.get (entries batch) (name tool) = Some tool).
    { intros done_ rest ->. clear Hin.
      rewrite fmap_app in Hnames. apply NoDup_app in Hnames as (_ & Hdisj & _).
      rewrite fmap_app. simpl.
      induction done_ as [|first done_ IH]; simpl.
      - by rewrite decide_True.
      - rewrite decide_False.
        + apply IH. intros x Hx. apply Hdisj. by right.
        + intros Heq. apply (Hdisj (name first)); [left|]. rewrite Heq. left. }
    apply list_elem_of_split in Hin as (done_ & rest & Hsplit).
    unfold get, has, JsMap.has. rewrite (Hget done_ rest Hsplit).
    split; [done|]. apply bool_decide_eq_true. by eexists.
  - unfold createToolRegistry.
    destruct (registerAll_clash batch [] NoDup_nil_2 Hclash)
      as (taken & Hin & ->).
    split; [done|]. by exists taken.
Qed.

End ToolRegistryFacts.

(** ** More on the rate limiter *)

Module RateLimiterFacts.
Import RateLimiter RateLimiterUse RateLimiterSpec.

Lemma getState_eta toolName (ls : Limiter) :
  (getState toolName ls).1
  = {| calls := callsOf toolName ls; config := configOf toolName ls |}.
Proof. unfold callsOf, configOf. by destruct (getState toolName ls).1. Qed.

(** The answer of [check] depends on the tool's calls and config only. *)
Lemma check_answer toolName now (ls ls' : Limiter) :
  callsOf toolName ls' = callsOf toolName ls →
  configOf toolName ls' = configOf toolName ls →
  (check toolName now ls').1 = (check toolName now ls).1.
Proof.
  intros Hc Hg. unfold check.
  pose proof (getState_eta toolName ls) as E.
  pose proof (getState_eta toolName ls') as E'.
  rewrite Hc, Hg, <- E in E'.
  destruct (getState toolName ls) as [st l0], (getState toolName ls') as [st' l0'].
  simpl in E'. subst st'. simpl. by case_decide.
Qed.

Lemma getState_other a b (ls : Limiter) :
  a ≠ b → (getState b (getState a ls).2).1 = (getState b ls).1.
Proof.
  intros Hab. unfold getState. destruct (ls !! a) eqn:Ea; simpl; [done|].
  rewrite lookup_insert_ne by done. by destruct (ls !! b).
Qed.

Lemma getState_insert_other a b st (ls : Limiter) :
  a ≠ b → (getState b (<[a := st]> ls)).1 = (getState b ls).1.
Proof.
  intros Hab. unfold getState. rewrite lookup_insert_ne by done.
  by destruct (ls !! b).
Qed.

Lemma check_other a b now (ls : Limiter) :
  a ≠ b → (getState b (check a now ls).2).1 = (getState b ls).1.
Proof.
  intros Hab. unfold check.
  pose proof (getState_other a b ls Hab) as H.
  destruct (getState a ls) as [st l0]. simpl in H.
  case_decide; simpl; by rewrite getState_insert_other.
Qed.

Lemma record_other a b now (ls : Limiter) :
  a ≠ b → (getState b (record a now ls)).1 = (getState b ls).1.
Proof.
  intros Hab. unfold record.
  pose proof (getState_other a b ls Hab) as H.
  destruct (getState a ls) as [st l0]. simpl in H.
  by rewrite getState_insert_other.
Qed.

Lemma setConfig_other a b cfg (ls : Limiter) :
  a ≠ b → (getState b (setConfig a cfg ls)).1 = (getState b ls).1.
Proof.
  intros Hab. unfold setConfig.
  pose proof (getState_other a b ls Hab) as H.
  destruct (getState a ls) as [st l0]. simpl in H.
  by rewrite getState_insert_other.
Qed.

Lemma getConfig_other a b (ls : Limiter) :
  a ≠ b → (getState b (getConfig a ls).2).1 = (getState b ls).1.
Proof.
  intros Hab. unfold getConfig.
  pose proof (getState_other a b ls Hab) as H.
  by destruct (getState a ls) as [st l0].
Qed.

Lemma sameFor_intro b (ls ls' : Limiter) :
  (getState b ls').1 = (getState b ls).1 → sameFor b ls ls'.
Proof.
  intros H.
  assert (Hc : callsOf b ls' = callsOf b ls) by (unfold callsOf; by rewrite H).
  assert (Hg : configOf b ls' = configOf b ls) by (unfold configOf; by rewrite H).
  split; [done|]. split; [done|]. intros at_. by apply check_answer.
Qed.

Lemma setConfig_calls toolName cfg ls :
  callsOf toolName (setConfig toolName cfg ls) = callsOf toolName ls.
Proof.
  unfold setConfig. destruct (getState toolName ls) as [st ls'] eqn:E.
  rewrite callsOf_insert. simpl. unfold callsOf. by rewrite E.
Qed.

Lemma getConfig_configOf toolName ls :
  (getConfig toolName ls).1 = configOf toolName ls.
Proof. unfold getConfig, configOf. by destruct (getState toolName ls). Qed.

(** What a denying [check] says about the time to wait. *)
Lemma check_denied toolName now ls :
  let cfg := configOf toolName ls in
  let kept := inWindow cfg now (callsOf toolName ls) in
  let r := (check toolName now ls).1 in
  allowed r = false →
  retryAfter r = Some (match head kept with
                       | Some t => t + windowMs cfg - now
                       | None => windowMs cfg
                       end)
  ∧ resetTime r = match head kept with
                  | Some t => t + windowMs cfg
                  | None => now + windowMs cfg
                  end.
Proof.
  intros cfg kept r. subst r. unfold check.
  assert (Hst : cfg = config (getState toolName ls).1
                ∧ callsOf toolName ls = calls (getState toolName ls).1) by done.
  destruct Hst as [Hcfg Hcalls].
  destruct (getState toolName ls) as [st ls0]. simpl in Hcfg, Hcalls.
  subst kept. unfold inWindow. rewrite Hcalls, Hcfg. simpl.
  case_decide as Hfull; simpl; [done|discriminate].
Qed.

Lemma filter_length_impl {A} (P Q : A → Prop) `{∀ x, Decision (P x)}
    `{∀ x, Decision (Q x)} (l : list A) :
  (∀ x, P x → Q x) → (length (filter P l) ≤ length (filter Q l))%nat.
Proof.
  intros HPQ. induction l as [|x l IH]; [done|].
  destruct (decide (P x)) as [HP|HP].
  - rewrite (filter_cons_True P) by done.
    rewrite (filter_cons_True Q) by auto. simpl. lia.
  - rewrite (filter_cons_False P) by done.
    destruct (decide (Q x)).
    + rewrite (filter_cons_True Q) by done. simpl. lia.
    + by rewrite (filter_cons_False Q).
Qed.

Lemma filter_filter_Z (a b : Z) (l : list Z) :
  a ≤ b → filter (λ t, b < t) (filter (λ t, a < t) l) = filter (λ t, b < t) l.
Proof.
  intros Hab. induction l as [|x l IH]; [done|].
  destruct (decide (a < x)).
  - rewrite (filter_cons_True (λ t, a < t)) by done.
    destruct (decide (b < x)).
    + rewrite !(filter_cons_True (λ t, b < t)) by done. by rewrite IH.
    + rewrite !(filter_cons_False (λ t, b < t)) by done. done.
  - rewrite (filter_cons_False (λ t, a < t)) by done.
    rewrite (filter_cons_False (λ t, b < t)) by lia. done.
Qed.

Lemma within_snoc w at_ history t :
  within w at_ (history ++ [t])
  = within w at_ history ++ (if decide (at_ - w < t ∧ t ≤ at_) then [t] else []).
Proof.
  unfold within. by rewrite filter_app.
Qed.

Section Schedule.
Variable toolName : string.
Variable cfg : RateLimitConfig.
Hypothesis Hwindow : 0 < windowMs cfg.

(** The invariant of a schedule of guarded calls: the limiter holds the
    recorded calls that are newer than some instant no later than one
    window ago, and no window holds more than [maxCalls] of them. *)
Abbreviation invariant := (λ (last : Z) (st : Limiter * list Z),
  configOf toolName st.1 = cfg
  ∧ (∃ θ, θ ≤ last - windowMs cfg
          ∧ callsOf toolName st.1 = filter (λ t, θ < t) st.2)
  ∧ ∀ at_, Z.of_nat (length (within (windowMs cfg) at_ st.2)) ≤ maxCalls cfg).

Lemma guardedCall_invariant last checkAt recordAt proceed st :
  last ≤ checkAt → checkAt ≤ recordAt →
  invariant last st →
  invariant recordAt (guardedCall toolName (checkAt, recordAt, proceed) st).
Proof.
  intros Hlc Hcr (Hcfg & (θ & Hθ & Hstored) & Hbound).
  destruct st as [ls history]. simpl in *.
  unfold guardedCall. cbn [fst snd].
  pose proof (check_spec toolName checkAt ls) as Hcheck. simpl in Hcheck.
  destruct (check toolName checkAt ls) as [answer ls'] eqn:E.
  simpl in Hcheck. destruct Hcheck as (Hcalls & Hcfg' & Hallowed & _).
  rewrite Hcfg in Hcalls, Hcfg', Hallowed.
  unfold inWindow in Hcalls, Hallowed. rewrite Hstored in Hcalls, Hallowed.
  rewrite filter_filter_Z in Hcalls, Hallowed by lia.
  destruct (allowed answer) eqn:Ha; simpl; [destruct proceed; simpl|].
  - (* the call is recorded *)
    symmetry in Hallowed. apply bool_decide_eq_true in Hallowed.
    split; [by rewrite record_config|]. split.
    + exists (checkAt - windowMs cfg). split; [lia|].
      rewrite record_calls, Hcalls, filter_app.
      by rewrite (filter_cons_True _ recordAt) by lia.
    + intros at_. rewrite within_snoc, length_app.
      case_decide as Hin; simpl; [|specialize (Hbound at_); lia].
      pose proof (filter_length_impl
                    (λ t, at_ - windowMs cfg < t ∧ t ≤ at_)
                    (λ t, checkAt - windowMs cfg < t) history) as Hle.
      unfold within. specialize (Hle ltac:(simpl; intros; lia)). lia.
  - split; [done|]. split; [|done].
    exists (checkAt - windowMs cfg). split; [lia|done].
  - split; [done|]. split; [|done].
    exists (checkAt - windowMs cfg). split; [lia|done].
Qed.

Lemma guardedCalls_invariant steps : ∀ last st,
  inOrder last steps →
  invariant last st →
  ∃ last', invariant last' (guardedCalls toolName steps st).
Proof.
  induction steps as [|[[checkAt recordAt] proceed] steps IH]; intros last st Hord Hinv.
  - by exists last.
  - destruct Hord as (Hlc & Hcr & Hord). unfold guardedCalls. simpl.
    apply (IH recordAt); [done|]. by apply guardedCall_invariant with last.
Qed.

End Schedule.

(** X2: the limiter keeps its tools apart: whatever is done for one tool
    leaves the calls, the configuration and every answer of another tool
    as they were. *)
Theorem limiter_isolation (a b : string) (now : Z) (cfg : RateLimitConfig)
    (ls : Limiter) :
  a ≠ b →
  sameFor b ls (check a now ls).2
  ∧ sameFor b ls (record a now ls)
  ∧ sameFor b ls (setConfig a cfg ls)
  ∧ sameFor b ls (getConfig a ls).2.
Proof.
  intros Hab. split; [|split; [|split]]; apply sameFor_intro.
  - by apply check_other.
  - by apply record_other.
  - by apply setConfig_other.
  - by apply getConfig_other.
Qed.

Lemma limiter_isolation_witness :
  let ls := record "tool_b" 1 createRateLimiter in
  callsOf "tool_b" (record "tool_a" 2 ls) = [1]
  ∧ (check "tool_b" 5 (record "tool_a" 2 ls)).1 = (check "tool_b" 5 ls).1.
Proof.
  intros ls.
  destruct (limiter_isolation "tool_a" "tool_b" 2 DEFAULT_CONFIG ls)
    as (_ & (Hc & _ & Hk) & _).
  - discriminate.
  - split; [exact Hc | exact (Hk 5)].
Defined.

(** X3: a configuration that is set is the one a later [getConfig]
    returns; the calls recorded before stay, and are counted against the
    new limits from the next [check] on. *)
Theorem setConfig_getConfig (toolName : string) (cfg : RateLimitConfig)
    (now : Z) (ls : Limiter) :
  (getConfig toolName (setConfig toolName cfg ls)).1 = cfg
  ∧ callsOf toolName (setConfig toolName cfg ls) = callsOf toolName ls
  ∧ (allowed (check toolName now (setConfig toolName cfg ls)).1 = true
     ↔ Z.of_nat (length (inWindow cfg now (callsOf toolName ls))) < maxCalls cfg).
Proof.
  split; [|split].
  - by rewrite getConfig_configOf, setConfig_config.
  - apply setConfig_calls.
  - pose proof (check_spec toolName now (setConfig toolName cfg ls)) as H.
    simpl in H. destruct H as (_ & _ & Ha & _).
    rewrite setConfig_config, setConfig_calls in Ha. rewrite Ha.
    apply bool_decide_eq_true.
Qed.

(** X4: when [check] denies and the limit is at least one, [retryAfter]
    is positive and [resetTime] is that much after now; when moreover no
    more than [maxCalls] calls are in the window, the check made
    [retryAfter] later allows. *)
Theorem denied_retryAfter (toolName : string) (now : Z) (ls : Limiter) :
  let cfg := configOf toolName ls in
  let first := check toolName now ls in
  allowed first.1 = false →
  1 ≤ maxCalls cfg →
  ∃ wait,
    retryAfter first.1 = Some wait
    ∧ 0 < wait
    ∧ resetTime first.1 = now + wait
    ∧ (Z.of_nat (length (inWindow cfg now (callsOf toolName ls))) ≤ maxCalls cfg →
       allowed (check toolName (now + wait) first.2).1 = true).
Proof.
  intros cfg first Hdenied Hmax. subst first.
  pose proof (check_spec toolName now ls) as Hspec. simpl in Hspec.
  destruct Hspec as (Hcalls & Hcfg & Ha & _). fold cfg in Hcalls, Hcfg, Ha.
  pose proof (check_denied toolName now ls Hdenied) as [Hretry Hreset].
  fold cfg in Hretry, Hreset.
  rewrite Hdenied in Ha. symmetry in Ha. apply bool_decide_eq_false in Ha.
  destruct (inWindow cfg now (callsOf toolName ls)) as [|t kept] eqn:Ek;
    [simpl in Ha; lia|].
  simpl in Hretry, Hreset.
  assert (Ht : now - windowMs cfg < t).
  { assert (Hin : t ∈ inWindow cfg now (callsOf toolName ls))
      by (rewrite Ek; left).
    unfold inWindow in Hin. by apply list_elem_of_filter in Hin as [? _]. }
  exists (t + windowMs cfg - now). split; [done|]. split; [lia|].
  split; [rewrite Hreset; lia|].
  intros Hfull.
  pose proof (check_spec toolName (now + (t + windowMs cfg - now))
                (check toolName now ls).2) as Hnext.
  simpl in Hnext. destruct Hnext as (_ & _ & Hallowed & _).
  rewrite Hcfg, Hcalls in Hallowed. rewrite Hallowed.
  apply bool_decide_eq_true. unfold inWindow at 1.
  rewrite filter_cons_False by lia.
  pose proof (length_filter (λ time, now + (t + windowMs cfg - now) - windowMs cfg < time)
                kept) as Hle.
  simpl in Hfull. lia.
Qed.

Lemma denied_retryAfter_witness :
  let ls := recordAll "tool" [4000; 4500]
              (setConfig "tool" {| maxCalls := 2; windowMs := 1000 |}
                 createRateLimiter) in
  ∃ wait,
    retryAfter (check "tool" 4600 ls).1 = Some wait
    ∧ 0 < wait
    ∧ resetTime (check "tool" 4600 ls).1 = 4600 + wait
    ∧ allowed (check "tool" (4600 + wait) (check "tool" 4600 ls).2).1 = true.
Proof.
  intros ls.
  destruct (denied_retryAfter "tool" 4600 ls) as (wait & H1 & H2 & H3 & H4).
  - reflexivity.
  - vm_compute. discriminate.
  - exists wait. split; [exact H1|]. split; [exact H2|]. split; [exact H3|].
    apply H4. vm_compute. discriminate.
Defined.

(** X5: under a caller that works through its calls one after the
    other (a check, then the record of the call that goes ahead, before
    the next check) and a clock that never goes back, the limiter never
    lets more than [maxCalls] recorded calls of a tool fall into one
    window of [windowMs]; the tool's name is not a member inherited from
    [Object.prototype].  The order matters: with a limit of one, two
    checks made before either call is recorded both allow. *)
Theorem guarded_calls_bound (toolName : string) (ls : Limiter)
    (steps : list (Z * Z * bool)) (from at_ : Z) :
  let cfg := configOf toolName ls in
  toolName ∉ inheritedMembers →
  callsOf toolName ls = [] →
  0 ≤ maxCalls cfg →
  inOrder from steps →
  Z.of_nat (length (within (windowMs cfg) at_
                      (guardedCalls toolName steps (ls, [])).2))
  ≤ maxCalls cfg
  ∧ (let one := setConfig toolName {| maxCalls := 1; windowMs := 1000 |} ls in
     let first := check toolName from one in
     let second := check toolName from first.2 in
     allowed first.1 = true ∧ allowed second.1 = true).
Proof.
  intros cfg _ Hfresh Hmax Hord. split.
  - destruct (decide (0 < windowMs cfg)) as [Hw|Hw].
    + destruct (guardedCalls_invariant toolName cfg Hw steps from (ls, []))
        as (last' & _ & _ & Hbound); [done| |by apply Hbound].
      split; [done|]. split; [|done].
      exists (from - windowMs cfg). split; [lia|]. simpl. by rewrite Hfresh.
    + assert (Hnone : ∀ history, within (windowMs cfg) at_ history = []).
      { induction history as [|t history IH]; [done|].
        unfold within in *. by rewrite filter_cons_False by lia. }
      rewrite Hnone. simpl. lia.
  - intros one first second.
    pose proof (check_spec toolName from one) as H1. simpl in H1.
    fold first in H1. destruct H1 as (Hcalls1 & Hcfg1 & Ha1 & _).
    unfold one in Hcalls1, Hcfg1, Ha1.
    rewrite setConfig_config, setConfig_calls, Hfresh in *.
    pose proof (check_spec toolName from first.2) as H2. simpl in H2.
    fold second in H2. destruct H2 as (_ & _ & Ha2 & _).
    rewrite Hcfg1, Hcalls1 in Ha2.
    rewrite Ha1, Ha2. by vm_compute.
Qed.

Lemma guarded_calls_bound_witness :
  let ls := setConfig "tool" {| maxCalls := 2; windowMs := 1000 |} createRateLimiter in
  let out := guardedCalls "tool"
               [(0, 1, true); (10, 11, true); (20, 21, true); (1005, 1006, true)]
               (ls, []) in
  out.2 = [1; 11; 1006]
  ∧ Z.of_nat (length (within 1000 1006 out.2)) ≤ 2.
Proof.
  intros ls out. split; [reflexivity|].
  apply (guarded_calls_bound "tool" ls
           [(0, 1, true); (10, 11, true); (20, 21, true); (1005, 1006, true)] 0 1006).
  - apply (bool_decide_unpack _). vm_compute. exact I.
  - reflexivity.
  - vm_compute. discriminate.
  - simpl. lia.
Defined.

End RateLimiterFacts.

(** ** More on the tool validator *)

Module ToolValidatorFacts.
Import Js JsString ToolValidator Examples.

Lemma startsWith_app (p x : string) : startsWith (p +:+ x) p = true.
Proof.
  unfold startsWith. induction p as [|c p IH].
  - by destruct x.
  - change (String c p +:+ x) with (String c (p +:+ x)). simpl.
    destruct (Ascii.ascii_dec c c); [done|congruence].
Qed.

Lemma startsWith_shorter (p x s : string) :
  startsWith s (p +:+ x) = true → startsWith s p = true.
Proof.
  unfold startsWith. revert s. induction p as [|c p IH]; intros s.
  - by destruct s.
  - change (String c p +:+ x) with (String c (p +:+ x)).
    destruct s as [|d s]; [done|]. simpl.
    destruct (Ascii.ascii_dec c d); [apply IH|done].
Qed.

Section Validator.
Variable inherited : string → JsValue.

(** Every error that [validateProperty] reports begins with the path
    it was given. *)
Lemma validateProperty_path : ∀ prop value path,
  Forall (λ e, startsWith e path = true) (validateProperty inherited value prop path).
Proof.
  fix IH 1. intros [ptype_ pdesc penum_ pitems_ pprops_] value path.
  assert (Henum : ∀ found : list string → bool,
            Forall (λ e, startsWith e path = true)
              match penum_ with
              | Some enum =>
                  if found enum then []
                  else [path +:+ ": value must be one of [" +:+ join ", " enum +:+ "]"]
              | None => []
              end).
  { intros found. destruct penum_ as [enum|]; [|by constructor].
    destruct (found enum); repeat constructor. apply startsWith_app. }
  assert (Hnested : ∀ (cond : bool) v,
            Forall (λ e, startsWith e path = true)
              match pprops_ with
              | Some props =>
                  if cond then
                    (fix entries (l : list (string * ToolParameterProperty))
                       : list string :=
                       match l with
                       | [] => []
                       | (key, nestedProp) :: rest =>
                           (match getProperty inherited v key with
                            | JUndefined => []
                            | _ => validateProperty inherited
                                     (getProperty inherited v key) nestedProp
                                     (path +:+ "." +:+ key)
                            end ++ entries rest)%list
                       end) props
                  else []
              | None => []
              end).
  { intros cond v. destruct pprops_ as [props|]; [|by constructor].
    destruct cond; [|by constructor].
    induction props as [|[key nested] props IHprops]; [by constructor|].
    apply Forall_app_2; [|exact IHprops].
    assert (Hsub : Forall (λ e, startsWith e path = true)
                     (validateProperty inherited (getProperty inherited v key)
                        nested (path +:+ "." +:+ key))).
    { eapply Forall_impl; [apply IH|]. simpl. intros e He.
      by apply startsWith_shorter in He. }
    destruct (getProperty inherited v key); try exact Hsub. by constructor. }
  assert (Hitems : ∀ items,
            Forall (λ e, startsWith e path = true)
              match pitems_ with
              | Some itemProp =>
                  if bool_decide (ptype_ = "array") then
                    concat (imap (λ index item,
                              validateProperty inherited item itemProp
                                (path +:+ "[" +:+ pretty index +:+ "]")) items)
                  else []
              | None => []
              end).
  { intros items. destruct pitems_ as [itemProp|]; [|by constructor].
    case_bool_decide; [|by constructor].
    apply Forall_concat, Forall_forall. intros errs Hin.
    apply elem_of_lookup_imap in Hin as (i & item & -> & _).
    eapply Forall_impl; [apply IH|]. simpl. intros e He.
    by apply startsWith_shorter in He. }
  destruct value as [| |b|n|s|items|fields|]; try (by apply Forall_nil); simpl;
    (match goal with
     | |- Forall _ (if ?c then _ else _) => destruct c
     end; [repeat constructor; apply startsWith_app|]);
    (apply Forall_app_2; [|apply Forall_app_2]);
    try apply (Henum (λ _, false));
    try (destruct pitems_; by constructor);
    try (destruct pprops_; [rewrite andb_false_r|]; by constructor).
  - apply (Henum (λ enum, bool_decide (s ∈ enum))).
  - apply Hitems.
  - exact (Hnested _ (JArray items)).
  - exact (Hnested _ (JObject fields)).
Qed.

Lemma ownProperty_middle front back key value k :
  k ≠ key →
  ownProperty (front ++ (k, value) :: back) key = ownProperty (front ++ back) key.
Proof.
  intros Hk. induction front as [|[k' v'] front IH]; simpl.
  - by rewrite decide_False.
  - by rewrite IH.
Qed.

Lemma getProperty_middle front back key value k :
  k ≠ key →
  getProperty inherited (JObject (front ++ (k, value) :: back)) key
  = getProperty inherited (JObject (front ++ back)) key.
Proof. intros Hk. simpl. by rewrite ownProperty_middle. Qed.

Lemma flat_map_ext_in {A B} (f g : A → list B) (l : list A) :
  (∀ x, x ∈ l → f x = g x) → flat_map f l = flat_map g l.
Proof.
  induction l as [|x l IH]; intros H; [done|]. simpl.
  rewrite (H x) by left. f_equal. apply IH. intros y Hy. apply H. by right.
Qed.

(** X6: every error names what it is about.  An error of
    [validateProperty] begins with the path of the value it was found
    in; an error of [validateSchema] is the refusal of parameters that
    are no object, names a required parameter of the schema as missing,
    or begins with the key of a property of the schema. *)
Theorem errors_name_their_parameter (params : JsValue) (schema : ToolParameters) :
  (∀ prop value path,
     Forall (λ e, startsWith e path = true)
       (validateProperty inherited value prop path))
  ∧ Forall (λ e,
      e = "Parameters must be an object"
      ∨ (∃ req, req ∈ default [] (required schema)
                ∧ e = "Missing required parameter: " +:+ req)
      ∨ (∃ key prop, (key, prop) ∈ properties schema ∧ startsWith e key = true))
      (errors (validateSchema inherited params schema)).
Proof.
  split; [apply validateProperty_path|].
  unfold validateSchema. case_match; [repeat constructor|]. simpl.
  apply Forall_app_2.
  - destruct (required schema) as [reqs|]; [|by constructor].
    unfold requiredErrors. apply Forall_forall. intros e He.
    apply list_elem_of_In, in_flat_map in He as (req & Hreq & He).
    apply list_elem_of_In in Hreq, He.
    right. left. exists req. split; [done|].
    destruct (getProperty inherited params req);
      by (apply elem_of_nil in He || apply list_elem_of_singleton in He).
  - unfold propertyErrors. apply Forall_forall. intros e He.
    apply list_elem_of_In, in_flat_map in He as ([key prop] & Hin & He).
    apply list_elem_of_In in Hin, He.
    right. right. exists key, prop. split; [done|].
    pose proof (validateProperty_path prop (getProperty inherited params key) key)
      as Hpath.
    rewrite Forall_forall in Hpath.
    destruct (getProperty inherited params key) eqn:Eg;
      try (by apply Hpath); by apply elem_of_nil in He.
Qed.

Lemma flat_map_nil_elem {A B} (f : A → list B) (l : list A) x :
  flat_map f l = [] → x ∈ l → f x = [].
Proof.
  induction l as [|y l IH]; intros Hnil Hin; [by apply elem_of_nil in Hin|].
  cbn [flat_map] in Hnil. apply app_eq_nil in Hnil as [Hy Hl].
  apply elem_of_cons in Hin as [->|Hin]; [done|by apply IH].
Qed.

(** A value that [validateProperty] accepts is absent, or has the
    declared type and, where an [enum] is declared, is one of its
    strings. *)
Lemma validateProperty_accepts prop value path :
  validateProperty inherited value prop path = [] →
  value = JUndefined ∨ value = JNull
  ∨ (actualTypeOf value = ptype prop
     ∧ ∀ enum, penum prop = Some enum → ∃ s, value = JString s ∧ s ∈ enum).
Proof.
  destruct prop as [ptype_ pdesc penum_ pitems_ pprops_].
  assert (Hcase : ∀ (actual : string) (rest : list string) (found : list string → bool),
            (if bool_decide (actual ≠ ptype_)
                && negb (bool_decide (actual = "number")
                         && bool_decide (ptype_ = "number"))
             then [path +:+ ": expected " +:+ ptype_ +:+ ", got " +:+ actual]
             else (match penum_ with
                   | Some enum =>
                       if found enum then []
                       else [path +:+ ": value must be one of ["
                             +:+ join ", " enum +:+ "]"]
                   | None => []
                   end ++ rest)%list) = [] →
            actual = ptype_ ∧ ∀ enum, penum_ = Some enum → found enum = true).
  { intros actual rest found H.
    destruct (decide (actual = ptype_)) as [Heq|Hne].
    - split; [done|]. intros enum ->.
      rewrite bool_decide_eq_false_2 in H by (intros Hne; by apply Hne). cbn [andb] in H.
      destruct (found enum); [done|discriminate H].
    - rewrite bool_decide_eq_true_2 in H by done. cbn [andb] in H.
      destruct (bool_decide (actual = "number") && bool_decide (ptype_ = "number"))
        eqn:Hnum; [|discriminate H].
      apply andb_true_iff in Hnum as [Ha Hp].
      apply bool_decide_eq_true in Ha, Hp. congruence. }
  destruct value as [| |b|n|s|items|fields|]; [by left|by right; left|..];
    intros H; right; right; cbn [ToolValidator.ptype ToolValidator.penum];
    cbn in H.
  3: { apply (Hcase _ _ (λ enum, bool_decide (s ∈ enum))) in H as [Htype Henum].
       split; [exact Htype|]. intros enum Hsome. exists s. split; [done|].
       eapply bool_decide_eq_true_1, Henum, Hsome. }
  all: apply (Hcase _ _ (λ _, false)) in H as [Htype Henum];
    (split; [exact Htype|]); intros enum Hsome; discriminate (Henum enum Hsome).
Qed.

(** X7: what a valid call guarantees.  When [validateSchema] reports
    [valid], the parameters are an object or an array, every required
    name has a value, and every declared parameter that has a value
    other than [null] has the declared type and, where the schema lists
    an [enum], is one of its strings. *)
Theorem valid_call_well_typed (params : JsValue) (schema : ToolParameters) :
  valid (validateSchema inherited params schema) = true →
  ((∃ fields, params = JObject fields) ∨ (∃ items, params = JArray items))
  ∧ (∀ req, req ∈ default [] (required schema) →
       getProperty inherited params req ≠ JUndefined)
  ∧ (∀ key prop, (key, prop) ∈ properties schema →
       let value := getProperty inherited params key in
       value = JUndefined ∨ value = JNull
       ∨ (actualTypeOf value = ptype prop
          ∧ ∀ enum, penum prop = Some enum → ∃ s, value = JString s ∧ s ∈ enum)).
Proof.
  unfold validateSchema. intros Hvalid.
  destruct (bool_decide (typeof params ≠ "object") || isNull params) eqn:Hobj;
    [done|].
  cbn [valid] in Hvalid. apply bool_decide_eq_true, nil_length_inv in Hvalid.
  apply app_eq_nil in Hvalid as [Hreq Hprop].
  split; [|split].
  - destruct params; try discriminate Hobj; [right|left]; by eexists.
  - destruct (required schema) as [reqs|]; cbn [default];
      [|by intros req ?%elem_of_nil].
    intros req Hin. unfold not. intros Hmissing.
    unfold requiredErrors in Hreq.
    apply (flat_map_nil_elem _ _ req) in Hreq; [|done].
    cbn beta in Hreq. by rewrite Hmissing in Hreq.
  - intros key prop Hin. cbv zeta.
    unfold propertyErrors in Hprop.
    apply (flat_map_nil_elem _ _ (key, prop)) in Hprop; [|done].
    cbn beta iota in Hprop.
    destruct (getProperty inherited params key) eqn:Hvalue;
      try (by left); by apply validateProperty_accepts in Hprop.
Qed.

(** X8: parameters that the schema does not declare are ignored: a
    field whose key is neither required nor a property of the schema
    changes nothing in the result. *)
Theorem undeclared_parameters_ignored (schema : ToolParameters)
    (front back : list (string * JsValue)) (k : string) (value : JsValue) :
  k ∉ (properties schema).*1 →
  k ∉ default [] (required schema) →
  validateSchema inherited (JObject (front ++ (k, value) :: back)) schema
  = validateSchema inherited (JObject (front ++ back)) schema.
Proof.
  intros Hprop Hreq. unfold validateSchema. simpl.
  assert (Hr : ∀ reqs, k ∉ reqs →
            requiredErrors inherited (JObject (front ++ (k, value) :: back)) reqs
            = requiredErrors inherited (JObject (front ++ back)) reqs).
  { intros reqs Hk. unfold requiredErrors. apply flat_map_ext_in. intros req Hin.
    rewrite getProperty_middle; [done|]. by intros ->. }
  assert (Hp : propertyErrors inherited (JObject (front ++ (k, value) :: back))
                 (properties schema)
               = propertyErrors inherited (JObject (front ++ back))
                   (properties schema)).
  { unfold propertyErrors. apply flat_map_ext_in. intros [key prop] Hin.
    rewrite getProperty_middle; [done|]. intros ->. apply Hprop.
    apply list_elem_of_fmap. by exists (key, prop). }
  rewrite Hp. destruct (required schema) as [reqs|]; [|done].
  by rewrite Hr.
Qed.

End Validator.

Lemma valid_call_well_typed_witness :
  actualTypeOf (getProperty (λ _, JUndefined)
                  (JObject [("path", JString "a.txt"); ("encoding", JString "utf8")])
                  "encoding") = "string"
  ∧ ∃ s, getProperty (λ _, JUndefined)
           (JObject [("path", JString "a.txt"); ("encoding", JString "utf8")])
           "encoding" = JString s
         ∧ s ∈ ["utf8"; "ascii"].
Proof.
  destruct (valid_call_well_typed (λ _, JUndefined)
              (JObject [("path", JString "a.txt"); ("encoding", JString "utf8")])
              (parameters fileReadTool) eq_refl) as (_ & _ & Hprops).
  destruct (Hprops "encoding"
              (mkProperty "string" "Encoding" (Some ["utf8"; "ascii"]) None None))
    as [Hu|[Hn|[Htype Henum]]].
  - right. left.
  - discriminate Hu.
  - discriminate Hn.
  - split; [exact Htype|]. exact (Henum _ eq_refl).
Defined.

Lemma undeclared_parameters_ignored_witness :
  validateSchema (λ _, JUndefined)
    (JObject [("path", JString "a.txt"); ("verbose", JBool true)])
    (parameters fileReadTool)
  = validateSchema (λ _, JUndefined) (JObject [("path", JString "a.txt")])
      (parameters fileReadTool).
Proof.
  apply (undeclared_parameters_ignored (λ _, JUndefined) (parameters fileReadTool)
           [("path", JString "a.txt")] [] "verbose" (JBool true)).
  - vm_compute. intros H. repeat (apply elem_of_cons in H as [H|H]; [discriminate|]).
    by apply elem_of_nil in H.
  - vm_compute. intros H. repeat (apply elem_of_cons in H as [H|H]; [discriminate|]).
    by apply elem_of_nil in H.
Defined.

End ToolValidatorFacts.

Module ShellToolsFacts.
Import Js JsString EngineTypes ToolSystem ShellTools.

Section Tools.
Context `{!StringPrototype}.
Variable execute : string → option (list string) → ShellExecuteOptions
                   → Settled ShellExecuteResult.
Variable executePowerShell : string → Settled ShellExecuteResult.

Lemma isCommandDangerous_spec command :
  isCommandDangerous command = true
  ↔ ∃ dangerous, dangerous ∈ DANGEROUS_COMMANDS
                 ∧ includes (toLowerCase command) dangerous = true.
Proof.
  unfold isCommandDangerous. rewrite existsb_exists.
  split; intros (d & Hin & Hd); exists d; (split; [by apply list_elem_of_In|done]).
Qed.

(** X9: a flagged command never reaches the shell.  The shell tool
    hands nothing to the adapter when the command, lower-cased by
    [toLowerCase] whatever the characters it folds, contains one of the
    flagged strings, whatever the arguments, or when the context asks
    for a dry run; otherwise it makes exactly one call,
    with the command and the arguments as given, and succeeds exactly
    when the adapter returns the exit code zero.  Only the command is
    inspected, not the arguments, and the PowerShell tool inspects
    nothing: outside a dry run it runs every script. *)
Theorem flagged_command_never_runs (params : ShellExecuteParams)
    (context : ToolContext) :
  let out := shellExecute execute params context in
  let options :=
    {| optCwd := match cwd params with
                 | Some dir => Some dir
                 | None => workingDirectory context
                 end;
       optTimeout := default 60000 (timeout params) |} in
  (∀ dangerous, dangerous ∈ DANGEROUS_COMMANDS →
     includes (toLowerCase (command params)) dangerous = true →
     out.1 = [] ∧ success out.2 = false)
  ∧ (isDryRun context = true → out.1 = [])
  ∧ (Forall (λ dangerous, includes (toLowerCase (command params)) dangerous = false)
        DANGEROUS_COMMANDS →
     isDryRun context = false →
     out.1 = [Execute (command params) (args params) options]
     ∧ (success out.2 = true
        ↔ ∃ result, execute (command params) (args params) options = Resolved result
                    ∧ exitCode result = 0))
  ∧ (∀ ps, isDryRun context = false →
       (powerShellExecute executePowerShell ps context).1
       = [ExecutePowerShell (script ps)]).
Proof.
  intros out options. subst out. unfold shellExecute, powerShellExecute.
  split; [|split; [|split]].
  - intros dangerous Hin Hfound.
    rewrite (proj2 (isCommandDangerous_spec (command params))); [done|].
    by exists dangerous.
  - intros ->. by destruct (isCommandDangerous (command params)).
  - intros Hnone ->.
    assert (isCommandDangerous (command params) = false) as ->.
    { destruct (isCommandDangerous (command params)) eqn:Ed; [|done].
      apply isCommandDangerous_spec in Ed as (dangerous & Hin & Hfound).
      rewrite Forall_forall in Hnone. specialize (Hnone dangerous Hin). congruence. }
    split; [done|]. fold options. simpl.
    destruct (execute (command params) (args params) options) as [result|message];
      simpl.
    + rewrite bool_decide_eq_true. split; [by exists result|].
      by intros (? & [= <-] & ?).
    + split; [done|]. by intros (? & ? & _).
  - by intros ps ->.
Qed.

End Tools.

End ShellToolsFacts.

(** ** The tool orchestrator *)

Module OrchestratorFacts.
Import Js JsString EngineTypes Orchestrator JsMapFacts.

Lemma executions_app (a b : list Effect) :
  executions (a ++ b) = (executions a + executions b)%nat.
Proof. unfold executions. by rewrite List.filter_app, length_app. Qed.

Section Execute.
Variable inherited : string → JsValue.
Context {G : Type}.
Variable evaluate : G → Z → PermissionGuard.PermissionRequest
                    → PermissionGuard.PermissionResult * G.
Variable clock : nat → Clock.

Abbreviation checkPermission := (checkPermission inherited evaluate).
Abbreviation attempt := (attempt inherited evaluate clock).
Abbreviation retryLoop := (retryLoop inherited evaluate clock).
Abbreviation executeWithRetry := (executeWithRetry inherited evaluate clock).
Abbreviation execute := (execute inherited evaluate clock).

(** The effects of [checkPermission], and when it lets a call through. *)
Lemma checkPermission_spec guard events_ tool params now :
  let out := checkPermission guard events_ tool params now in
  executions out.1.1 = 0%nat
  ∧ match guard with
    | None => out.1.2 = true ∧ out.2 = None
    | Some g =>
        let request := permissionRequest inherited tool params in
        out.2 = Some (evaluate g now request).2
        ∧ (out.1.2 = true →
           PermissionGuard.granted (evaluate g now request).1 = true
           ∨ ∃ ask, onPermissionRequired events_ = Some ask ∧ ask request = true)
    end.
Proof.
  unfold Orchestrator.checkPermission. destruct guard as [g|]; [|done].
  destruct (evaluate g now _) as [r g'] eqn:E. simpl.
  destruct (PermissionGuard.granted r) eqn:Eg.
  - split; [done|]. split; [done|]. by left.
  - destruct (onPermissionRequired events_) as [ask|] eqn:Ea; simpl.
    + split; [done|]. split; [done|]. intros Hask. right. by exists ask.
    + by split.
Qed.

(** One invocation of [executeWithRetry], check by check. *)
Lemma attempt_spec (st : State G) request retriesLeft :
  let out := attempt st request retriesLeft in
  let name := toolName request in
  let t := clock (attempts st) in
  let checked := RateLimiter.check name (checkTime t) (rateLimiter st) in
  attempts out.2 = S (attempts st)
  ∧ finalConfig out.2 = finalConfig st
  ∧ tools out.2 = tools st
  ∧ events out.2 = events st
  ∧ (executions out.1.1 = 0%nat
     ∧ (rateLimiter out.2 = rateLimiter st ∨ rateLimiter out.2 = checked.2)
     ∧ (∃ message,
          out.1.2 = Finished {| success := false; result := None;
                                error := Some message;
                                duration := endTime t - startTime t;
                                retries := 0 |})
     ∨ executions out.1.1 = 1%nat
       ∧ rateLimiter out.2 = RateLimiter.record name (recordTime t) checked.2
       ∧ (∃ tool,
            JsMap.get (tools st) name = Some tool
            ∧ ToolValidator.valid
                (ToolValidator.validate inherited (schemas (tools st)) name
                   (params request)) = true
            ∧ RateLimiter.allowed checked.1 = true
            ∧ (checkPermission (permissionGuard st) (events st) tool (params request)
                 (evaluateTime t)).1.2 = true
            ∧ match race (ToolSystem.execute tool (attempts st) (params request)
                            (context request)) with
              | Resolved toolResult =>
                  out.1.2 = Finished {| success := ToolSystem.success toolResult;
                                        result := Some toolResult;
                                        error := None;
                                        duration := endTime t - startTime t;
                                        retries := default 0 (retryCount (finalConfig st))
                                                   - retriesLeft |}
              | Rejected message => out.1.2 = Thrown message
              end)).
Proof.
  intros out name t checked. subst out. unfold Orchestrator.attempt.
  fold name. fold t.
  destruct (JsMap.get (tools st) name) as [tool|] eqn:Etool.
  2:{ repeat split; try done. left. split; [done|]. split; [by left|]. by eexists. }
  destruct (ToolValidator.valid _) eqn:Evalid; simpl.
  2:{ repeat split; try done. left. split; [done|]. split; [by left|]. by eexists. }
  fold checked. destruct checked as [rateLimit limiter] eqn:Echeck.
  destruct (RateLimiter.allowed rateLimit) eqn:Eallowed; simpl.
  2:{ repeat split; try done. left.
      split; [by destruct (onRateLimited (events st))|].
      split; [by right|]. by eexists. }
  pose proof (checkPermission_spec (permissionGuard st) (events st) tool
                (params request) (evaluateTime t)) as [Hquiet _].
  destruct (checkPermission (permissionGuard st) (events st) tool (params request)
              (evaluateTime t)) as [[asked hasPermission] guard] eqn:Eperm.
  cbn [fst snd] in Hquiet.
  destruct hasPermission; simpl.
  2:{ repeat split; try done. left. split; [done|]. split; [by right|]. by eexists. }
  destruct (onBeforeExecute (events st)) as [shouldContinue|] eqn:Ebefore; simpl.
  - destruct (shouldContinue request) eqn:Econt; simpl.
    + destruct (race _) as [toolResult|message] eqn:Erace; simpl;
        (repeat split; try done); right;
        (split; [rewrite !executions_app, Hquiet; simpl;
                 by destruct (onAfterExecute (events st))|]);
        (split; [done|]); exists tool; rewrite ?Erace, ?Eperm; done.
    + repeat split; try done. left.
      split; [by rewrite executions_app, Hquiet|]. split; [by right|]. by eexists.
  - destruct (race _) as [toolResult|message] eqn:Erace; simpl;
      (repeat split; try done); right;
      (split; [rewrite !executions_app, Hquiet; simpl;
               by destruct (onAfterExecute (events st))|]);
      (split; [done|]); exists tool; rewrite ?Erace, ?Eperm; done.
Qed.

(** The loop of retries: how many invocations it makes, how many of
    them run the tool, and what [retries] the result reports. *)
Lemma executions_gaveUp (st : State G) request k retriesLeft message :
  executions (gaveUp clock st request k retriesLeft message).1 = 0%nat.
Proof. unfold gaveUp. simpl. by destruct (onAfterExecute (events st)). Qed.

Lemma retries_gaveUp (st : State G) request k retriesLeft message :
  retries (gaveUp clock st request k retriesLeft message).2
  = default 0 (retryCount (finalConfig st)) - retriesLeft.
Proof. done. Qed.

Lemma retryLoop_accounting request : ∀ n (st : State G) retriesLeft,
  let out := retryLoop n st request retriesLeft in
  let made := (attempts out.2 - attempts st)%nat in
  (1 ≤ made ≤ S n)%nat
  ∧ (attempts st < attempts out.2)%nat
  ∧ finalConfig out.2 = finalConfig st
  ∧ (executions out.1.1 = made ∨ S (executions out.1.1) = made)
  ∧ retries out.1.2
    = (if decide (executions out.1.1 = made)
       then default 0 (retryCount (finalConfig st)) - retriesLeft
            + Z.of_nat (made - 1)
       else 0)
  ∧ (S (executions out.1.1) = made →
     success out.1.2 = false ∧ result out.1.2 = None).
Proof.
  induction n as [|n IH]; intros st retriesLeft; cbv zeta;
    cbn [Orchestrator.retryLoop];
    pose proof (attempt_spec st request retriesLeft) as Hspec; cbv zeta in Hspec;
    destruct (attempt st request retriesLeft) as [[effects outcome] st'];
    cbn [fst snd] in Hspec;
    destruct Hspec as (Hn & Hcfg & _ & _ & Hcase);
    assert (Hone : (S (attempts st) - attempts st)%nat = 1%nat) by lia;
    (destruct Hcase as [(Hex & _ & message & ->)
                       |(Hex & _ & tool & _ & _ & _ & _ & Hrace)];
     [unfold refused; cbn [fst snd retries success result]; rewrite Hn, Hone, Hex;
      rewrite decide_False by lia; repeat split; (lia || done || by right)|]);
    (destruct (race _) as [toolResult|message]; subst outcome;
     [cbn [fst snd retries]; rewrite Hn, Hone, Hex, decide_True by done;
      repeat split; (lia || done || by left)|]).
  - pose proof (executions_gaveUp st' request (attempts st) retriesLeft message) as Hq.
    pose proof (retries_gaveUp st' request (attempts st) retriesLeft message) as Hr.
    destruct (gaveUp clock st' request (attempts st) retriesLeft message)
      as [after r]. cbn [fst snd] in *.
    rewrite executions_app, Hex, Hq, Hn, Hone, Hr, Hcfg, decide_True by done.
    repeat split; (lia || done || by left).
  - destruct (retryable message).
    + specialize (IH st' (retriesLeft - 1)). cbv zeta in IH.
      destruct (retryLoop n st' request (retriesLeft - 1)) as [[more r] st''].
      cbn [fst snd] in *.
      destruct IH as (Hmade & Hlt & Hcfg' & Hexs & Hretries & Hrefused).
      rewrite !executions_app, Hex.
      change (executions [Sleep _]) with 0%nat.
      rewrite Hn, Hcfg in *. rewrite Hcfg'.
      split; [lia|]. split; [lia|]. split; [done|]. split; [lia|].
      split; [|intros Hlast; apply Hrefused; lia].
      rewrite Hretries.
      destruct (decide (executions more = (attempts st'' - S (attempts st))%nat));
        [rewrite decide_True by lia | rewrite decide_False by lia]; lia.
    + pose proof (executions_gaveUp st' request (attempts st) retriesLeft message) as Hq.
      pose proof (retries_gaveUp st' request (attempts st) retriesLeft message) as Hr.
      destruct (gaveUp clock st' request (attempts st) retriesLeft message)
        as [after r]. cbn [fst snd] in *.
      rewrite executions_app, Hex, Hq, Hn, Hone, Hr, Hcfg, decide_True by done.
      repeat split; (lia || done || by left).
Qed.

(** X10: the four checks.  One invocation of [executeWithRetry] runs the
    tool at most once, and only when the tool is registered, the
    parameters are valid, the rate limiter allows the call and the
    permission is given: by the guard, or else by [onPermissionRequired].
    The call is recorded in the rate limiter exactly when the tool is
    run, after the check that allowed it; a request that is turned away
    is not recorded, runs nothing, and reports [success: false] with no
    retries. *)
Theorem checks_before_execution (st : State G) (request : ExecutionRequest)
    (retriesLeft : Z) :
  let out := attempt st request retriesLeft in
  let name := toolName request in
  let t := clock (attempts st) in
  let checked := RateLimiter.check name (checkTime t) (rateLimiter st) in
  (executions out.1.1 = 0%nat
   ∧ (rateLimiter out.2 = rateLimiter st ∨ rateLimiter out.2 = checked.2)
   ∧ ∃ message,
       out.1.2 = Finished {| success := false; result := None;
                             error := Some message;
                             duration := endTime t - startTime t; retries := 0 |})
  ∨ (executions out.1.1 = 1%nat
     ∧ rateLimiter out.2 = RateLimiter.record name (recordTime t) checked.2
     ∧ RateLimiter.allowed checked.1 = true
     ∧ ∃ tool,
         JsMap.get (tools st) name = Some tool
         ∧ ToolValidator.valid
             (ToolValidator.validate inherited (schemas (tools st)) name
                (params request)) = true
         ∧ match permissionGuard st with
           | None => True
           | Some g =>
               let asked := permissionRequest inherited tool (params request) in
               PermissionGuard.granted (evaluate g (evaluateTime t) asked).1 = true
               ∨ ∃ ask, onPermissionRequired (events st) = Some ask
                        ∧ ask asked = true
           end).
Proof.
  intros out name t checked.
  destruct (attempt_spec st request retriesLeft)
    as (_ & _ & _ & _ & [Hrefused|(Hex & Hrec & tool & Htool & Hvalid & Hallowed
                                   & Hperm & _)]).
  - by left.
  - right. split; [done|]. split; [done|]. split; [done|].
    exists tool. split; [done|]. split; [done|].
    pose proof (checkPermission_spec (permissionGuard st) (events st) tool
                  (params request) (evaluateTime t)) as [_ Hguard].
    destruct (permissionGuard st) as [g|]; [|done].
    destruct Hguard as [_ Hguard]. by apply Hguard.
Qed.

(** X11: the account of the retries.  [execute] invokes
    [executeWithRetry] at least once and at most [retryCount + 1]
    times, and the tool is run in every invocation or in all but one.
    When it is run in every invocation, [retries] is the number of
    invocations before the last; when one invocation turned the request
    away, the result is a failure without a tool result and [retries]
    is zero, however many retries came before.  An error whose message
    contains [Permission] or [Validation] is not retried, at whichever
    invocation it is thrown: the invocation that meets it is the last
    and reports it; an invocation that meets another error with
    retries left sleeps and returns what the next invocation returns. *)
Theorem retry_accounting (st : State G) (request : ExecutionRequest) :
  let out := execute st request in
  let made := (attempts out.2 - attempts st)%nat in
  let budget := Z.to_nat (default 0 (retryCount (finalConfig st))) in
  (1 ≤ made ≤ S budget)%nat
  ∧ (executions out.1.1 = made ∨ S (executions out.1.1) = made)
  ∧ retries out.1.2
    = (if decide (executions out.1.1 = made) then Z.of_nat (made - 1) else 0)
  ∧ (S (executions out.1.1) = made →
     success out.1.2 = false ∧ result out.1.2 = None)
  ∧ (∀ (at_ : State G) retriesLeft message,
       let first := attempt at_ request retriesLeft in
       let all := executeWithRetry at_ request retriesLeft in
       first.1.2 = Thrown message →
       retryable message = false →
       attempts all.2 = S (attempts at_)
       ∧ executions all.1.1 = executions first.1.1
       ∧ error all.1.2 = Some message
       ∧ success all.1.2 = false)
  ∧ (∀ (at_ : State G) retriesLeft message,
       let first := attempt at_ request retriesLeft in
       let next := executeWithRetry first.2 request (retriesLeft - 1) in
       first.1.2 = Thrown message →
       retryable message = true →
       0 < retriesLeft →
       executeWithRetry at_ request retriesLeft
       = (first.1.1 ++ [Sleep (default 0 (retryDelay (finalConfig first.2)))]
            ++ next.1.1,
          next.1.2, next.2)).
Proof.
  intros out made budget. subst out made budget.
  unfold Orchestrator.execute, Orchestrator.executeWithRetry.
  set (rc := default 0 (retryCount (finalConfig st))).
  destruct (retryLoop_accounting request (Z.to_nat rc) st rc)
    as (Hmade & _ & _ & Hexs & Hretries & Hrefused).
  split; [done|]. split; [done|]. split; [|split; [done|split]].
  - rewrite Hretries. fold rc. case_decide; lia.
  - intros at_ retriesLeft message Hthrown Hno.
    pose proof (attempt_spec at_ request retriesLeft) as Hspec. simpl in Hspec.
    pose proof (executions_gaveUp (attempt at_ request retriesLeft).2 request
                  (attempts at_) retriesLeft message) as Hq.
    destruct (Z.to_nat retriesLeft) as [|n]; cbn [Orchestrator.retryLoop];
      destruct (attempt at_ request retriesLeft) as [[effects outcome] st'];
      cbn [fst snd] in *; subst outcome; rewrite ?Hno;
      destruct (gaveUp clock st' request (attempts at_) retriesLeft message)
        as [after r] eqn:Eg; cbn [fst snd] in *;
      rewrite executions_app, Hq;
      unfold gaveUp in Eg; injection Eg as _ <-; cbn [error success];
      destruct Hspec as (-> & _); (repeat split; (lia || done)).
  - intros at_ retriesLeft message Hthrown Hyes Hleft.
    assert (Z.to_nat retriesLeft = S (Z.to_nat (retriesLeft - 1))) as -> by lia.
    cbn [Orchestrator.retryLoop].
    destruct (attempt at_ request retriesLeft) as [[effects outcome] st'].
    cbn [fst snd] in *. subst outcome. rewrite Hyes.
    by destruct (retryLoop (Z.to_nat (retriesLeft - 1)) st' request (retriesLeft - 1))
      as [[more r] st''].
Qed.

End Execute.

(** X12: registering a tool twice.  [registerTool] of the
    orchestrator puts the tool under its name whatever was there: a
    tool of the same name is replaced in its place, so the list of
    definitions keeps its length and its order of names; a new name is
    added at the end.  Other names are not touched. *)
Theorem registerTool_replaces {G} (tool : ToolSystem.Tool) (st : State G) :
  let st' := registerTool tool st in
  JsMap.get (tools st') (ToolSystem.name tool) = Some tool
  ∧ (∀ other, other ≠ ToolSystem.name tool →
       JsMap.get (tools st') other = JsMap.get (tools st) other)
  ∧ (if JsMap.has (tools st) (ToolSystem.name tool)
     then (tools st').*1 = (tools st).*1
          ∧ length (getToolDefinitions st') = length (getToolDefinitions st)
     else getToolDefinitions st'
          = getToolDefinitions st ++ [ToolSystem.definitionOf tool]).
Proof.
  intros st'. subst st'. unfold registerTool, getToolDefinitions, JsMap.values.
  cbn [tools]. split; [apply get_set|]. split; [intros; by apply get_set_ne|].
  destruct (JsMap.has (tools st) (ToolSystem.name tool)) eqn:Ehas.
  - apply has_spec in Ehas. destruct (set_old (tools st) _ tool Ehas) as [Hkeys Hlen].
    split; [done|]. by rewrite ?length_map, ?length_fmap.
  - assert (Hnew : ToolSystem.name tool ∉ (tools st).*1).
    { intros Hin. apply has_spec in Hin. congruence. }
    rewrite set_new by done. by rewrite fmap_app, map_app.
Qed.

(** X13: the orchestrator in front of the enhanced guard.  The
    request that [checkPermission] builds carries the name of the tool
    as its [action], and the guard checks a command only when the action
    is [shell].  So for every tool of another name, such as
    [shell_execute], the command check lets the request through, and the
    answer of the guard is the same whatever its lists of denied and
    allowed commands hold. *)
Theorem command_lists_not_consulted `{!StringPrototype}
    (inherited : string → JsValue)
    (hostnameOf : string → option string) (g : PermissionGuard.Guard) (now : Z)
    (tool : ToolSystem.Tool) (params : JsValue) (denied allowed_ : list string) :
  ToolSystem.name tool ≠ "shell" →
  let request := permissionRequest inherited tool params in
  let other :=
    PermissionGuard.withWhitelist g
      (GuardUse.withCommands (PermissionGuard.whitelist g) denied allowed_) in
  PermissionGuard.commandStage g request = None
  ∧ (PermissionGuard.evaluate hostnameOf other now request).1
    = (PermissionGuard.evaluate hostnameOf g now request).1.
Proof.
  intros Hname request other.
  assert (Hcommand : ∀ g', PermissionGuard.commandStage g' request = None).
  { intros g'. unfold PermissionGuard.commandStage.
    destruct (PermissionGuard.truthy _); [|done].
    change (PermissionGuard.action request) with (ToolSystem.name tool).
    by rewrite bool_decide_eq_false_2. }
  split; [apply Hcommand|].
  unfold PermissionGuard.evaluate, PermissionGuard.whitelistStage.
  rewrite !Hcommand.
  change (PermissionGuard.pathStage other request)
    with (PermissionGuard.pathStage g request).
  change (PermissionGuard.domainStage hostnameOf other request)
    with (PermissionGuard.domainStage hostnameOf g request).
  destruct (PermissionGuard.pathStage g request); [done|].
  destruct (PermissionGuard.domainStage hostnameOf g request); [done|].
  unfold PermissionGuard.policyStage.
  change (PermissionGuard.approvalPolicy other)
    with (PermissionGuard.approvalPolicy g).
  change (PermissionGuard.checkSessionLimit other now)
    with (PermissionGuard.checkSessionLimit g now).
  destruct (bool_decide _); [done|]. destruct (negb _); [done|].
  destruct (PermissionGuard.checkSessionLimit g now _) as [ok session].
  destruct ok; [|done]. simpl. by destruct (PermissionGuard.callback g).
Qed.

(** The inputs that follow are ASCII strings. *)
#[local] Existing Instance JsString.asciiStrings.

Lemma command_lists_not_consulted_witness :
  let tool :=
    {| ToolSystem.schema :=
         {| ToolValidator.name := "shell_execute";
            ToolValidator.description :=
              "Execute a shell command on the system. Use with caution.";
            ToolValidator.parameters :=
              {| ToolValidator.properties :=
                   [("command",
                     ToolValidator.mkProperty "string" "The command to execute"
                       None None None)];
                 ToolValidator.required := Some ["command"] |} |};
       ToolSystem.riskLevel := PermissionGuard.SYSTEM;
       ToolSystem.execute := λ _ _ _, EnhancedEngine.Late |} in
  let params := JObject [("command", JString "format c:")] in
  let request := permissionRequest (λ _, JUndefined) tool params in
  ToolSystem.name tool ≠ "shell"
  ∧ PermissionGuard.target request = Some "format c:"
  ∧ PermissionGuard.allowed
      (PermissionGuard.isCommandAllowed
         (PermissionGuard.whitelist Examples.defaultGuard) "format c:") = false
  ∧ PermissionGuard.commandStage Examples.defaultGuard request = None.
Proof.
  intros tool params request.
  split; [discriminate|]. split; [reflexivity|]. split; [by vm_compute|].
  apply (command_lists_not_consulted (λ _, JUndefined) (λ _, None)
           Examples.defaultGuard 0 tool params [] []).
  discriminate.
Defined.

End OrchestratorFacts.

(** ** More on the enhanced permission guard *)

Module PermissionGuardFacts.
Import JsString PermissionGuard GuardUse JsStringFacts Examples.

Lemma truthy_nonempty t : t ≠ "" → truthy (Some t) = Some t.
Proof. by destruct t. Qed.

Section Evaluate.
Context `{!StringPrototype}.
Variable hostnameOf : string → option string.

(** What [isPathAllowed] decides. *)
Lemma isPathAllowed_spec (w : WhitelistConfig) (t : string) :
  allowed (isPathAllowed w t) = true
  ↔ Forall (λ d, startsWith (toLowerCase t) (toLowerCase d) ≠ true) (deniedPaths w)
    ∧ (allowedPaths w = []
       ∨ Exists (λ a, startsWith (toLowerCase t) (toLowerCase a) = true)
           (allowedPaths w)).
Proof.
  unfold isPathAllowed.
  destruct (list_find _ (deniedPaths w)) as [[i d]|] eqn:Efind.
  - apply list_find_Some in Efind as (Hi & Hd & _). simpl. split; [done|].
    intros [Hall _]. rewrite Forall_forall in Hall.
    exfalso. apply (Hall d); [|done]. by eapply list_elem_of_lookup_2.
  - apply list_find_None in Efind.
    destruct (allowedPaths w) as [|a l] eqn:Ea.
    + simpl. split; [|done]. intros _. split; [done|by left].
    + destruct (existsb (λ a0, startsWith (toLowerCase t) (toLowerCase a0)) (a :: l))
        eqn:Ex; cbn [negb andb allowed bool_decide]; simpl.
      * split; [|done]. intros _. split; [done|]. right.
        apply existsb_exists in Ex as (x & Hin & Hx).
        apply Exists_exists. exists x. split; [|done]. by apply list_elem_of_In.
      * split; [done|]. intros [_ [Hnil|Hex]]; [done|].
        apply Exists_exists in Hex as (x & Hin & Hx).
        assert (existsb (λ a0, startsWith (toLowerCase t) (toLowerCase a0)) (a :: l)
                = true) as Hyes.
        { apply existsb_exists. exists x. split; [|done]. by apply list_elem_of_In. }
        congruence.
Qed.

Abbreviation evaluate := (evaluate hostnameOf).
Abbreviation evaluateAll := (evaluateAll hostnameOf).
Abbreviation needsConfirmation := (needsConfirmation hostnameOf).

(** [evaluate] never changes the configuration of the guard. *)
Lemma evaluate_session g now request :
  ∃ session, (evaluate g now request).2 = withSession g session.
Proof.
  exists (sessionState (evaluate g now request).2).
  unfold PermissionGuard.evaluate, policyStage.
  destruct (whitelistStage hostnameOf g request); [by destruct g|].
  repeat case_bool_decide; simpl; try (by destruct g);
    destruct (checkSessionLimit g now (toolName request)) as [ok session];
    destruct ok; simpl; try done; by destruct (callback g).
Qed.

(** A request that needs a confirmation: the session check, then the
    callback. *)
Lemma evaluate_confirm g now request cb :
  needsConfirmation g request →
  callback g = Some cb →
  let s := sessionState g in
  let kept := if decide (sessionTimeout g < now - lastActivity s)
              then ∅ else approvals s in
  let count := default 0 (kept !! toolName request) in
  evaluate g now request
  = if decide (maxApprovalsPerSession g ≤ count)
    then (limitReached (toolName request),
          withSession g {| approvals := kept; lastActivity := now |})
    else (asked cb request,
          withSession g {| approvals := <[toolName request := count + 1]> kept;
                           lastActivity := now |}).
Proof.
  intros (Hpass & Hauto & Hconfirm) Hcb s kept count.
  unfold PermissionGuard.evaluate, policyStage. rewrite Hpass.
  rewrite bool_decide_eq_false_2 by done.
  rewrite bool_decide_eq_true_2 by done. simpl.
  unfold checkSessionLimit. fold s. fold kept. fold count.
  destruct (decide (maxApprovalsPerSession g ≤ count)); simpl; [done|].
  by rewrite Hcb.
Qed.

Lemma session_run cb toolName_ : ∀ requests g,
  callback g = Some cb →
  Forall (λ p, toolName p.2 = toolName_ ∧ needsConfirmation g p.2) requests →
  oneSession (sessionTimeout g) (lastActivity (sessionState g)) requests →
  (evaluateAll g requests).1
  = imap (λ i p,
      if decide (Z.of_nat i
                 < maxApprovalsPerSession g
                   - default 0 (approvals (sessionState g) !! toolName_))
      then asked cb p.2 else limitReached toolName_) requests.
Proof.
  induction requests as [|[now request] requests IH]; intros g Hcb Hall Hone; [done|].
  apply Forall_cons in Hall as [[Htool Hneeds] Hall]. simpl in Htool, Hneeds.
  destruct Hone as [Hgap Hone].
  simpl. rewrite (evaluate_confirm g now request cb Hneeds Hcb). cbv zeta.
  rewrite (decide_False (P := sessionTimeout g < now - _)) by lia. rewrite Htool.
  set (count := default 0 (approvals (sessionState g) !! toolName_)).
  destruct (decide (maxApprovalsPerSession g ≤ count)) as [Hfull|Hroom].
  - match goal with
    | |- context [GuardUse.evaluateAll _ ?g' _] => specialize (IH g' Hcb Hall Hone)
    end.
    destruct (GuardUse.evaluateAll _ _ requests) as [rs g'] eqn:E.
    simpl in IH. simpl. rewrite decide_False by lia. f_equal.
    rewrite IH. apply imap_ext. intros i [now' r'] _. simpl.
    fold count. by rewrite !decide_False by lia.
  - match goal with
    | |- context [GuardUse.evaluateAll _ ?g' _] => specialize (IH g' Hcb Hall Hone)
    end.
    destruct (GuardUse.evaluateAll _ _ requests) as [rs g'] eqn:E.
    simpl in IH. simpl. rewrite decide_True by lia. f_equal.
    rewrite IH. apply imap_ext. intros i [now' r'] _. simpl.
    rewrite lookup_insert_eq. simpl. fold count.
    destruct (decide (Z.of_nat i < maxApprovalsPerSession g - (count + 1)));
      [by rewrite decide_True by lia | by rewrite decide_False by lia].
Qed.

(** X14: the session quota.  Requests for one tool that need a
    confirmation and arrive in one session are put to the callback
    until the tool's count reaches [maxApprovalsPerSession]; every
    later one is refused for the quota, without the callback being
    asked.  A request that the user denies uses up quota like one that
    is granted. *)
Theorem session_quota (g : Guard) (cb : PermissionRequest → bool) (tool : string)
    (requests : list (Z * PermissionRequest)) :
  callback g = Some cb →
  Forall (λ p, toolName p.2 = tool ∧ needsConfirmation g p.2) requests →
  oneSession (sessionTimeout g) (lastActivity (sessionState g)) requests →
  let used := default 0 (approvals (sessionState g) !! tool) in
  (evaluateAll g requests).1
  = imap (λ i p, if decide (Z.of_nat i < maxApprovalsPerSession g - used)
                 then asked cb p.2 else limitReached tool) requests.
Proof. intros Hcb Hall Hone used. by apply session_run. Qed.

(** X15: a session that idles for more than [sessionTimeout] starts
    afresh: the counts of all tools are dropped, so the next request
    that needs a confirmation is put to the callback whatever was
    counted before, and the session then holds that one approval. *)
Theorem idle_session_reset (g : Guard) (cb : PermissionRequest → bool) (now : Z)
    (request : PermissionRequest) :
  callback g = Some cb →
  needsConfirmation g request →
  sessionTimeout g < now - lastActivity (sessionState g) →
  0 < maxApprovalsPerSession g →
  evaluate g now request
  = (asked cb request,
     withSession g {| approvals := {[ toolName request := 1 ]};
                      lastActivity := now |}).
Proof.
  intros Hcb Hneeds Hidle Hmax.
  rewrite (evaluate_confirm g now request cb Hneeds Hcb). cbv zeta.
  rewrite (decide_True (P := sessionTimeout g < now - _)) by done.
  rewrite lookup_empty. simpl. by rewrite decide_False by lia.
Qed.

(** X16: what [evaluate] leaves alone.  It never changes the
    configuration or the callback of the guard; a request that a
    whitelist check denies, that is auto-approved or that the policy
    settles by default leaves the session as it was; a request that
    needs a confirmation always moves [lastActivity] to now, also when
    it is refused. *)
Theorem evaluate_frame (g : Guard) (now : Z) (request : PermissionRequest) :
  let out := evaluate g now request in
  (∃ session, out.2 = withSession g session)
  ∧ (needsConfirmation g request → lastActivity (sessionState out.2) = now)
  ∧ (¬ needsConfirmation g request → out.2 = g).
Proof.
  intros out. subst out. split; [apply evaluate_session|].
  unfold GuardUse.needsConfirmation, PermissionGuard.evaluate, policyStage.
  destruct (whitelistStage hostnameOf g request) as [r|].
  { split; [by intros [? _]|done]. }
  destruct (decide (riskLevel request ∈ autoApprove (approvalPolicy g))) as [Ha|Ha].
  { rewrite bool_decide_eq_true_2 by done. split; [by intros (_ & ? & _)|done]. }
  rewrite bool_decide_eq_false_2 by done.
  destruct (decide (riskLevel request ∈ requireConfirmation (approvalPolicy g)))
    as [Hc|Hc].
  - rewrite bool_decide_eq_true_2 by done. simpl.
    split; [|by intros []].
    intros _. unfold checkSessionLimit.
    case_decide; simpl; [done|]. by destruct (callback g).
  - rewrite bool_decide_eq_false_2 by done. simpl.
    split; [by intros (_ & _ & ?)|done].
Qed.

(** X17: the path lists.  A target is let through by [isPathAllowed]
    exactly when its lower-cased form starts with no lower-cased entry
    of [deniedPaths] and, if [allowedPaths] is not empty, starts with
    one of its entries.  A request whose target is not let through (and
    does not start with [http]) is refused whatever its tier, without
    a backup, and leaves the guard as it was; unless the command check
    refused it first, the reason is that of the path check. *)
Theorem path_lists (g : Guard) (now : Z) (request : PermissionRequest) (t : string) :
  target request = Some t →
  t ≠ "" →
  startsWith t "http" = false →
  let check := isPathAllowed (whitelist g) t in
  (allowed check = true
   ↔ Forall (λ d, startsWith (toLowerCase t) (toLowerCase d) ≠ true)
       (deniedPaths (whitelist g))
     ∧ (allowedPaths (whitelist g) = []
        ∨ Exists (λ a, startsWith (toLowerCase t) (toLowerCase a) = true)
            (allowedPaths (whitelist g))))
  ∧ (allowed check = false →
     granted (evaluate g now request).1 = false
     ∧ requiresBackup (evaluate g now request).1 = false
     ∧ (evaluate g now request).2 = g
     ∧ (action request ≠ "shell" →
        reason (evaluate g now request).1 = checkReason check)).
Proof.
  intros Htarget Hne Hhttp check. split; [apply isPathAllowed_spec|].
  intros Hdenied.
  unfold PermissionGuard.evaluate, whitelistStage, commandStage, pathStage.
  rewrite Htarget, (truthy_nonempty t Hne), Hhttp. fold check. rewrite Hdenied.
  simpl.
  destruct (bool_decide (action request = "shell")
            && negb (allowed (isCommandAllowed (whitelist g) t))) eqn:Ecmd; simpl.
  - repeat split; try done. intros Hshell.
    by rewrite bool_decide_eq_false_2 in Ecmd.
  - done.
Qed.

End Evaluate.

(** The inputs that follow are ASCII strings. *)
#[local] Existing Instance asciiStrings.

(** A guard that allows three approvals a tool and session. *)
Lemma session_quota_witness :
  let g := setCallback (λ _, true)
             (createEnhancedPermissionGuard
                {| cfgApprovalPolicy := None; cfgWhitelist := None;
                   cfgSessionTimeout := Some 1000;
                   cfgMaxApprovalsPerSession := Some 2 |} 0) in
  let request :=
    {| toolName := "file_delete"; action := "delete";
       target := Some "/home/user/old.txt"; riskLevel := DELETE;
       description := "Delete a file" |} in
  granted <$> (evaluateAll (λ _, None) g
                 [(100, request); (200, request); (300, request); (400, request)]).1
  = [true; true; false; false].
Proof.
  intros g request.
  rewrite (session_quota (λ _, None) g (λ _, true) "file_delete"
             [(100, request); (200, request); (300, request); (400, request)]).
  - reflexivity.
  - reflexivity.
  - repeat constructor; vm_compute; try done;
      intros H; repeat (apply elem_of_cons in H as [H|H]; [discriminate|]);
      by apply elem_of_nil in H.
  - simpl. lia.
Defined.

Lemma idle_session_reset_witness :
  let g := setCallback (λ _, true)
             (createEnhancedPermissionGuard
                {| cfgApprovalPolicy := None; cfgWhitelist := None;
                   cfgSessionTimeout := Some 1000;
                   cfgMaxApprovalsPerSession := Some 1 |} 0) in
  let request :=
    {| toolName := "file_delete"; action := "delete";
       target := Some "/home/user/old.txt"; riskLevel := DELETE;
       description := "Delete a file" |} in
  let used := (evaluate (λ _, None) g 100 request).2 in
  granted (evaluate (λ _, None) used 200 request).1 = false
  ∧ granted (evaluate (λ _, None) used 1101 request).1 = true.
Proof.
  intros g request used. split; [reflexivity|].
  rewrite (idle_session_reset (λ _, None) used (λ _, true) 1101 request).
  - reflexivity.
  - reflexivity.
  - split; [reflexivity|]. split.
    + intros H. apply list_elem_of_singleton in H. discriminate.
    + right. left.
  - vm_compute. reflexivity.
  - vm_compute. reflexivity.
Defined.

Lemma path_lists_witness :
  let request :=
    {| toolName := "file_read"; action := "read";
       target := Some "/ETC/passwd"; riskLevel := READ;
       description := "Read a file" |} in
  granted (evaluate (λ _, None) defaultGuard 0 request).1 = false
  ∧ reason (evaluate (λ _, None) defaultGuard 0 request).1
    = Some "Path is in denied list: /etc".
Proof.
  intros request.
  destruct (path_lists (λ _, None) defaultGuard 0 request "/ETC/passwd")
    as [_ H]; try reflexivity; [discriminate|].
  destruct H as (Hg & _ & _ & Hr); [reflexivity|].
  split; [exact Hg|]. rewrite Hr; [reflexivity|discriminate].
Defined.

End PermissionGuardFacts.

(** ** The basic permission guard *)

Module BasicGuardFacts.
Import JsString PermissionGuard BasicGuard.

(** A string without a dot. *)
Abbreviation dotFree := (λ s : string, splitDots s = [s]).

Lemma append_cons c (a b : string) : String c a +:+ b = String c (a +:+ b).
Proof. done. Qed.

Lemma splitDots_nonempty s : splitDots s ≠ [].
Proof.
  induction s as [|c s IH]; [done|]. simpl.
  case_bool_decide; [done|]. by destruct (splitDots s).
Qed.

Lemma replaceColonsAndDots_dotFree iso : dotFree (replaceColonsAndDots iso).
Proof.
  induction iso as [|c iso IH]; [done|]. simpl.
  rewrite IH.
  destruct (bool_decide (c = ":"%char) || bool_decide (c = "."%char)) eqn:E.
  - by rewrite bool_decide_eq_false_2.
  - apply orb_false_iff in E as [_ E]. by rewrite E.
Qed.

(** Splitting at the dots is compatible with putting a dot between two
    strings. *)
Lemma splitDots_dot a b :
  splitDots (a +:+ "." +:+ b) = splitDots a ++ splitDots b.
Proof.
  induction a as [|c a IH].
  - done.
  - rewrite append_cons. simpl. rewrite IH.
    case_bool_decide; [done|].
    pose proof (splitDots_nonempty a). by destruct (splitDots a).
Qed.

Lemma join_splitDots s : ToolValidator.join "." (splitDots s) = s.
Proof.
  induction s as [|c s IH]; [done|]. simpl.
  pose proof (splitDots_nonempty s) as Hne.
  case_bool_decide as Hc.
  - subst c. destruct (splitDots s) as [|part parts]; [done|].
    simpl in *. by rewrite IH.
  - destruct (splitDots s) as [|part parts]; [done|].
    destruct parts as [|part' parts]; simpl in *; by rewrite <- IH.
Qed.

Lemma dropLastTwo_app {A} (l : list A) a b : dropLastTwo (l ++ [a; b]) = l.
Proof.
  unfold dropLastTwo. rewrite length_app. simpl.
  replace (length l + 2 - 2)%nat with (length l) by lia.
  by rewrite take_app_length.
Qed.

(** X18: the name of a backup gives the name of the file back.  The
    base name that [createBackup] builds from a file name and an
    instant is read back by [getBackupInfo] as that file name, whatever
    dots the file name holds; a name with fewer than two dots is read
    back as the empty name. *)
Theorem backup_name_round_trip (base iso : string) :
  originalName (backupName base iso) = base
  ∧ ∀ file, (length (splitDots file) ≤ 2)%nat → originalName file = "".
Proof.
  split.
  - unfold originalName, backupName.
    change ".bak" with ("." +:+ "bak").
    rewrite splitDots_dot, splitDots_dot, replaceColonsAndDots_dotFree.
    change (splitDots "bak") with ["bak"].
    change (?l ++ [?a] ++ [?b]) with (l ++ [a; b]).
    by rewrite dropLastTwo_app, join_splitDots.
  - intros file Hlen. unfold originalName, dropLastTwo.
    replace (length (splitDots file) - 2)%nat with 0%nat by lia. done.
Qed.

Section Evaluate.
Context `{!StringPrototype}.
Variable resolve : string → string.

Abbreviation evaluate := (evaluate resolve).
Abbreviation isPathAllowed := (isPathAllowed resolve).

(** The target passes the two list checks of [evaluate]. *)
Abbreviation passes := (λ (g : Guard) (request : PermissionRequest),
  match truthy (target request) with
  | Some t =>
      isPathAllowed g t = true
      ∧ (action request = "shell" → isCommandAllowed g t = true)
  | None => True
  end).

Lemma evaluate_passes g request :
  passes g request → evaluate g request = confirmStage g request.
Proof.
  unfold BasicGuard.evaluate. destruct (truthy (target request)) as [t|]; [|done].
  intros [Hpath Hcmd]. rewrite Hpath. simpl.
  case_bool_decide as Hshell; [|done]. by rewrite Hcmd.
Qed.

Lemma evaluate_refused g request :
  ¬ passes g request →
  granted (evaluate g request) = false ∧ requiresBackup (evaluate g request) = false.
Proof.
  unfold BasicGuard.evaluate. destruct (truthy (target request)) as [t|]; [|done].
  intros Hnot. destruct (isPathAllowed g t) eqn:Hpath; [|done]. simpl.
  case_bool_decide as Hshell; simpl.
  - destruct (isCommandAllowed g t) eqn:Hcmd; [|done]. by destruct Hnot.
  - destruct Hnot. split; [done|]. by intros.
Qed.

Lemma passes_dec g request : passes g request ∨ ¬ passes g request.
Proof.
  cbv beta. destruct (truthy (target request)) as [t|]; [|by left].
  destruct (isPathAllowed g t); [|right; by intros [? _]].
  destruct (decide (action request = "shell")) as [Hshell|Hshell].
  - destruct (isCommandAllowed g t); [by left|].
    right. intros [_ Hcmd]. by specialize (Hcmd Hshell).
  - left. split; [done|]. by intros.
Qed.

(** X19: when the basic guard asks for a backup.  [requiresBackup] is
    true exactly for a MODIFY request that passes the path and command
    lists, under a configuration with [backupBeforeModify], when
    MODIFY is auto-approved or a callback is registered; so it is also
    true for a MODIFY request that the callback denies, and false, with
    the request refused, when a confirmation is needed and no callback
    is registered. *)
Theorem basic_guard_backup (g : Guard) (request : PermissionRequest) :
  let r := evaluate g request in
  (requiresBackup r = true
   ↔ riskLevel request = MODIFY
     ∧ backupBeforeModify (finalConfig g) = Some true
     ∧ passes g request
     ∧ (autoApproveModify (finalConfig g) = Some true ∨ is_Some (callback g)))
  ∧ (∀ cb, callback g = Some cb → passes g request →
       (tierPolicy g (riskLevel request)).1 = true →
       granted r = cb request
       ∧ requiresBackup r = (tierPolicy g (riskLevel request)).2)
  ∧ (callback g = None → (tierPolicy g (riskLevel request)).1 = true →
     granted r = false ∧ requiresBackup r = false).
Proof.
  intros r. subst r. split; [|split].
  - split.
    + intros Hbackup.
      assert (Hpass : passes g request).
      { destruct (passes_dec g request) as [|Hnot]; [done|].
        apply evaluate_refused in Hnot as [_ Hnot]. congruence. }
      rewrite (evaluate_passes g request Hpass) in Hbackup.
      unfold confirmStage, tierPolicy in Hbackup.
      destruct (riskLevel request), (autoApproveRead (finalConfig g)) as [[]|],
        (autoApproveModify (finalConfig g)) as [[]|],
        (requireConfirmationForDelete (finalConfig g)) as [[]|],
        (requireConfirmationForSystem (finalConfig g)) as [[]|],
        (backupBeforeModify (finalConfig g)) as [[]|],
        (callback g) as [cb|]; simpl in Hbackup; try done;
        (split; [done|split; [done|split; [done|]]]);
        (by left) || (by right; eexists).
    + intros (Hrisk & Hcfg & Hpass & Hway).
      rewrite (evaluate_passes g request Hpass).
      unfold confirmStage, tierPolicy. rewrite Hrisk, Hcfg. simpl.
      destruct Hway as [-> | [cb ->]]; [done|].
      by destruct (autoApproveModify (finalConfig g)) as [[]|].
  - intros cb Hcb Hpass Hconfirm. rewrite (evaluate_passes g request Hpass).
    unfold confirmStage. destruct (tierPolicy g (riskLevel request)) as [c b].
    simpl in *. subst c. simpl. by rewrite Hcb.
  - intros Hcb Hconfirm.
    destruct (passes_dec g request) as [Hpass|Hnot].
    + rewrite (evaluate_passes g request Hpass).
      unfold confirmStage. destruct (tierPolicy g (riskLevel request)) as [c b].
      simpl in *. subst c. simpl. by rewrite Hcb.
    + by apply evaluate_refused.
Qed.

(** X20: the guard that [createPermissionGuard()] builds without a
    configuration lets every target through, grants a READ request
    without asking, and puts every MODIFY, DELETE and SYSTEM request to
    the callback: the answer of the callback decides, and a request is
    refused when no callback is registered. *)
Theorem basic_guard_defaults (cb : option (PermissionRequest → bool))
    (request : PermissionRequest) :
  let g := from_option setCallback id cb (createPermissionGuard emptyConfig) in
  evaluate g request
  = match riskLevel request, cb with
    | READ, _ => {| granted := true; reason := None; requiresBackup := false |}
    | risk, Some ask =>
        {| granted := ask request;
           reason := if ask request then None else Some "User denied permission";
           requiresBackup := bool_decide (risk = MODIFY) |}
    | _, None =>
        {| granted := false;
           reason := Some "No permission callback configured for interactive confirmation";
           requiresBackup := false |}
    end.
Proof.
  intros g. rewrite evaluate_passes.
  - unfold confirmStage, tierPolicy. subst g.
    destruct cb as [ask|], (riskLevel request); simpl; done.
  - subst g. destruct (truthy (target request)) as [t|]; [|done].
    by destruct cb.
Qed.

End Evaluate.

End BasicGuardFacts.

(** ** The agent *)

Module AgentFacts.
Import Js EngineTypes Agent.

(** A log with one tool call splits at it in one way only. *)
Lemma one_call (front : list Effect) (call : Effect) (rest : list Effect) :
  List.filter isToolExecute front = [] →
  List.filter isToolExecute rest = [] →
  ∀ before other after,
    isToolExecute other = true →
    front ++ call :: rest = before ++ other :: after →
    before = front ∧ other = call ∧ after = rest.
Proof.
  intros Hfront Hrest. induction front as [|e front IH]; intros before other after
    Hother Heq.
  - destruct before as [|e' before]; simpl in Heq.
    + by injection Heq as <- <-.
    + injection Heq as <- ->. rewrite List.filter_app in Hrest. simpl in Hrest.
      rewrite Hother in Hrest. by destruct (List.filter isToolExecute before).
  - simpl in Hfront. destruct (isToolExecute e) eqn:Ee; [done|].
    destruct before as [|e' before]; simpl in Heq.
    + injection Heq as <- _. congruence.
    + injection Heq as <- Heq.
      destruct (IH Hfront before other after Hother Heq) as (-> & -> & ->). done.
Qed.

Section Execute.
Variable inherited : string → JsValue.
Context {G : Type}.
Variable evaluate : G → Z → PermissionGuard.PermissionRequest
                    → PermissionGuard.PermissionResult * G.
Variable clock : nat → Z.
Variable generateId : string.

Abbreviation runStep := (runStep inherited evaluate clock).
Abbreviation runSteps := (runSteps inherited evaluate clock).
Abbreviation execute := (execute inherited evaluate clock generateId).
Abbreviation pathOf := (pathOf inherited).

(** A tool call of the log comes right after the answer that granted
    it, with at most the backup in between. *)
Abbreviation permitted := (λ (agent : Agent G) (log : list Effect),
  ∀ before name args context after,
    log = before ++ ToolExecute name args context :: after →
    ∃ earlier request answer backup,
      before = earlier ++ Evaluate request answer :: backup
      ∧ PermissionGuard.granted answer = true
      ∧ PermissionGuard.toolName request = name
      ∧ PermissionGuard.action request = "execute"
      ∧ is_Some (ToolSystem.get name (toolRegistry agent))
      ∧ (backup = []
         ∨ ∃ path, backup = [CreateBackup path]
                   ∧ PermissionGuard.requiresBackup answer = true
                   ∧ PermissionGuard.target request = Some path)).

Lemma permitted_nil (agent : Agent G) : permitted agent [].
Proof. intros before ????. by destruct before. Qed.

Lemma permitted_quiet (agent : Agent G) (log : list Effect) :
  List.filter isToolExecute log = [] → permitted agent log.
Proof.
  intros Hquiet before name args context after ->.
  rewrite List.filter_app in Hquiet. simpl in Hquiet.
  by destruct (List.filter isToolExecute before).
Qed.

Lemma permitted_app (agent : Agent G) (log more : list Effect) :
  permitted agent log → permitted agent more → permitted agent (log ++ more).
Proof.
  intros Hlog Hmore before name args context after Heq.
  apply app_eq_inv in Heq as [(k & Hl & Heq)|(k & -> & Heq)].
  - destruct k as [|e k]; simpl in Heq.
    + destruct (Hmore [] name args context after) as (earlier & ? & ? & ? & Hb & _);
        [done|]. by destruct earlier.
    + injection Heq as <- ->.
      destruct (Hlog before name args context k Hl)
        as (earlier & request & answer & backup & -> & H).
      by exists earlier, request, answer, backup.
  - destruct (Hmore k name args context after Heq)
      as (earlier & request & answer & backup & -> & H).
    exists (log ++ earlier), request, answer, backup.
    by rewrite <- app_assoc.
Qed.

Lemma stepExecuted_quiet (agent : Agent G) step i total :
  List.filter isToolExecute (stepExecuted agent step i total) = [].
Proof. unfold stepExecuted. by destruct (onStepExecuted agent). Qed.

(** One iteration: its log, and the step as it leaves it. *)
Lemma runStep_spec (agent : Agent G) dryRun taskId_ i total step guard :
  let out := runStep agent dryRun taskId_ i total step guard in
  permitted agent out.1.1
  ∧ (length (List.filter isToolExecute out.1.1) ≤ 1)%nat
  ∧ match out.1.2 with
    | Some (step', kept) =>
        kept = negb (bool_decide (status step' = failed))
        ∧ status step' ∈ [completed; failed; skipped]
    | None =>
        ∃ tool context,
          ToolSystem.get (toolName step) (toolRegistry agent) = Some tool
          ∧ ToolSystem.execute tool i (JObject (params step)) context
            = EnhancedEngine.Late
    end.
Proof.
  unfold Agent.runStep.
  destruct (ToolSystem.get _ _) as [tool|] eqn:Etool; cbn [fst snd].
  - destruct (evaluate guard (clock i) _) as [answer guard'] eqn:Eanswer.
    destruct (PermissionGuard.granted answer) eqn:Egranted; cbn [negb fst snd].
    + set (backup := match Agent.pathOf inherited step with
                     | Some path =>
                         if PermissionGuard.requiresBackup answer
                            && createBackup agent
                         then [CreateBackup path] else []
                     | None => []
                     end).
      set (context := ToolSystem.mkContext _ _ _).
      set (request := Agent.permissionRequest inherited step).
      assert (Hcall : ∀ rest, List.filter isToolExecute rest = [] →
                permitted agent
                  ([Evaluate request answer] ++ backup
                     ++ [ToolExecute (toolName step) (JObject (params step)) context]
                     ++ rest)
                ∧ (length (List.filter isToolExecute
                     ([Evaluate request answer] ++ backup
                        ++ [ToolExecute (toolName step) (JObject (params step))
                              context] ++ rest)) ≤ 1)%nat).
      { intros rest Hrest.
        assert (Hquiet : List.filter isToolExecute backup = []).
        { subst backup. destruct (Agent.pathOf inherited step); [|done].
          by destruct (_ && _). }
        split.
        - intros before name args ctx after Heq.
          rewrite app_assoc in Heq.
          apply one_call in Heq as (-> & Hcall & ->); [|by simpl; rewrite Hquiet|done..].
          injection Hcall as -> -> ->.
          exists [], request, answer, backup.
          split; [done|]. split; [done|]. split; [done|]. split; [done|].
          split; [by rewrite Etool|].
          subst backup. simpl. destruct (Agent.pathOf inherited step) as [path|];
            [|by left].
          destruct (PermissionGuard.requiresBackup answer); [|by left].
          destruct (createBackup agent); [|by left].
          right. by exists path.
        - rewrite !List.filter_app, Hquiet, Hrest. simpl. lia. }
      destruct (ToolSystem.execute tool i _ context) as [[toolResult|message]|]
        eqn:Eexec; cbn [fst snd].
      * destruct (Hcall (stepExecuted agent
                    (if ToolSystem.success toolResult
                     then withOutcome step completed (Some toolResult) (error step)
                     else withOutcome step failed (Some toolResult)
                            (ToolSystem.error toolResult)) i total)
                    (stepExecuted_quiet _ _ _ _)) as [Hp Hn].
        split; [exact Hp|]. split; [exact Hn|].
        destruct (ToolSystem.success toolResult); simpl.
        -- split; [done|]. left.
        -- split; [done|]. right. left.
      * destruct (Hcall (stepExecuted agent
                    (withOutcome step failed (result step) (Some message)) i total)
                    (stepExecuted_quiet _ _ _ _)) as [Hp Hn].
        split; [exact Hp|]. split; [exact Hn|]. simpl.
        split; [done|]. right. left.
      * destruct (Hcall [] eq_refl) as [Hp Hn]. rewrite !app_nil_r in Hp, Hn.
        split; [exact Hp|]. split; [exact Hn|]. by exists tool, context.
    + split; [|split].
      * apply permitted_quiet. simpl. apply stepExecuted_quiet.
      * simpl. rewrite stepExecuted_quiet. simpl. lia.
      * simpl. split; [done|]. right. right. left.
  - split; [|split].
    + apply permitted_quiet, stepExecuted_quiet.
    + rewrite stepExecuted_quiet. simpl. lia.
    + simpl. split; [done|]. right. left.
Qed.

(** A step that the loop has dealt with. *)
Abbreviation settled := (λ step : ExecutionStep,
  status step ∈ [completed; failed; skipped]).
Abbreviation notFailed := (λ step : ExecutionStep,
  negb (bool_decide (status step = failed))).

(** The loop: its log, the steps it has dealt with, and its exit. *)
Lemma runSteps_spec (agent : Agent G) dryRun taskId_ total :
  ∀ todo i guard allStepsCompleted,
  let out := runSteps agent dryRun taskId_ total i todo guard allStepsCompleted in
  let n := Nat.min (Z.to_nat (maxIterations agent) - i) (length todo) in
  permitted agent out.1.1.1
  ∧ (length (List.filter isToolExecute out.1.1.1) ≤ n)%nat
  ∧ length out.1.1.2 = length todo
  ∧ match out.2 with
    | Waiting =>
        ∃ j step tool context,
          todo !! j = Some step
          ∧ ToolSystem.get (toolName step) (toolRegistry agent) = Some tool
          ∧ ToolSystem.execute tool (i + j) (JObject (params step)) context
            = EnhancedEngine.Late
    | exit =>
        exit = (if decide (n < length todo)%nat then MaxIterations else Through)
                 (allStepsCompleted && forallb notFailed (take n out.1.1.2))
        ∧ Forall settled (take n out.1.1.2)
        ∧ drop n out.1.1.2 = drop n todo
    end.
Proof.
  induction todo as [|step rest IH]; intros i guard allStepsCompleted.
  - cbv zeta. cbn [Agent.runSteps fst snd length]. rewrite Nat.min_0_r.
    split; [apply permitted_nil|]. split; [done|]. split; [done|].
    rewrite decide_False by (simpl; lia). simpl. by rewrite andb_true_r.
  - cbv zeta. cbn [Agent.runSteps].
    destruct (decide (maxIterations agent < Z.of_nat (S i))) as [Hmax|Hmax].
    + cbn [fst snd].
      assert (Hn : Nat.min (Z.to_nat (maxIterations agent) - i) (length (step :: rest))
                   = 0%nat) by lia.
      rewrite Hn. split; [apply permitted_nil|]. split; [done|]. split; [done|].
      rewrite decide_True by (simpl; lia). simpl. by rewrite andb_true_r.
    + assert (Hn : Nat.min (Z.to_nat (maxIterations agent) - i) (length (step :: rest))
                   = S (Nat.min (Z.to_nat (maxIterations agent) - S i) (length rest))).
      { simpl. lia. }
      rewrite Hn. clear Hn.
      pose proof (runStep_spec agent dryRun taskId_ i total step guard) as Hstep.
      cbv zeta in Hstep.
      destruct (runStep agent dryRun taskId_ i total step guard)
        as [[effects outcome] guard'].
      cbn [fst snd] in Hstep. destruct Hstep as (Hp & Hcalls & Hout).
      destruct outcome as [[step' kept]|].
      * specialize (IH (S i) guard' (allStepsCompleted && kept)). cbv zeta in IH.
        destruct (runSteps agent dryRun taskId_ total (S i) rest guard'
                    (allStepsCompleted && kept)) as [[[more rest'] guard''] exit].
        cbn [fst snd] in *.
        destruct IH as (Hp' & Hcalls' & Hlen & Hexit).
        destruct Hout as [-> Hsettled].
        split; [by apply permitted_app|].
        split; [rewrite List.filter_app, length_app; lia|].
        split; [simpl; lia|].
        destruct exit as [all'|all'|].
        -- destruct Hexit as (Hexit & Hs & Hdrop).
           cbn [take drop forallb length].
           split; [|split; [by constructor|done]].
           rewrite Hexit.
           destruct (decide (_ < length rest)%nat);
             [rewrite decide_True by lia|rewrite decide_False by lia];
             by rewrite andb_assoc.
        -- destruct Hexit as (Hexit & Hs & Hdrop).
           cbn [take drop forallb length].
           split; [|split; [by constructor|done]].
           rewrite Hexit.
           destruct (decide (_ < length rest)%nat);
             [rewrite decide_True by lia|rewrite decide_False by lia];
             by rewrite andb_assoc.
        -- destruct Hexit as (j & step0 & tool & context & Hj & Htool & Hlate).
           exists (S j), step0, tool, context.
           split; [done|]. split; [done|].
           by replace (i + S j)%nat with (S i + j)%nat by lia.
      * cbn [fst snd].
        split; [done|]. split; [lia|]. split; [done|].
        destruct Hout as (tool & context & Htool & Hlate).
        exists 0%nat, step, tool, context.
        split; [done|]. split; [done|]. by rewrite Nat.add_0_r.
Qed.

(** X21: the agent runs a tool only with the permission of the guard.
    In the log of [execute], every call of a tool comes right after an
    answer of the guard that grants a request for that tool, with at
    most the backup that the answer asks for in between; the tool is
    registered, and the request has the action [execute].  No more than
    [maxIterations] tools are run. *)
Theorem agent_runs_permitted_tools (agent : Agent G) (session : AgentSession)
    (dryRun : bool) :
  let out := execute agent session dryRun in
  (∀ before name args context after,
     out.1.1 = before ++ ToolExecute name args context :: after →
     ∃ earlier request answer backup,
       before = earlier ++ Evaluate request answer :: backup
       ∧ PermissionGuard.granted answer = true
       ∧ PermissionGuard.toolName request = name
       ∧ PermissionGuard.action request = "execute"
       ∧ is_Some (ToolSystem.get name (toolRegistry agent))
       ∧ (backup = []
          ∨ ∃ path, backup = [CreateBackup path]
                    ∧ PermissionGuard.requiresBackup answer = true
                    ∧ PermissionGuard.target request = Some path))
  ∧ (length (List.filter isToolExecute out.1.1)
     ≤ Z.to_nat (maxIterations agent))%nat.
Proof.
  intros out. subst out. unfold Agent.execute.
  destruct (plan session) as [plan_|]; cbn [fst snd];
    [|split; [apply permitted_nil|simpl; lia]].
  destruct (decide (planStatus plan_ = cancelled)); cbn [fst snd];
    [split; [apply permitted_nil|simpl; lia]|].
  pose proof (runSteps_spec agent dryRun (taskId session) (length (steps plan_))
                (steps plan_) 0 (permissionGuard agent) true) as Hloop.
  cbv zeta in Hloop.
  destruct (runSteps agent dryRun (taskId session) (length (steps plan_)) 0
              (steps plan_) (permissionGuard agent) true)
    as [[[effects steps_] guard] exit].
  cbn [fst snd] in Hloop. destruct Hloop as (Hp & Hcalls & _ & _).
  destruct exit as [all|all|]; cbn [fst snd]; (split; [exact Hp|lia]).
Qed.

(** X22: what the agent reports.  For a plan that is not cancelled,
    when [execute] returns, [success] is true exactly when none of the
    steps it has dealt with, the first [maxIterations] ones, has the
    status [failed].  A step that the guard refuses is [skipped] and
    does not count against the run, and the steps past [maxIterations]
    are left as they were and do not count either: the plan is then
    [completed] while its [error] says that the maximum was reached. *)
Theorem agent_success_report (agent : Agent G) (session : AgentSession)
    (dryRun : bool) (plan_ : ExecutionPlan) (r : ExecutionResult) :
  plan session = Some plan_ →
  planStatus plan_ ≠ cancelled →
  (execute agent session dryRun).1.2 = Some r →
  let n := Nat.min (Z.to_nat (maxIterations agent)) (length (steps plan_)) in
  let done_ := take n (steps (resultPlan r)) in
  success r = forallb (λ step, negb (bool_decide (status step = failed))) done_
  ∧ Forall (λ step, status step ∈ [completed; failed; skipped]) done_
  ∧ drop n (steps (resultPlan r)) = drop n (steps plan_)
  ∧ length (steps (resultPlan r)) = length (steps plan_)
  ∧ planStatus (resultPlan r) = (if success r then completed else failed)
  ∧ resultError r = (if success r then None else Some "Some steps failed")
  ∧ planError (resultPlan r)
    = (if decide (n < length (steps plan_))%nat
       then Some "Maximum iterations reached" else planError plan_).
Proof.
  intros Hplan Hstatus Hr n done_. subst n done_.
  unfold Agent.execute in Hr. rewrite Hplan in Hr.
  rewrite decide_False in Hr by done.
  pose proof (runSteps_spec agent dryRun (taskId session) (length (steps plan_))
                (steps plan_) 0 (permissionGuard agent) true) as Hloop.
  cbv zeta in Hloop. rewrite Nat.sub_0_r in Hloop.
  destruct (runSteps agent dryRun (taskId session) (length (steps plan_)) 0
              (steps plan_) (permissionGuard agent) true)
    as [[[effects steps_] guard] exit].
  cbn [fst snd] in Hloop, Hr. destruct Hloop as (_ & _ & Hlen & Hexit).
  destruct exit as [all|all|]; [| |done]; injection Hr as <-;
    destruct Hexit as (Hexit & Hsettled & Hdrop); cbn [andb] in Hexit;
    unfold finish; cbn [success resultPlan steps planStatus resultError planError];
    destruct (decide (_ < length (steps plan_))%nat); try discriminate Hexit;
    injection Hexit as ->; done.
Qed.

End Execute.

(** The inputs that follow are ASCII strings. *)
#[local] Existing Instance JsString.asciiStrings.

Lemma agent_success_report_witness :
  let tool :=
    {| ToolSystem.schema :=
         {| ToolValidator.name := "file_write";
            ToolValidator.description := "Write a file";
            ToolValidator.parameters :=
              {| ToolValidator.properties :=
                   [("path", ToolValidator.mkProperty "string" "File path"
                               None None None)];
                 ToolValidator.required := Some ["path"] |} |};
       ToolSystem.riskLevel := PermissionGuard.MODIFY;
       ToolSystem.execute := λ _ _ _, EnhancedEngine.Late |} in
  let guard := BasicGuard.createPermissionGuard BasicGuard.emptyConfig in
  let agent :=
    {| toolRegistry := [("file_write", tool)]; permissionGuard := guard;
       createBackup := true; maxIterations := 1; workingDirectory := "/home/user";
       onStepExecuted := false |} in
  let step name :=
    {| id := name; toolName := "file_write";
       params := [("path", JString "/home/user/notes.txt")];
       description := "Execute file_write"; riskLevel := PermissionGuard.MODIFY;
       status := pending; result := None; error := None |} in
  let session :=
    {| taskId := "task_1";
       plan := Some {| planId := "plan_1"; planTaskId := "task_1";
                       goal := "write the notes"; steps := [step "a"; step "b"];
                       planStatus := pending; planError := None |} |} in
  let out :=
    Agent.execute (λ _, JUndefined)
      (λ g _ request, (BasicGuard.evaluate (λ p, p) g request, g)) (λ _, 0) "plan_2"
      agent session false in
  ∃ r, out.1.2 = Some r
       ∧ out.1.1 = [Evaluate (Agent.permissionRequest (λ _, JUndefined) (step "a"))
                      {| PermissionGuard.granted := false;
                         PermissionGuard.reason :=
                           Some "No permission callback configured for interactive confirmation";
                         PermissionGuard.requiresBackup := false |}]
       ∧ success r = true
       ∧ planStatus (resultPlan r) = completed
       ∧ planError (resultPlan r) = Some "Maximum iterations reached"
       ∧ status <$> steps (resultPlan r) = [skipped; pending].
Proof.
  intros tool guard agent step session out.
  eexists. split; [reflexivity|]. split; [reflexivity|].
  edestruct (agent_success_report (λ _, JUndefined)
               (λ g _ request, (BasicGuard.evaluate (λ p, p) g request, g)) (λ _, 0)
               "plan_2" agent session false)
    as (Hsuccess & _ & _ & _ & Hstatus & _ & Herror);
    [reflexivity|discriminate|reflexivity|].
  rewrite Hstatus, Herror, Hsuccess. by repeat split.
Defined.

End AgentFacts.

(** ** More on the basic execution engine *)

Module EngineFacts.
Import Js EngineTypes Engine EngineUse LogFacts EngineSpec Examples.

Section Run.
Variable planner : string → Settled (list PlanStep).
Variable executor : list PlanStep → PlanStep → Settled JsValue.
Variable formatter : option (string → list StepResult → Settled string).
Variable ctl : Controller.

Abbreviation runStep := (runStep executor ctl).
Abbreviation runSteps := (runSteps executor ctl).
Abbreviation run := (run planner executor formatter ctl).

Lemma runStep_cancelled total i step calls :
  (runStep total i step calls).2 = cancelledDuring ctl i step.
Proof.
  unfold Engine.runStep, cancelledDuring. destruct (highRisk step); [|done].
  by destruct (permissionAnswer ctl i).
Qed.

Lemma runSteps_stopped total i todo calls results :
  runSteps total i todo true calls results
  = ([], if decide (todo = []) then Completed results else CancelledAt results).
Proof. by destruct todo. Qed.

(** The loop, when [cancel()] is first called during the step at
    position [k] of what is left of the plan. *)
Lemma runSteps_cancel total : ∀ todo k step i calls results,
  todo !! k = Some step →
  (∀ j s, (j < k)%nat → todo !! j = Some s → cancelledDuring ctl (i + j) s = false) →
  cancelledDuring ctl (i + k) step = true →
  let out := runSteps total i todo false calls results in
  length (pushed out.2) = (length results + S k)%nat
  ∧ out.2 = (if decide (S k < length todo)%nat then CancelledAt (pushed out.2)
             else Completed (pushed out.2))
  ∧ executorCalls out.1 = executed ctl i (take (S k) todo).
Proof.
  induction todo as [|first rest IH]; intros k step i calls results Hk Hquiet Hcancel;
    [done|].
  rewrite runSteps_cons. cbv zeta. cbn [fst snd].
  rewrite runStep_cancelled, executorCalls_app, runStep_calls.
  destruct k as [|k].
  - injection Hk as ->. rewrite Nat.add_0_r in Hcancel. rewrite Hcancel.
    rewrite runSteps_stopped. cbn [fst snd]. rewrite app_nil_r.
    cbn [take executed]. split; [|split].
    + destruct (decide (rest = [])); simpl; rewrite length_app; simpl; lia.
    + destruct rest; simpl; repeat case_decide; done || (simpl in *; lia).
    + by destruct (denied ctl i step).
  - pose proof (Hquiet 0%nat first ltac:(lia) eq_refl) as Hfirst.
    rewrite Nat.add_0_r in Hfirst. rewrite Hfirst.
    simpl in Hk.
    edestruct (IH k step (S i)) as (Hlen & Hexit & Hcalls); [done| | |].
    { intros j s Hj Hs. replace (S i + j)%nat with (i + S j)%nat by lia.
      apply Hquiet; [lia|done]. }
    { by replace (S i + k)%nat with (i + S k)%nat by lia. }
    split; [|split].
    + rewrite Hlen, length_app. simpl. lia.
    + rewrite Hexit. simpl.
      destruct (decide (S k < length rest)%nat);
        [by rewrite decide_True by lia | by rewrite decide_False by lia].
    + rewrite Hcalls. cbn [take executed]. by destruct (denied ctl i first).
Qed.

(** The [step_start] and [step_complete] events of the loop. *)
Lemma runSteps_events total : ∀ todo i cancelled calls results,
  let out := runSteps total i todo cancelled calls results in
  ∃ rs,
    pushed out.2 = results ++ rs
    ∧ (length rs ≤ length todo)%nat
    ∧ List.filter isStepComplete (events out.1)
      = imap (λ j r, stepCompleteOf (i + j) r) rs
    ∧ List.filter isStepStart (events out.1)
      = imap (λ j s, stepStartOf (i + j) total s) (take (length rs) todo).
Proof.
  induction todo as [|step rest IH]; intros i cancelled calls results.
  - exists []. by rewrite app_nil_r.
  - destruct cancelled.
    + exists []. simpl. rewrite app_nil_r. split; [done|]. split; [lia|done].
    + rewrite runSteps_cons. cbv zeta. cbn [fst snd].
      edestruct IH as (rs & Hpushed & Hlen & Hcomplete & Hstart).
      exists ((runStep total i step calls).1.2 :: rs).
      rewrite Hpushed, <- app_assoc. split; [done|]. split; [simpl; lia|].
      rewrite !events_app, !List.filter_app, Hcomplete, Hstart.
      cbn [length take imap]. rewrite !Nat.add_0_r.
      unfold Engine.runStep.
      destruct (highRisk step); [destruct (approved (permissionAnswer ctl i))|];
        simpl; (split; f_equal; apply imap_ext; intros; simpl; f_equal; lia).
Qed.

(** Nothing is executed before the plan is approved. *)
Lemma run_needs_approval goal now :
  executorCalls (run goal now).1 ≠ [] →
  ∃ planned,
    planner goal = Resolved planned
    ∧ cancelWhilePlanning ctl = false
    ∧ planAnswer ctl = Approve
    ∧ cancelAfterPlanAnswer ctl = false.
Proof.
  unfold Engine.run. destruct (planner goal) as [planned|message]; [|done].
  destruct (cancelWhilePlanning ctl); [done|].
  destruct (planAnswer ctl); simpl; try done.
  destruct (cancelAfterPlanAnswer ctl); [done|].
  intros _. by exists planned.
Qed.

(** X23: [cancel()] is noticed at the top of the next iteration.  When
    it is first called during step [k] of an approved plan, that step
    still runs to its end and its result is recorded; the run then
    returns the [k + 1] results with the error, unless step [k] was the
    last one: then the run ends as if nobody had cancelled. *)
Theorem cancel_noticed_at_next_step goal now planned k step :
  planner goal = Resolved planned →
  cancelWhilePlanning ctl = false →
  planAnswer ctl = Approve →
  cancelAfterPlanAnswer ctl = false →
  planned !! k = Some step →
  (∀ j s, (j < k)%nat → planned !! j = Some s → cancelledDuring ctl j s = false) →
  cancelledDuring ctl k step = true →
  length (steps (run goal now).2) = S k
  ∧ executorCalls (run goal now).1 = executed ctl 0 (take (S k) planned)
  ∧ runError (run goal now).2
    = (if decide (S k < length planned)%nat then Some "已取消" else None).
Proof.
  intros Hplan Hcp Hanswer Hca Hk Hquiet Hcancel.
  destruct (runSteps_cancel (length planned) planned k step 0 [] [] Hk Hquiet Hcancel)
    as (Hlen & Hexit & Hcalls).
  unfold Engine.run. rewrite Hplan, Hcp, Hanswer, Hca. simpl.
  destruct (runSteps (length planned) 0 planned false [] []) as [acts exit].
  cbn [fst snd] in Hlen, Hexit, Hcalls.
  destruct (decide (S k < length planned)%nat); destruct exit as [rs|rs];
    try discriminate Hexit; cbn [fst snd steps runError pushed] in *.
  - split; [done|]. split; [exact Hcalls|done].
  - split; [done|]. split; [|done].
    transitivity (executorCalls (acts ++ formatPhase formatter goal rs)); [done|].
    by rewrite executorCalls_app, Hcalls, executorCalls_formatPhase, app_nil_r.
Qed.

(** X24: the events tell what the result holds.  In every run of the
    basic engine, whatever the controller does, the [step_complete]
    events are those of the returned step results, in order and with
    their positions as [stepIndex], and the [step_start] events are
    those of the steps that have a result. *)
Theorem events_match_results goal now planned :
  planner goal = Resolved planned →
  let out := run goal now in
  List.filter isStepComplete (events out.1) = imap stepCompleteOf (steps out.2)
  ∧ List.filter isStepStart (events out.1)
    = imap (λ i s, stepStartOf i (length planned) s)
        (take (length (steps out.2)) planned)
  ∧ (length (steps out.2) ≤ length planned)%nat.
Proof.
  intros Hplan out. subst out. unfold Engine.run. rewrite Hplan.
  destruct (cancelWhilePlanning ctl); [by (repeat split; simpl; try lia)|].
  destruct (approved (planAnswer ctl)); [|by (repeat split; simpl; try lia)].
  cbn [negb].
  destruct (cancelAfterPlanAnswer ctl); [by (repeat split; simpl; try lia)|].
  destruct (runSteps_events (length planned) planned 0 false [] [])
    as (rs & Hpushed & Hlen & Hcomplete & Hstart).
  destruct (runSteps (length planned) 0 planned false [] []) as [acts exit].
  cbn [fst snd] in *. simpl in Hpushed.
  assert (Hfmt : ∀ rs', List.filter isStepComplete
                          (events (formatPhase formatter goal rs')) = []
                        ∧ List.filter isStepStart
                            (events (formatPhase formatter goal rs')) = []).
  { intros rs'. unfold formatPhase. destruct formatter as [f|]; [|done].
    destruct (existsb success rs'); [|done]. by destruct (f goal rs'). }
  destruct (Hfmt rs) as [Hquiet Hquiet'].
  destruct exit as [done_|done_]; simpl in Hpushed; subst done_;
    cbn [fst snd steps];
    rewrite !events_app, !List.filter_app, ?Hcomplete, ?Hstart;
    rewrite ?Hquiet, ?Hquiet'; simpl; rewrite ?app_nil_r;
    (split; [done|split; [done|lia]]).
Qed.

End Run.

(** [cancel()] during the second of three steps, and during the last. *)
Lemma cancel_noticed_at_next_step_witness :
  let cancelling (k : nat) :=
    {| cancelWhilePlanning := false; planAnswer := Approve;
       cancelAfterPlanAnswer := false;
       permissionAnswer := λ _, Approve;
       cancelDuringStep := λ i, bool_decide (i = k) |} in
  let middle :=
    Engine.run (λ _, Resolved threeSteps) secondCallThrows None (cancelling 1%nat)
      "goal" 0 in
  let last_ :=
    Engine.run (λ _, Resolved threeSteps) secondCallThrows None (cancelling 2%nat)
      "goal" 0 in
  (length (steps middle.2) = 2%nat ∧ runError middle.2 = Some "已取消")
  ∧ (length (steps last_.2) = 3%nat ∧ runError last_.2 = None).
Proof.
  intros cancelling middle last_. split.
  - destruct (cancel_noticed_at_next_step (λ _, Resolved threeSteps) secondCallThrows
                None (cancelling 1%nat) "goal" 0 threeSteps 1
                (testStep "step_1" "test_tool" "LOW"))
      as (Hlen & _ & Herr); try reflexivity.
    + intros [|j] s Hj Hs; [injection Hs as <-; reflexivity | lia].
    + split; [exact Hlen | exact Herr].
  - destruct (cancel_noticed_at_next_step (λ _, Resolved threeSteps) secondCallThrows
                None (cancelling 2%nat) "goal" 0 threeSteps 2
                (testStep "step_2" "test_tool" "LOW"))
      as (Hlen & _ & Herr); try reflexivity.
    + intros [|[|j]] s Hj Hs;
        [injection Hs as <-; reflexivity | injection Hs as <-; reflexivity | lia].
    + split; [exact Hlen | exact Herr].
Defined.

Lemma events_match_results_witness :
  let out := Engine.run (λ _, Resolved mixedPlan) secondCallThrows None autoConfirm
               "goal" 0 in
  List.filter isStepComplete (events out.1) = imap stepCompleteOf (steps out.2)
  ∧ length (steps out.2) = 5%nat.
Proof.
  intros out. split; [|reflexivity].
  apply (events_match_results (λ _, Resolved mixedPlan) secondCallThrows None
           autoConfirm "goal" 0 mixedPlan eq_refl).
Defined.

End EngineFacts.

(** ** More on the enhanced execution engine *)

Module EnhancedEngineFacts.
Import Js EngineTypes EnhancedEngine LogFacts EnhancedEngineSpec Examples.

(** All batches but the last are full. *)
Lemma slices_full {A} (k : nat) (l : list A) :
  (0 < k)%nat →
  Forall (λ batch, (0 < length batch)%nat) (slices k l)
  ∧ ∀ i batch, slices k l !! i = Some batch →
      (S i < length (slices k l))%nat → length batch = k.
Proof.
  intros Hk. funelim (slices k l); simp slices; [by split; [constructor|]|].
  destruct (H Hk) as [Hpos Hfull]. split.
  - constructor; [|done]. simpl. lia.
  - intros [|i] batch Hi Hnext.
    + assert (batch = take (S (pred k)) (x :: l)) as -> by (by injection Hi).
      rewrite length_take.
      destruct (drop (S (pred k)) (x :: l)) as [|y rest] eqn:Edrop.
      * simp slices in Hnext. simpl in Hnext. lia.
      * assert (Hlen : length (drop (S (pred k)) (x :: l)) = S (length rest))
          by by rewrite Edrop.
        rewrite length_drop in Hlen. clear - Hk Hlen.
        destruct k; [lia|]. cbn [Init.Nat.pred length] in *. apply Nat.min_l. lia.
    + apply (Hfull i); [exact Hi|]. cbn [length] in Hnext. lia.
Qed.

Lemma assign_cons results j r pairs :
  assign results ((j, r) :: pairs) = assign (<[j := Some r]> results) pairs.
Proof. done. Qed.

(** A slot that [assign] leaves filled was filled before, or holds the
    result of the step with its index. *)
Lemma assign_filled (planned : list PlanStep) pairs items :
  resultsOf pairs items →
  (∀ j s, (j, s) ∈ items → planned !! j = Some s) →
  ∀ results i r,
    assign results pairs !! i = Some (Some r) →
    results !! i = Some (Some r)
    ∨ ∃ step, planned !! i = Some step ∧ stepId r = id step.
Proof.
  induction 1 as [|[j rj] [j' s] pairs items [Hj Hid] _ IH]; intros Hitems results i r Hi.
  - by left.
  - simpl in Hj, Hid. subst j'. rewrite assign_cons in Hi.
    destruct (IH ltac:(intros; apply Hitems; by right) _ i r Hi) as [Hin|Hdone];
      [|by right].
    destruct (decide (i = j)) as [->|Hne].
    + apply list_lookup_insert_Some in Hin as [(_ & Heq & _)|[? _]]; [|done].
      injection Heq as <-. right. exists s. split; [|done]. apply Hitems. left.
    + rewrite list_lookup_insert_ne in Hin by done. by left.
Qed.

Section Execute.
Variable planner : string → Timed (list PlanStep).
Variable executor : list PlanStep → PlanStep → SandboxConfig → Timed JsValue.
Variable formatter : option (string → list Slot → Settled string).
Variable sandboxConfig : SandboxConfig.
Variable parallelConfig : ParallelConfig.
Variable ctl : Controller.

Abbreviation executeSerial := (executeSerial executor sandboxConfig ctl).
Abbreviation beginAll := (beginAll executor sandboxConfig).
Abbreviation settle := (settle executor sandboxConfig ctl).
Abbreviation executeBatch := (executeBatch executor sandboxConfig ctl).
Abbreviation runBatches := (runBatches executor sandboxConfig parallelConfig ctl).
Abbreviation executeParallel :=
  (executeParallel executor sandboxConfig parallelConfig ctl).
Abbreviation executeSteps := (executeSteps executor sandboxConfig parallelConfig ctl).
Abbreviation execute :=
  (execute planner executor formatter sandboxConfig parallelConfig ctl).

Lemma settle_stepId calls pending (m : nat * PlanStep * Suspended) r :
  (∀ r0, m.2 ≠ Returned r0) →
  (settle calls pending m).2 = Some r → stepId r = id m.1.2.
Proof.
  destruct m as [[index step] at_]. simpl. intros Hnot.
  unfold EnhancedEngine.settle.
  destruct (awaitsPermission (index, step, at_) && _); [done|].
  unfold resumeStep. destruct at_ as [r0| |outcome].
  - by destruct (Hnot r0).
  - destruct (approved (permissionAnswer ctl index)); simpl; intros [= <-];
      [apply stepId_resultOf | done].
  - simpl. intros [= <-]. apply stepId_resultOf.
Qed.

(** The results of a batch that settles: one for each member, in the
    order of the batch. *)
Lemma executeBatch_results calls total batch pairs :
  (executeBatch calls total batch).1.1.2 = Some pairs → resultsOf pairs batch.
Proof.
  unfold EnhancedEngine.executeBatch.
  pose proof (beginAll_spec executor sandboxConfig total batch calls) as Hspec.
  simpl in Hspec.
  destruct (beginAll calls total batch) as [acts started]. cbn [fst snd] in *.
  destruct Hspec as (Hmembers & Hstarted & _).
  intros Hsettled. apply mapM_Some in Hsettled.
  unfold resultsOf. subst batch. revert Hstarted.
  induction Hsettled as [|m p started' pairs' Hm _ IH]; intros Hstarted;
    [constructor|].
  apply Forall_cons in Hstarted as [[_ Hnot] Hstarted].
  constructor; [|by apply IH].
  destruct (settle _ _ m).2 as [r|] eqn:Er; [|done].
  simpl in Hm. injection Hm as <-. split; [done|].
  by eapply settle_stepId.
Qed.

(** The results of the batches that were run: those of a prefix of the
    list of batches. *)
Lemma runBatches_results total batches : ∀ cancelled calls results out,
  (runBatches total batches cancelled calls results).1.1.2 = Some out →
  ∃ pairs k, out = results ++ pairs ∧ resultsOf pairs (concat (take k batches)).
Proof.
  induction batches as [|batch rest IH]; intros cancelled calls results out.
  - simpl. intros [= <-]. exists [], 0%nat. rewrite app_nil_r. split; [done|constructor].
  - destruct cancelled.
    + simpl. intros [= <-]. exists [], 0%nat. rewrite app_nil_r.
      split; [done|constructor].
    + rewrite runBatches_cons. cbv zeta.
      pose proof (executeBatch_results calls total batch) as Hbatch.
      destruct (executeBatch calls total batch) as [[[acts settled] c] calls'].
      cbn [fst snd] in *. destruct settled as [batchResults|]; [|done].
      specialize (Hbatch batchResults eq_refl).
      destruct (failFast parallelConfig && _).
      * cbn [fst snd]. intros [= <-]. exists batchResults, 1%nat.
        split; [done|]. simpl. by rewrite app_nil_r.
      * cbn [fst snd]. intros Hrest.
        destruct (IH _ _ _ _ Hrest) as (pairs & k & -> & Hof).
        exists (batchResults ++ pairs), (S k). rewrite app_assoc. split; [done|].
        simpl. by apply Forall2_app.
Qed.

Lemma executeParallel_results items total cancelled calls out :
  (executeParallel items total cancelled calls).1.1.2 = Some out →
  ∃ done_, resultsOf out done_ ∧ ∀ item, item ∈ done_ → item ∈ items.
Proof.
  unfold EnhancedEngine.executeParallel, makeBatches.
  destruct items as [|item items].
  - simpl. intros [= <-]. exists []. split; [constructor|done].
  - case_decide; [|done]. intros Hout.
    apply runBatches_results in Hout as (pairs & k & -> & Hof).
    exists (concat (take k (slices (Z.to_nat (maxConcurrent parallelConfig))
                              (item :: items)))).
    split; [done|]. intros x Hx.
    rewrite <- (slices_concat (Z.to_nat (maxConcurrent parallelConfig)) (item :: items)).
    rewrite <- (take_drop k (slices _ (item :: items))), concat_app.
    apply elem_of_app. by left.
Qed.

(** Whatever the controller and the configuration, a slot of the
    array that [executeSteps] returns is empty or holds a result of
    the step with its index. *)
Lemma executeSteps_slots planned cancelled slots :
  (executeSteps planned cancelled).2 = Some slots →
  length slots = length planned
  ∧ ∀ i r, slots !! i = Some (Some r) →
      ∃ step, planned !! i = Some step ∧ stepId r = id step.
Proof.
  unfold EnhancedEngine.executeSteps.
  assert (Hindep : ∀ j s, (j, s) ∈ independentSteps planned → planned !! j = Some s).
  { intros j s Hin. by apply independentSteps_elem in Hin as [? _]. }
  assert (Hdep : ∀ j s, (j, s) ∈ dependentSteps planned → planned !! j = Some s).
  { intros j s Hin. by apply dependentSteps_elem in Hin as [? _]. }
  assert (Hempty : ∀ i r, replicate (length planned) (None : Slot) !! i
                          ≠ Some (Some r)).
  { intros i r Hi. apply lookup_replicate in Hi as [? _]. done. }
  case_decide.
  - pose proof (executeParallel_results (independentSteps planned) (length planned)
                  cancelled []) as Hpar.
    destruct (executeParallel _ _ cancelled []) as [[[acts out] c] calls].
    cbn [fst snd] in *. destruct out as [parallelResults|]; [|done].
    destruct (Hpar parallelResults eq_refl) as (done_ & Hof & Hsub).
    pose proof (executeSerial_results executor sandboxConfig ctl (length planned)
                  (dependentSteps planned) c calls
                  (assign (replicate (length planned) None) parallelResults))
      as (pairsD & HofD & Hserial).
    destruct (executeSerial _ _ c calls _) as [[[more results] c'] calls'].
    cbn [fst snd] in *. subst results. intros [= <-].
    split; [by rewrite !assign_length, length_replicate|].
    intros i r Hi.
    destruct (assign_filled planned pairsD _ HofD Hdep _ i r Hi) as [Hi'|?]; [|done].
    destruct (assign_filled planned parallelResults done_ Hof
                ltac:(intros; apply Hindep, Hsub; done) _ i r Hi') as [Hi''|?];
      [|done].
    by destruct (Hempty i r).
  - pose proof (executeSerial_results executor sandboxConfig ctl (length planned)
                  (independentSteps planned) cancelled []
                  (replicate (length planned) None))
      as (pairsI & HofI & HserialI).
    destruct (executeSerial _ (independentSteps planned) cancelled [] _)
      as [[[acts results] c] calls].
    cbn [fst snd] in *. subst results.
    pose proof (executeSerial_results executor sandboxConfig ctl (length planned)
                  (dependentSteps planned) c calls
                  (assign (replicate (length planned) None) pairsI))
      as (pairsD & HofD & HserialD).
    destruct (executeSerial _ (dependentSteps planned) c calls _)
      as [[[more results] c'] calls'].
    cbn [fst snd] in *. subst results. intros [= <-].
    split; [by rewrite !assign_length, length_replicate|].
    intros i r Hi.
    destruct (assign_filled planned pairsD _ HofD Hdep _ i r Hi) as [Hi'|?]; [|done].
    destruct (assign_filled planned pairsI _ HofI Hindep _ i r Hi') as [Hi''|?];
      [|done].
    by destruct (Hempty i r).
Qed.

(** X25: a result never lands in the slot of another step.  Whatever
    the controller does and whatever the sandbox and parallel
    configuration, when [execute] settles, a result without an error
    has one slot per step of the plan, a result with an error has
    none, and every slot that is filled holds a result whose [stepId]
    is the [id] of the step at that position.  Once the plan is
    approved the result carries no error, also when [cancel()] is
    called during the steps. *)
Theorem slots_hold_their_steps goal now planned res :
  withTimeout (planner goal) "规划超时" = Resolved planned →
  (execute goal now).2 = Some res →
  (∀ i r, steps res !! i = Some (Some r) →
     ∃ step, planned !! i = Some step ∧ stepId r = id step)
  ∧ match runError res with
    | Some _ => steps res = []
    | None => length (steps res) = length planned
    end
  ∧ (cancelWhilePlanning ctl = false → planAnswer ctl = Approve →
     cancelAfterPlanAnswer ctl = false → runError res = None).
Proof.
  intros Hplan. unfold EnhancedEngine.execute, failed. rewrite Hplan.
  destruct (cancelWhilePlanning ctl); [by intros [= <-]|].
  case_decide as Hempty.
  { intros [= <-]. simpl. split; [done|]. split; [|done].
    by destruct planned. }
  destruct (planAnswer ctl); simpl; try (by intros [= <-]).
  destruct (cancelAfterPlanAnswer ctl); [by intros [= <-]|].
  pose proof (executeSteps_slots planned false) as Hslots.
  destruct (executeSteps planned false) as [acts [slots|]]; [|done].
  destruct (Hslots slots eq_refl) as [Hlen Hfilled].
  intros [= <-]. simpl. done.
Qed.

(** Nothing is executed before the plan is approved. *)
Lemma execute_needs_approval goal now :
  executorCalls (execute goal now).1 ≠ [] →
  ∃ planned,
    withTimeout (planner goal) "规划超时" = Resolved planned
    ∧ planned ≠ []
    ∧ cancelWhilePlanning ctl = false
    ∧ planAnswer ctl = Approve
    ∧ cancelAfterPlanAnswer ctl = false.
Proof.
  unfold EnhancedEngine.execute, failed.
  destruct (withTimeout (planner goal) "规划超时") as [planned|message]; [|done].
  destruct (cancelWhilePlanning ctl); [done|].
  case_decide as Hempty; [done|].
  destruct (planAnswer ctl); simpl; try done.
  destruct (cancelAfterPlanAnswer ctl); [done|].
  intros _. exists planned. repeat split; try done. by intros ->.
Qed.

End Execute.

(** X26: the batches of [executeParallel] cut the list of steps into
    consecutive pieces: put together they give the list back; no batch
    is empty and every batch but the last holds exactly [maxConcurrent]
    steps.  For a [maxConcurrent] of zero or less and at least one step
    there are no batches to run: the loop that builds them does not
    end. *)
Theorem batches_partition {A} (maxConcurrent : Z) (items : list A) :
  match makeBatches maxConcurrent items with
  | Some batches =>
      concat batches = items
      ∧ Forall (λ batch, (0 < length batch)%nat
                         ∧ Z.of_nat (length batch) ≤ maxConcurrent) batches
      ∧ ∀ i batch, batches !! i = Some batch → (S i < length batches)%nat →
          Z.of_nat (length batch) = maxConcurrent
  | None => items ≠ [] ∧ maxConcurrent ≤ 0
  end.
Proof.
  unfold makeBatches. destruct items as [|x items]; [by split; [|split]|].
  case_decide as Hk; [|split; [done|lia]].
  assert (Hpos : (0 < Z.to_nat maxConcurrent)%nat) by lia.
  split; [apply slices_concat|].
  destruct (slices_full (Z.to_nat maxConcurrent) (x :: items) Hpos) as [Hnonempty Hfull].
  pose proof (slices_length (Z.to_nat maxConcurrent) (x :: items) Hpos) as Hle.
  split.
  - rewrite Forall_forall in Hnonempty, Hle. apply Forall_forall. intros batch Hin.
    specialize (Hnonempty batch Hin). specialize (Hle batch Hin). simpl in *. lia.
  - intros i batch Hi Hnext. rewrite (Hfull i batch Hi Hnext). lia.
Qed.

(** A fail-fast run that leaves the slot of the second step empty. *)
Lemma slots_hold_their_steps_witness :
  let planned := [testStep "step_0" "file_read" "READ";
                  testStep "step_1" "file_read" "READ"] in
  let out :=
    EnhancedEngine.execute (λ _, InTime (Resolved planned)) alwaysThrows None
      DEFAULT_SANDBOX_CONFIG {| maxConcurrent := 1; failFast := true |}
      autoConfirm "goal" 0 in
  ∃ res,
    out.2 = Some res
    ∧ steps res !! 1%nat = Some None
    ∧ length (steps res) = 2%nat
    ∧ ∀ i r, steps res !! i = Some (Some r) →
        ∃ step, planned !! i = Some step ∧ stepId r = id step.
Proof.
  intros planned out. eexists. split; [reflexivity|]. split; [reflexivity|].
  split; [reflexivity|].
  exact (proj1 (slots_hold_their_steps (λ _, InTime (Resolved planned)) alwaysThrows
                  None DEFAULT_SANDBOX_CONFIG {| maxConcurrent := 1; failFast := true |}
                  autoConfirm "goal" 0 planned _ eq_refl eq_refl)).
Defined.

(** X27: nothing is executed before the plan is approved.  If a run
    of either engine calls the executor at all, the planner has
    returned a plan, the plan was approved, and [cancel()] was not
    called before the steps started. *)
Theorem approval_before_execution
    (planner : string → Settled (list PlanStep))
    (executor : list PlanStep → PlanStep → Settled JsValue)
    (formatter : option (string → list StepResult → Settled string))
    (plannerE : string → Timed (list PlanStep))
    (executorE : list PlanStep → PlanStep → SandboxConfig → Timed JsValue)
    (formatterE : option (string → list Slot → Settled string))
    (sandboxConfig : SandboxConfig) (parallelConfig : ParallelConfig)
    (ctl : Controller) (goal : string) (now : Z) :
  (executorCalls (Engine.run planner executor formatter ctl goal now).1 ≠ [] →
   ∃ planned,
     planner goal = Resolved planned
     ∧ cancelWhilePlanning ctl = false
     ∧ planAnswer ctl = Approve
     ∧ cancelAfterPlanAnswer ctl = false)
  ∧ (executorCalls (execute plannerE executorE formatterE sandboxConfig
                      parallelConfig ctl goal now).1 ≠ [] →
     ∃ planned,
       withTimeout (plannerE goal) "规划超时" = Resolved planned
       ∧ planned ≠ []
       ∧ cancelWhilePlanning ctl = false
       ∧ planAnswer ctl = Approve
       ∧ cancelAfterPlanAnswer ctl = false).
Proof.
  split; [apply EngineFacts.run_needs_approval | apply execute_needs_approval].
Qed.

End EnhancedEngineFacts.

(** ** The controller methods and the event channel *)

Module ControllerFacts.
Import EngineTypes Confirmation.

Lemma calls_idle cs cancelled_ :
  (calls cs {| pendingConfirm := None; cancelled := cancelled_ |}).1 = [].
Proof.
  revert cancelled_. induction cs as [|c cs IH]; intros cancelled_; [done|].
  destruct c; simpl.
  - specialize (IH cancelled_). by destruct (calls cs _).
  - specialize (IH cancelled_). by destruct (calls cs _).
  - specialize (IH true). by destruct (calls cs _).
Qed.

Lemma calls_waiting type waiter cs : ∀ cancelled_,
  (calls cs {| pendingConfirm := Some (type, waiter); cancelled := cancelled_ |}).1
  = match list_find (λ c, is_Some (answers type c)) cs with
    | Some (_, c) => [(waiter, default false (answers type c))]
    | None => []
    end.
Proof.
  induction cs as [|c cs IH]; intros cancelled_; [done|].
  destruct c as [approved|approved|], type; simpl.
  - pose proof (calls_idle cs cancelled_) as Hidle.
    destruct (calls cs _). simpl in *. rewrite Hidle.
    try (rewrite decide_True by (by eexists)). done.
  - specialize (IH cancelled_). destruct (calls cs _). simpl in *. rewrite IH.
    try (rewrite decide_False by (by intros [? ?])).
    by destruct (list_find _ cs) as [[? ?]|].
  - specialize (IH cancelled_). destruct (calls cs _). simpl in *. rewrite IH.
    try (rewrite decide_False by (by intros [? ?])).
    by destruct (list_find _ cs) as [[? ?]|].
  - pose proof (calls_idle cs cancelled_) as Hidle.
    destruct (calls cs _). simpl in *. rewrite Hidle.
    try (rewrite decide_True by (by eexists)). done.
  - pose proof (calls_idle cs true) as Hidle.
    destruct (calls cs _). simpl in *. rewrite Hidle.
    try (rewrite decide_True by (by eexists)). done.
  - pose proof (calls_idle cs true) as Hidle.
    destruct (calls cs _). simpl in *. rewrite Hidle.
    try (rewrite decide_True by (by eexists)). done.
Qed.

(** X28: how a confirmation is answered.  After [waitForConfirm], of
    all the calls that the controller makes, the first that is a
    [cancel()] or a confirmation of the awaited kind resolves the wait
    (a [cancel()] resolves it to [false]); the calls before it are
    ignored and the calls after it resolve nothing.  A second
    [waitForConfirm] made before the first is answered takes its place:
    no call resolves the first waiter any more. *)
Theorem confirmation_answered (type : ConfirmType) (waiter : nat) (st : Pending)
    (cs : list Call) :
  (calls cs (waitForConfirm type waiter st)).1
  = match list_find (λ c, is_Some (answers type c)) cs with
    | Some (_, c) => [(waiter, default false (answers type c))]
    | None => []
    end
  ∧ ∀ earlier kind, earlier ≠ waiter →
      earlier ∉ (calls cs (waitForConfirm type waiter
                              (waitForConfirm kind earlier st))).1.*1.
Proof.
  split; [apply calls_waiting|].
  intros earlier kind Hne. unfold waitForConfirm at 1. simpl.
  rewrite calls_waiting.
  destruct (list_find _ cs) as [[? ?]|]; simpl.
  - by intros ->%list_elem_of_singleton.
  - apply not_elem_of_nil.
Qed.

End ControllerFacts.

Module EventChannelFacts.
Import EventChannel.

Section Channel.
Context {E : Type}.

(** A waiting generator has an empty queue, and what the consumer has
    received followed by the queue is what was there and what was
    emitted. *)
Lemma run_fifo (ops : list (Op E)) : ∀ ch,
  (generator ch = Waiting → eventQueue ch = []) →
  (run ops ch).1 ++ eventQueue (run ops ch).2 = eventQueue ch ++ emitted ops
  ∧ (generator (run ops ch).2 = Waiting → eventQueue (run ops ch).2 = []).
Proof.
  induction ops as [|op ops IH]; intros ch Hinv.
  - simpl. by rewrite app_nil_r.
  - destruct ch as [queue gen]. simpl in Hinv.
    destruct op as [event| |]; simpl.
    + unfold emit, eventResolver. simpl.
      destruct gen; simpl.
      * edestruct (IH {| eventQueue := queue ++ [event]; generator := Ready |})
          as [Hq Hw]; [done|].
        destruct (run ops _) as [more ch']. simpl in *.
        by rewrite Hq, <- app_assoc.
      * rewrite Hinv by done.
        edestruct (IH {| eventQueue := []; generator := Ready |}) as [Hq Hw]; [done|].
        destruct (run ops _) as [more ch']. simpl in *. by rewrite Hq.
      * edestruct (IH {| eventQueue := queue ++ [event]; generator := Done |})
          as [Hq Hw]; [done|].
        destruct (run ops _) as [more ch']. simpl in *.
        by rewrite Hq, <- app_assoc.
    + unfold next. simpl. destruct gen; simpl.
      * destruct queue as [|event rest]; simpl.
        -- edestruct (IH {| eventQueue := []; generator := Waiting |}) as [Hq Hw];
             [done|].
           destruct (run ops _) as [more ch']. simpl in *. by rewrite Hq.
        -- edestruct (IH {| eventQueue := rest; generator := Ready |}) as [Hq Hw];
             [done|].
           destruct (run ops _) as [more ch']. simpl in *. by rewrite Hq.
      * edestruct (IH {| eventQueue := queue; generator := Waiting |}) as [Hq Hw];
          [done|].
        destruct (run ops _) as [more ch']. simpl in *. by rewrite Hq.
      * edestruct (IH {| eventQueue := queue; generator := Done |}) as [Hq Hw];
          [done|].
        destruct (run ops _) as [more ch']. simpl in *. by rewrite Hq.
    + unfold cancel, eventResolver. simpl. destruct gen; simpl.
      * edestruct (IH {| eventQueue := queue; generator := Ready |}) as [Hq Hw];
          [done|].
        destruct (run ops _) as [more ch']. simpl in *. by rewrite Hq.
      * edestruct (IH {| eventQueue := queue; generator := Done |}) as [Hq Hw];
          [done|].
        destruct (run ops _) as [more ch']. simpl in *. by rewrite Hq.
      * edestruct (IH {| eventQueue := queue; generator := Done |}) as [Hq Hw];
          [done|].
        destruct (run ops _) as [more ch']. simpl in *. by rewrite Hq.
Qed.

Lemma run_done (ops : list (Op E)) : ∀ ch,
  generator (run ops ch).2 = Done → generator ch = Done ∨ Cancel ∈ ops.
Proof.
  induction ops as [|op ops IH]; intros ch Hdone; [by left|].
  simpl in Hdone.
  destruct op as [event| |].
  - destruct (emit event ch) as [yielded ch'] eqn:Eop.
    specialize (IH ch'). destruct (run ops ch') as [more ch'']. simpl in *.
    destruct (IH Hdone) as [Hd|Hin]; [|right; by right].
    left. unfold emit in Eop. destruct (eventResolver ch) eqn:Er;
      injection Eop as _ <-; simpl in Hd; [done|done].
  - destruct (next ch) as [yielded ch'] eqn:Eop.
    specialize (IH ch'). destruct (run ops ch') as [more ch'']. simpl in *.
    destruct (IH Hdone) as [Hd|Hin]; [|right; by right].
    left. unfold next in Eop. destruct (generator ch) eqn:Eg; [|congruence..].
    destruct (eventQueue ch); injection Eop as _ <-; done.
  - right. left.
Qed.

(** X29: the channel delivers every event once and in order.  Starting
    from [run]'s fresh channel, whatever the order of [emit]s, requests
    of the consumer and [cancel()]s, the events the consumer has
    received, followed by those still queued, are the events emitted so
    far, in the order of their emission. *)
Theorem channel_fifo (ops : list (Op E)) :
  (run ops start).1 ++ eventQueue (run ops start).2 = emitted ops.
Proof. by destruct (run_fifo ops start) as [-> _]. Qed.

(** X30: only [cancel()] ends the event generator, and only when it
    finds the generator waiting.  If the generator has left its loop,
    [cancel()] was called; a [cancel()] that comes while the consumer is
    not waiting for an event changes nothing in the channel.  So [run]
    does not return while nobody cancels, however many events
    [execute] emits. *)
Theorem generator_ends_on_cancel (ops : list (Op E)) :
  (generator (run ops start).2 = Done → Cancel ∈ ops)
  ∧ (∀ ch : Channel E, generator ch ≠ Waiting → cancel ch = ch)
  ∧ (Forall (λ op, op ≠ Cancel) ops → generator (run ops start).2 ≠ Done).
Proof.
  split; [|split].
  - intros Hdone. by destruct (run_done ops start Hdone).
  - intros ch Hw. unfold cancel, eventResolver. by destruct (generator ch).
  - intros Hnone Hdone. destruct (run_done ops start Hdone) as [|Hin]; [done|].
    rewrite Forall_forall in Hnone. by apply (Hnone Cancel).
Qed.

End Channel.

End EventChannelFacts.
